(** * Contract-Intelligence-API: the text core of [src/utils.py]

    A shallow embedding of the chunker ([PDFProcessor.chunk_text]), the
    rule-based field extractor ([ContractExtractor]), the keyword
    retriever ([RAGEngine.semantic_search]) and the risk auditor
    ([RiskAuditEngine]), with the properties the specification states
    about them; then of the file side of [PDFProcessor] (page extraction,
    file names and paths of uploads), the summary of an audit and the
    section and citation helpers of [src/api.py], with properties read
    off the code.

    Modelling conventions.
    - A Python [str] is a list of code points ([list N]).  Blanks are
      exact for every code point ([py_isspace] lists the characters of
      [str.isspace], which [\s], [strip] and [split] share).  Letters and
      digits are exact on ASCII: the cased letters and the decimal digits
      outside ASCII (among them the four letters that [re.IGNORECASE]
      folds into [i], [s] and [k]) behave here as caseless symbols, the
      way [€] and [£] really do.
    - A Python [int] is a [Z]; slices follow Python's rules for negative
      and out-of-range bounds.
    - A [dict] is a [gmap string pyval]; a [set] of strings a [gset].
    - The [re] module is a backtracking matcher over a regular-expression
      syntax tree, with the priorities of Python's engine (leftmost start,
      alternatives left to right, greedy and lazy repetition, groups by
      number).
    - A call returns, raises or, for the one loop that may not end, runs
      out of the fuel of the model ([outcome]). *)

From Stdlib Require Import ZArith NArith List String Ascii Lia Bool QArith.
From Stdlib Require Import Permutation Sorted DecimalString.
From stdpp Require Import gmap strings sorting.

Import ListNotations.
Local Open Scope Z_scope.

(** ** Characters and strings *)

Module Py.

(** A Python string: its code points. *)
Definition str := list N.

(** A string literal of the source, read byte by byte (ASCII literals). *)
Fixpoint lit (s : string) : str :=
  match s with
  | EmptyString => []
  | String a s' => N_of_ascii a :: lit s'
  end.

Definition euro : N := 8364%N.
Definition pound : N := 163%N.
Definition newline : N := 10%N.

Definition in_range (lo hi c : N) : bool := (lo <=? c)%N && (c <=? hi)%N.

(** [str.isspace] of one character: the blanks of [Py_UNICODE_ISSPACE]. *)
Definition py_isspace (c : N) : bool :=
  in_range 9 13 c || in_range 28 32 c ||
  (c =? 133)%N || (c =? 160)%N || (c =? 5760)%N ||
  in_range 8192 8202 c || (c =? 8232)%N || (c =? 8233)%N ||
  (c =? 8239)%N || (c =? 8287)%N || (c =? 12288)%N.

Definition is_digit (c : N) : bool := in_range 48 57 c.

Definition lower_char (c : N) : N :=
  if in_range 65 90 c then (c + 32)%N else c.

Definition upper_char (c : N) : N :=
  if in_range 97 122 c then (c - 32)%N else c.

(** [s.lower()] *)
Definition lower (s : str) : str := map lower_char s.

(** [len(s)], for strings and lists alike. *)
Definition len {A : Type} (s : list A) : Z := Z.of_nat (length s).

(** [s[i:j]] with Python's treatment of negative and overlong bounds. *)
Definition clamp_index (n i : Z) : Z :=
  if i <? 0 then Z.max 0 (i + n) else Z.min i n.

Definition slice {A : Type} (s : list A) (i j : Z) : list A :=
  let n := len s in
  let a := clamp_index n i in
  let b := clamp_index n j in
  firstn (Z.to_nat (b - a)) (skipn (Z.to_nat a) s).

(** [s[:j]] *)
Definition slice_to {A : Type} (s : list A) (j : Z) : list A := slice s 0 j.

(** [s.lstrip(chars)], [s.rstrip(chars)], [s.strip(chars)] for a
    predicate on characters. *)
Fixpoint lstrip_by (p : N -> bool) (s : str) : str :=
  match s with
  | [] => []
  | c :: s' => if p c then lstrip_by p s' else s
  end.

Definition rstrip_by (p : N -> bool) (s : str) : str :=
  rev (lstrip_by p (rev s)).

Definition strip_by (p : N -> bool) (s : str) : str :=
  rstrip_by p (lstrip_by p s).

(** [s.strip()] *)
Definition strip (s : str) : str := strip_by py_isspace s.

(** [s.strip(c)] for a one-character argument. *)
Definition strip_char (c : N) (s : str) : str :=
  strip_by (fun x => (x =? c)%N) s.

Definition str_eqb (a b : str) : bool :=
  if decide (a = b) then true else false.

(** [sub in s] *)
Fixpoint is_prefix (p s : str) : bool :=
  match p, s with
  | [], _ => true
  | _ :: _, [] => false
  | a :: p', b :: s' => (a =? b)%N && is_prefix p' s'
  end.

Fixpoint contains (sub s : str) : bool :=
  is_prefix sub s ||
  match s with
  | [] => false
  | _ :: s' => contains sub s'
  end.

(** [s.split()]: the maximal runs of non-blank characters. *)
Fixpoint split_ws_go (cur : str) (s : str) : list str :=
  match s with
  | [] => match cur with [] => [] | _ => [rev cur] end
  | c :: s' =>
      if py_isspace c
      then match cur with
           | [] => split_ws_go [] s'
           | _ => rev cur :: split_ws_go [] s'
           end
      else split_ws_go (c :: cur) s'
  end.

Definition split (s : str) : list str := split_ws_go [] s.

(** [s.replace(c, '')] for a one-character [c]. *)
Definition remove_char (c : N) (s : str) : str :=
  List.filter (fun x => negb (x =? c)%N) s.

(** [int(s)] on a run of decimal digits. *)
Definition digit_val (c : N) : Z := Z.of_N (c - 48).

Definition int_of_digits (s : str) : Z :=
  fold_left (fun acc c => 10 * acc + digit_val c) s 0.

End Py.

(** ** The [re] module: a backtracking matcher *)

Module Re.
Import Py.

(** Character sets: [x], [a-z], [\s], [\d], [.], unions and [[^...]]. *)
Inductive cset : Type :=
| CChar (c : N)
| CRange (lo hi : N)
| CSpace
| CDigit
| CDot
| CUnion (a b : cset)
| CNot (a : cset).

(** Membership, under [re.IGNORECASE] when [icase] is set: a literal or a
    range then also accepts the other case of the character. *)
Fixpoint cset_has (icase : bool) (cs : cset) (c : N) : bool :=
  match cs with
  | CChar x => (c =? x)%N || (icase && (lower_char c =? lower_char x)%N)
  | CRange lo hi =>
      in_range lo hi c ||
      (icase && (in_range lo hi (lower_char c) || in_range lo hi (upper_char c)))
  | CSpace => py_isspace c
  | CDigit => is_digit c
  | CDot => negb (c =? newline)%N
  | CUnion a b => cset_has icase a c || cset_has icase b c
  | CNot a => negb (cset_has icase a c)
  end.

(** Regular expressions of the subset the source uses.  [Grp n r] is the
    n-th capturing group; non-capturing groups are plain sub-terms. *)
Inductive regex : Type :=
| Eps
| Chr (cs : cset)
| Eol
| Cat (a b : regex)
| Alt (a b : regex)
| Star (greedy : bool) (a : regex)
| Grp (n : nat) (a : regex).

Record flags : Type := { IGNORECASE : bool; MULTILINE : bool }.

Definition no_flags : flags := {| IGNORECASE := false; MULTILINE := false |}.
Definition I_flag : flags := {| IGNORECASE := true; MULTILINE := false |}.
Definition IM_flags : flags := {| IGNORECASE := true; MULTILINE := true |}.

(** Spans of the capturing groups, most recent first. *)
Definition caps : Type := list (nat * (nat * nat)).

Fixpoint cap_lookup (n : nat) (cp : caps) : option (nat * nat) :=
  match cp with
  | [] => None
  | (m, sp) :: cp' => if Nat.eqb n m then Some sp else cap_lookup n cp'
  end.

(** [$]: at the end, or in front of a newline (any newline under
    [re.MULTILINE], else only a final one). *)
Definition at_eol (fl : flags) (s : str) : bool :=
  match s with
  | [] => true
  | c :: s' =>
      (c =? newline)%N &&
      (MULTILINE fl || match s' with [] => true | _ => false end)
  end.

Section Matcher.
Context {A : Type}.
Variable fl : flags.

(** The loop of a repetition [a*] ([greedy]) or [a*?]: [step] matches the
    body once.  A turn that consumed nothing is given up, and the fuel,
    the length of the text left, covers every turn that consumes. *)
Fixpoint star_loop
    (step : str -> nat -> caps -> (str -> nat -> caps -> option A) -> option A)
    (greedy : bool) (k : str -> nat -> caps -> option A)
    (fuel : nat) (s : str) (pos : nat) (cp : caps) : option A :=
  match fuel with
  | O => k s pos cp
  | S fuel' =>
      let again := fun s1 p1 c1 =>
        if (pos <? p1)%nat then star_loop step greedy k fuel' s1 p1 c1 else None in
      if greedy then
        match step s pos cp again with
        | Some x => Some x
        | None => k s pos cp
        end
      else
        match k s pos cp with
        | Some x => Some x
        | None => step s pos cp again
        end
  end.

(** [mt r s pos cp k]: match [r] at the front of [s] (which starts at
    offset [pos]) and hand the rest to the continuation [k]; the first
    success in the engine's priority order is the answer. *)
Fixpoint mt (r : regex) (s : str) (pos : nat) (cp : caps)
    (k : str -> nat -> caps -> option A) {struct r} : option A :=
  match r with
  | Eps => k s pos cp
  | Chr cs =>
      match s with
      | c :: s' => if cset_has (IGNORECASE fl) cs c then k s' (S pos) cp else None
      | [] => None
      end
  | Eol => if at_eol fl s then k s pos cp else None
  | Cat a b => mt a s pos cp (fun s1 p1 c1 => mt b s1 p1 c1 k)
  | Alt a b =>
      match mt a s pos cp k with
      | Some x => Some x
      | None => mt b s pos cp k
      end
  | Star g a => star_loop (mt a) g k (length s) s pos cp
  | Grp n a => mt a s pos cp (fun s1 p1 c1 => k s1 p1 ((n, (pos, p1)) :: c1))
  end.

End Matcher.

(** A match object: [m.start()], [m.end()] and the group spans, all
    relative to the searched string. *)
Record mtch : Type := { m_start : nat; m_end : nat; m_caps : caps }.

Definition match_here (fl : flags) (r : regex) (s : str) (pos : nat) : option mtch :=
  mt fl r s pos [] (fun _ e c => Some {| m_start := pos; m_end := e; m_caps := c |}).

(** [re.search]: the match at the leftmost start that has one. *)
Fixpoint search_go (fl : flags) (r : regex) (s : str) (pos : nat) : option mtch :=
  match match_here fl r s pos with
  | Some m => Some m
  | None =>
      match s with
      | [] => None
      | _ :: s' => search_go fl r s' (S pos)
      end
  end.

Definition search (fl : flags) (r : regex) (text : str) : option mtch :=
  search_go fl r text 0.

(** [re.finditer]: the successive non-overlapping matches, left to right;
    after an empty match the scan resumes one character further. *)
Fixpoint finditer_go (fl : flags) (r : regex) (fuel : nat) (s : str) (pos : nat)
  : list mtch :=
  match fuel with
  | O => []
  | S fuel' =>
      match search_go fl r s pos with
      | None => []
      | Some m =>
          let rest := skipn (m_end m - pos) s in
          if (m_start m <? m_end m)%nat
          then m :: finditer_go fl r fuel' rest (m_end m)
          else match rest with
               | [] => [m]
               | _ :: rest' => m :: finditer_go fl r fuel' rest' (S (m_end m))
               end
      end
  end.

Definition finditer (fl : flags) (r : regex) (text : str) : list mtch :=
  finditer_go fl r (S (length text)) text 0.

Definition substr (text : str) (a b : nat) : str :=
  firstn (b - a) (skipn a text).

(** [m.group(0)] and [m.group(n)] ([None] for a group that took no part). *)
Definition group0 (text : str) (m : mtch) : str :=
  substr text (m_start m) (m_end m).

Definition group (text : str) (m : mtch) (n : nat) : option str :=
  match cap_lookup n (m_caps m) with
  | Some (a, b) => Some (substr text a b)
  | None => None
  end.

(** [re.findall] for a pattern with one group: the group of each match,
    the empty string where it took no part. *)
Definition findall1 (fl : flags) (r : regex) (text : str) : list str :=
  map (fun m => match group text m 1 with Some g => g | None => [] end)
      (finditer fl r text).

(** *** Pattern notation *)

Definition ch (c : string) : regex :=
  match lit c with
  | [x] => Chr (CChar x)
  | _ => Eps
  end.

Fixpoint word (s : str) : regex :=
  match s with
  | [] => Eps
  | [c] => Chr (CChar c)
  | c :: s' => Cat (Chr (CChar c)) (word s')
  end.

(** A literal run of the pattern. *)
Definition w (s : string) : regex := word (lit s).

Fixpoint seq (rs : list regex) : regex :=
  match rs with
  | [] => Eps
  | [r] => r
  | r :: rs' => Cat r (seq rs')
  end.

Fixpoint alts (rs : list regex) : regex :=
  match rs with
  | [] => Eps
  | [r] => r
  | r :: rs' => Alt r (alts rs')
  end.

(** [r*], [r*?], [r+], [r+?], [r?], [r{n}] *)
Definition star (r : regex) : regex := Star true r.
Definition star_lazy (r : regex) : regex := Star false r.
Definition plus (r : regex) : regex := Cat r (Star true r).
Definition plus_lazy (r : regex) : regex := Cat r (Star false r).
Definition opt (r : regex) : regex := Alt r Eps.
Fixpoint times (n : nat) (r : regex) : regex :=
  match n with
  | O => Eps
  | 1%nat => r
  | S n' => Cat r (times n' r)
  end.

(** [\s], [\d], [.], [.*?] *)
Definition ws : regex := Chr CSpace.
Definition digit : regex := Chr CDigit.
Definition dot : regex := Chr CDot.
Definition any_lazy : regex := star_lazy dot.

Definition range (lo hi : string) : cset :=
  match lit lo, lit hi with
  | [a], [b] => CRange a b
  | _, _ => CNot CDot
  end.

Definition chr1 (c : string) : cset :=
  match lit c with
  | [x] => CChar x
  | _ => CNot CDot
  end.

Fixpoint cunion (cs : list cset) : cset :=
  match cs with
  | [] => CNot (CUnion CDot (CChar newline))
  | [c] => c
  | c :: cs' => CUnion c (cunion cs')
  end.

End Re.

(** ** Outcomes of a call *)

Inductive exn : Type := ValueError | AttributeError | TypeError.

(** A call returns a value, raises, or is still running when the fuel of
    the model is spent. *)
Inductive outcome (A : Type) : Type :=
| Return (a : A)
| Raise (e : exn)
| OutOfFuel.

Arguments Return {A} a.
Arguments Raise {A} e.
Arguments OutOfFuel {A}.

Definition bind {A B : Type} (x : outcome A) (f : A -> outcome B) : outcome B :=
  match x with
  | Return a => f a
  | Raise e => Raise e
  | OutOfFuel => OutOfFuel
  end.

(** ** The chunker: [PDFProcessor.chunk_text] *)

Module PDFProcessor.
Import Py Re.

(** [[r'\.\s', r'\!\s', r'\?\s', r'\n\n']] *)
Definition boundary_patterns : list regex :=
  [ seq [ch "."; ws]; seq [ch "!"; ws]; seq [ch "?"; ws];
    word [newline; newline] ].

(** The [for pattern in ...] loop: the last match of the first pattern
    that has one. *)
Fixpoint last_boundary (ps : list regex) (search_text : str) : option mtch :=
  match ps with
  | [] => None
  | p :: ps' =>
      match finditer no_flags p search_text with
      | [] => last_boundary ps' search_text
      | m :: ms => Some (List.last ms m)
      end
  end.

(** The value of [end] when the chunk is cut. *)
Definition chunk_end (text : str) (chunk_size start : Z) : Z :=
  let end_ := start + chunk_size in
  if end_ <? len text then
    let search_start := Z.max start (end_ - 100) in
    let search_text := slice text search_start (end_ + 100) in
    match last_boundary boundary_patterns search_text with
    | Some m => search_start + Z.of_nat (m_end m)
    | None => end_
    end
  else end_.

(** One turn of the [while] loop from the cursor [start]: the chunks list
    and the cursor after it. *)
Definition chunk_step (text : str) (chunk_size chunk_overlap : Z)
    (start : Z) (chunks : list str) : Z * list str :=
  let end_ := chunk_end text chunk_size start in
  let chunk := strip (slice text start end_) in
  (end_ - chunk_overlap,
   match chunk with
   | [] => chunks
   | _ => chunks ++ [chunk]
   end).

(** [while start < text_length: ...], one turn per unit of fuel. *)
Fixpoint chunk_loop (fuel : nat) (text : str) (chunk_size chunk_overlap : Z)
    (start : Z) (chunks : list str) : outcome (list str) :=
  if start <? len text then
    match fuel with
    | O => OutOfFuel
    | S fuel' =>
        let '(start', chunks') := chunk_step text chunk_size chunk_overlap start chunks in
        chunk_loop fuel' text chunk_size chunk_overlap start' chunks'
    end
  else Return chunks.

Definition chunk_text (fuel : nat) (text : str) (chunk_size chunk_overlap : Z)
  : outcome (list str) :=
  match text with
  | [] => Return []
  | _ => chunk_loop fuel text chunk_size chunk_overlap 0 []
  end.

(** The configurations the specification calls valid. *)
Definition valid_config (chunk_size chunk_overlap : Z) : Prop :=
  0 < chunk_size /\ 0 <= chunk_overlap < chunk_size.

End PDFProcessor.

(** ** Python values and dictionaries *)

(** The values the dictionaries of the source hold: [None], integers,
    floats (as the rational they denote) and strings. *)
Inductive pyval : Type :=
| VNone
| VInt (z : Z)
| VFloat (q : Q)
| VStr (s : Py.str).

(** Truth value of a Python value ([if v:], [not v]). *)
Definition truthy (v : pyval) : bool :=
  match v with
  | VNone => false
  | VInt z => negb (z =? 0)
  | VFloat q => negb (Qeq_bool q 0)
  | VStr s => match s with [] => false | _ => true end
  end.

Abbreviation dict := (gmap string pyval).

(** [d.get(k)], which is [None] for a missing key, and [d.get(k, dflt)]. *)
Definition dict_get (d : dict) (k : string) : pyval :=
  match d !! k with
  | Some v => v
  | None => VNone
  end.

Definition dict_get_default (d : dict) (k : string) (dflt : pyval) : pyval :=
  match d !! k with
  | Some v => v
  | None => dflt
  end.

(** Truth value of a dictionary: non-empty. *)
Definition dict_truthy (d : dict) : bool :=
  if decide (d = ∅) then false else true.

(** ** The field extractor: [ContractExtractor] *)

Module ContractExtractor.
Import Py Re.

(** [[A-Za-z\s&,\.]] *)
Definition name_chars : cset :=
  cunion [range "A" "Z"; range "a" "z"; CSpace; chr1 "&"; chr1 ","; chr1 "."].

(** [([A-Z][A-Za-z\s&,\.]+?)] *)
Definition party_name : regex :=
  Grp 1 (Cat (Chr (range "A" "Z")) (plus_lazy (Chr name_chars))).

(** [(?:\n|$)] *)
Definition line_end : regex := Alt (Chr (CChar newline)) Eol.

Definition party_patterns : list regex :=
  [ (* between\s+([A-Z][A-Za-z\s&,\.]+?)\s+(?:and|&) *)
    seq [w "between"; plus ws; party_name; plus ws; alts [w "and"; ch "&"]];
    (* entered into by\s+([A-Z][A-Za-z\s&,\.]+?)\s+(?:and|&) *)
    seq [w "entered into by"; plus ws; party_name; plus ws; alts [w "and"; ch "&"]];
    (* PARTY\s+(?:A|1):\s*([A-Z][A-Za-z\s&,\.]+?)(?:\n|$) *)
    seq [w "PARTY"; plus ws; alts [ch "A"; ch "1"]; ch ":"; star ws; party_name; line_end];
    (* (?:Client|Vendor|Contractor):\s*([A-Z][A-Za-z\s&,\.]+?)(?:\n|$) *)
    seq [alts [w "Client"; w "Vendor"; w "Contractor"]; ch ":"; star ws; party_name; line_end]
  ].

(** The [for match in matches] loop body: the trimmed capture, kept when
    longer than three characters. *)
Definition clean_party (m : str) : list str :=
  let party := strip_char 46 (strip_char 44 (strip m)) in
  match party with
  | [] => []
  | _ => if 3 <? len party then [party] else []
  end.

Section Parties.
(** [list(set(parties))]: the distinct elements in the iteration order of
    the hash set, which Python does not fix. *)
Variable set_order : list str -> list str.

Definition extract_parties (text : str) : list str :=
  let parties :=
    flat_map (fun pattern =>
                flat_map clean_party (findall1 IM_flags pattern (slice_to text 2000)))
             party_patterns in
  slice_to (set_order parties) 5.
End Parties.

(** [\d{1,2}], [\d{2,4}], [\d{4}] *)
Definition d1_2 : regex := Cat digit (opt digit).
Definition d2_4 : regex := seq [digit; digit; opt (Cat digit (opt digit))].
Definition d4 : regex := times 4 digit.

(** [(?:effective|dated?|entered into)] *)
Definition date_lead : regex :=
  alts [w "effective"; Cat (w "date") (opt (ch "d")); w "entered into"].

(** [[A-Z][a-z]+\s+\d{1,2},?\s+\d{4}] *)
Definition textual_date : regex :=
  seq [Chr (range "A" "Z"); plus (Chr (range "a" "z")); plus ws; d1_2;
       opt (ch ","); plus ws; d4].

Definition date_patterns : list regex :=
  [ (* (?:effective|dated?|entered into).*?(\d{1,2}[\/\-]\d{1,2}[\/\-]\d{2,4}) *)
    seq [date_lead; any_lazy;
         Grp 1 (seq [d1_2; Chr (CUnion (chr1 "/") (chr1 "-")); d1_2;
                     Chr (CUnion (chr1 "/") (chr1 "-")); d2_4])];
    (* (?:effective|dated?|entered into).*?([A-Z][a-z]+\s+\d{1,2},?\s+\d{4}) *)
    seq [date_lead; any_lazy; Grp 1 textual_date];
    (* Effective Date:\s*([A-Z][a-z]+\s+\d{1,2},?\s+\d{4}) *)
    seq [w "Effective Date:"; star ws; Grp 1 textual_date]
  ].

(** The [for pattern in ...: match = re.search(...); if match: return ...]
    cascade: the first pattern that matches decides. *)
Fixpoint first_match (fl : flags) (ps : list regex) (text : str) : option mtch :=
  match ps with
  | [] => None
  | p :: ps' =>
      match search fl p text with
      | Some m => Some m
      | None => first_match fl ps' text
      end
  end.

(** [extract_dates] returns [match.group(1)] untouched. *)
Definition extract_dates (text : str) : option str :=
  let head := slice_to text 2000 in
  match first_match I_flag date_patterns head with
  | Some m => group head m 1
  | None => None
  end.

(** [x.strip()] on the result of [match.group(1)], which is [None] for a
    group that took no part in the match. *)
Definition group_strip (text : str) (m : mtch) : outcome str :=
  match group text m 1 with
  | Some g => Return (strip g)
  | None => Raise AttributeError
  end.

(** [\d+\s+(?:year|month|day)s?] *)
Definition duration : regex :=
  seq [plus digit; plus ws; alts [w "year"; w "month"; w "day"]; opt (ch "s")].

(** [[^\n]+] *)
Definition rest_of_line : regex := plus (Chr (CNot (CChar newline))).

Definition term_patterns : list regex :=
  [ (* (?:term|duration).*?(\d+\s+(?:year|month|day)s?) *)
    seq [alts [w "term"; w "duration"]; any_lazy; Grp 1 duration];
    (* for a period of\s+(\d+\s+(?:year|month|day)s?) *)
    seq [w "for a period of"; plus ws; Grp 1 duration];
    (* Term:\s*([^\n]+) *)
    seq [w "Term:"; star ws; Grp 1 rest_of_line]
  ].

Definition extract_term (text : str) : outcome (option str) :=
  let head := slice_to text 3000 in
  match first_match I_flag term_patterns head with
  | Some m => bind (group_strip head m) (fun s => Return (Some s))
  | None => Return None
  end.

(** [[A-Z][a-z]+(?:\s+[A-Z][a-z]+)*] *)
Definition place : regex :=
  let cap_word := Cat (Chr (range "A" "Z")) (plus (Chr (range "a" "z"))) in
  Cat cap_word (star (Cat (plus ws) cap_word)).

Definition law_patterns : list regex :=
  [ (* governed by.*?laws of\s+(PLACE), with PLACE the pattern of [place] *)
    seq [w "governed by"; any_lazy; w "laws of"; plus ws; Grp 1 place];
    (* governing law.*?(PLACE)\s+law *)
    seq [w "governing law"; any_lazy; Grp 1 place; plus ws; w "law"];
    (* Governing Law:\s*([^\n]+) *)
    seq [w "Governing Law:"; star ws; Grp 1 rest_of_line]
  ].

Definition extract_governing_law (text : str) : outcome (option str) :=
  match first_match I_flag law_patterns text with
  | Some m => bind (group_strip text m) (fun s => Return (Some s))
  | None => Return None
  end.

(** The currency markers of the two liability patterns,
    [(?:USD|EUR|\$|€|£)], and of the currency search,
    [(USD|EUR|GBP|\$|€|£)]. *)
Definition amount_marker : regex :=
  alts [w "USD"; w "EUR"; ch "$"; Chr (CChar euro); Chr (CChar pound)].

Definition currency_pattern : regex :=
  Grp 1 (alts [w "USD"; w "EUR"; w "GBP"; ch "$"; Chr (CChar euro); Chr (CChar pound)]).

(** [(\d+(?:,\d{3})*(?:\.\d{2})?)] *)
Definition amount : regex :=
  Grp 1 (seq [plus digit; star (Cat (ch ",") (times 3 digit));
              opt (Cat (ch ".") (times 2 digit))]).

Definition liability_patterns : list regex :=
  [ (* liability.*?(?:limited|capped|exceed).*?(?:USD|EUR|\$|€|£)\s*(AMOUNT) *)
    seq [w "liability"; any_lazy; alts [w "limited"; w "capped"; w "exceed"];
         any_lazy; amount_marker; star ws; amount];
    (* (?:USD|EUR|\$|€|£)\s*(AMOUNT).*?liability *)
    seq [amount_marker; star ws; amount; any_lazy; w "liability"]
  ].

(** [float(s)] on the decimal numerals [d+] and [d+.d+], as the rational
    the numeral denotes; [None] stands for [ValueError].  (The signs,
    exponents and blanks [float] also reads never reach it from the
    amount pattern.) *)
Fixpoint split_dot (s : str) : str * option str :=
  match s with
  | [] => ([], None)
  | c :: s' =>
      if (c =? 46)%N then ([], Some s')
      else let '(a, b) := split_dot s' in (c :: a, b)
  end.

Definition all_digits (s : str) : bool :=
  match s with
  | [] => false
  | _ => forallb is_digit s
  end.

Definition py_float (s : str) : option Q :=
  match split_dot s with
  | (ip, None) =>
      if all_digits ip then Some (inject_Z (int_of_digits ip)) else None
  | (ip, Some fp) =>
      if all_digits ip && all_digits fp
      then Some (Qmake (int_of_digits ip * 10 ^ len fp + int_of_digits fp)
                       (Z.to_pos (10 ^ len fp)))
      else None
  end.

(** The [if curr in ['€', 'EUR'] ... elif curr in ['£', 'GBP']] chain on
    the marker found (no marker found: the default stays). *)
Definition normalize_currency (curr : option str) : str :=
  match curr with
  | Some c =>
      if str_eqb c [euro] || str_eqb c (lit "EUR") then lit "EUR"
      else if str_eqb c [pound] || str_eqb c (lit "GBP") then lit "GBP"
      else lit "USD"
  | None => lit "USD"
  end.

(** The currency of a match: the first marker anywhere in
    [match.group(0)]. *)
Definition currency_of (matched : str) : str :=
  normalize_currency
    (match search no_flags currency_pattern matched with
     | Some cm => group matched cm 1
     | None => None
     end).

Section LiabilityCap.
(** The numeric parse, which may fail with [ValueError]. *)
Variable float_ : str -> option Q.

Fixpoint cap_cascade (ps : list regex) (text : str) : outcome dict :=
  match ps with
  | [] => Return ∅
  | p :: ps' =>
      match search I_flag p text with
      | Some m =>
          match group text m 1 with
          | None => Raise AttributeError
          | Some g =>
              let amount_str := remove_char 44 g in
              match float_ amount_str with
              | Some amount =>
                  Return (<["amount" := VFloat amount]>
                          (<["currency" := VStr (currency_of (group0 text m))]> ∅))
              | None => cap_cascade ps' text
              end
          end
      | None => cap_cascade ps' text
      end
  end.

Definition extract_liability_cap_with (text : str) : outcome dict :=
  cap_cascade liability_patterns text.
End LiabilityCap.

Definition extract_liability_cap (text : str) : outcome dict :=
  extract_liability_cap_with py_float text.

(** [auto(?:matic)?(?:ally)?\s+renew] *)
Definition auto_renew_pattern : regex :=
  seq [w "auto"; opt (w "matic"); opt (w "ally"); plus ws; w "renew"].

(** [(\d+)\s+day[s]?\s+(?:notice|prior)] *)
Definition notice_pattern : regex :=
  seq [Grp 1 (plus digit); plus ws; w "day"; opt (ch "s"); plus ws;
       alts [w "notice"; w "prior"]].

(** An f-string prints a missing group as [None]. *)
Definition fmt_group (g : option str) : str :=
  match g with
  | Some s => s
  | None => lit "None"
  end.

Definition extract_auto_renewal (text : str) : str :=
  match search I_flag auto_renew_pattern text with
  | Some _ =>
      match search I_flag notice_pattern text with
      | Some notice_match =>
          lit "Yes, " ++ fmt_group (group text notice_match 1)
            ++ lit " days notice required"
      | None => lit "Yes"
      end
  | None => lit "No"
  end.

End ContractExtractor.

(** ** The keyword retriever: [RAGEngine.semantic_search] *)

Module RAGEngine.
Import Py.

(** [set(query.lower().split())] *)
Definition query_words (query : str) : gset str :=
  list_to_set (split (lower query)).

(** [chunk.get('text_content', '').lower()]; only a string has [lower]. *)
Definition chunk_text_lower (chunk : dict) : outcome str :=
  match dict_get_default chunk "text_content" (VStr []) with
  | VStr s => Return (lower s)
  | _ => Raise AttributeError
  end.

(** [sum(1 for word in query_words if word in text)] *)
Definition overlap_score (words : gset str) (text : str) : Z :=
  len (List.filter (fun word => contains word text) (elements words)).

(** The [for chunk in chunks] loop, building [scored_chunks]. *)
Fixpoint score_chunks (words : gset str) (chunks : list dict) : outcome (list dict) :=
  match chunks with
  | [] => Return []
  | chunk :: chunks' =>
      bind (chunk_text_lower chunk) (fun text =>
        let score := overlap_score words text in
        bind (score_chunks words chunks') (fun scored =>
          Return (if 0 <? score
                  then <["relevance_score" := VInt score]> chunk :: scored
                  else scored)))
  end.

(** [x['relevance_score']] of a scored record. *)
Definition relevance (x : dict) : Z :=
  match x !! "relevance_score" with
  | Some (VInt z) => z
  | _ => 0
  end.

(** [list.sort(key=..., reverse=True)]: a stable sort by descending key,
    here by insertion from the right. *)
Fixpoint insert_desc {A : Type} (key : A -> Z) (x : A) (l : list A) : list A :=
  match l with
  | [] => [x]
  | y :: l' => if key x <? key y then y :: insert_desc key x l' else x :: y :: l'
  end.

Definition sort_desc {A : Type} (key : A -> Z) (l : list A) : list A :=
  fold_right (insert_desc key) [] l.

Definition semantic_search (query : str) (chunks : list dict) (top_k : Z)
  : outcome (list dict) :=
  bind (score_chunks (query_words query) chunks) (fun scored_chunks =>
    Return (slice_to (sort_desc relevance scored_chunks) top_k)).

End RAGEngine.

(** ** The risk auditor: [RiskAuditEngine] *)

Module RiskAuditEngine.
Import Py Re.

(** An entry of [RISK_RULES]. *)
Record rule : Type := {
  id : string;
  name : string;
  severity : string;
  patterns : list regex;
  check_func : option string
}.

(** The entries of [RISK_RULES], in the order of the table. *)
Definition MISSING_TERMINATION : rule :=
  {| id := "MISSING_TERMINATION"; name := "Missing Termination Clause";
     severity := "high"; patterns := [];
     check_func := Some "check_termination_clause"%string |}.

Definition UNLIMITED_LIABILITY : rule :=
  {| id := "UNLIMITED_LIABILITY"; name := "Unlimited Liability";
     severity := "high";
     patterns :=
       [ (* unlimited\s+liability *)
         seq [w "unlimited"; plus ws; w "liability"];
         (* no\s+(?:limit|cap).*?liability *)
         seq [w "no"; plus ws; alts [w "limit"; w "cap"]; any_lazy; w "liability"] ];
     check_func := None |}.

Definition AUTO_RENEWAL : rule :=
  {| id := "AUTO_RENEWAL"; name := "Automatic Renewal Without Notice";
     severity := "medium";
     patterns :=
       [ (* auto(?:matic)?(?:ally)?\s+renew *)
         seq [w "auto"; opt (w "matic"); opt (w "ally"); plus ws; w "renew"] ];
     check_func := Some "check_auto_renewal"%string |}.

Definition MISSING_GOVERNING_LAW : rule :=
  {| id := "MISSING_GOVERNING_LAW"; name := "Missing Governing Law";
     severity := "medium"; patterns := [];
     check_func := Some "check_governing_law"%string |}.

Definition UNILATERAL_MODIFICATION : rule :=
  {| id := "UNILATERAL_MODIFICATION"; name := "Unilateral Modification Rights";
     severity := "high";
     patterns :=
       [ (* (?:may|can|shall)\s+(?:modify|change|amend).*?(?:at any time|without notice) *)
         seq [alts [w "may"; w "can"; w "shall"]; plus ws;
              alts [w "modify"; w "change"; w "amend"]; any_lazy;
              alts [w "at any time"; w "without notice"]];
         (* reserves?\s+the\s+right\s+to\s+(?:modify|change|amend) *)
         seq [w "reserve"; opt (ch "s"); plus ws; w "the"; plus ws; w "right";
              plus ws; w "to"; plus ws; alts [w "modify"; w "change"; w "amend"]] ];
     check_func := None |}.

Definition SHORT_NOTICE_TERMINATION : rule :=
  {| id := "SHORT_NOTICE_TERMINATION"; name := "Short Notice Period";
     severity := "medium";
     patterns :=
       [ (* (?:terminate|cancel).*?(\d+)\s+days?\s+notice *)
         seq [alts [w "terminate"; w "cancel"]; any_lazy; Grp 1 (plus digit);
              plus ws; w "day"; opt (ch "s"); plus ws; w "notice"] ];
     check_func := Some "check_termination_notice"%string |}.

Definition BROAD_INDEMNITY : rule :=
  {| id := "BROAD_INDEMNITY"; name := "Broad Indemnity Clause";
     severity := "high";
     patterns :=
       [ (* indemnify.*?(?:from\s+(?:any|all)|harmless) *)
         seq [w "indemnify"; any_lazy;
              alts [seq [w "from"; plus ws; alts [w "any"; w "all"]]; w "harmless"]];
         (* hold\s+harmless *)
         seq [w "hold"; plus ws; w "harmless"] ];
     check_func := None |}.

Definition NO_WARRANTY : rule :=
  {| id := "NO_WARRANTY"; name := "No Warranty Disclaimer";
     severity := "low";
     patterns :=
       [ (* as\s+is *)
         seq [w "as"; plus ws; w "is"];
         (* without\s+warranty *)
         seq [w "without"; plus ws; w "warranty"];
         (* no\s+warranties *)
         seq [w "no"; plus ws; w "warranties"] ];
     check_func := None |}.

Definition RISK_RULES : list rule :=
  [ MISSING_TERMINATION; UNLIMITED_LIABILITY; AUTO_RENEWAL; MISSING_GOVERNING_LAW;
    UNILATERAL_MODIFICATION; SHORT_NOTICE_TERMINATION; BROAD_INDEMNITY; NO_WARRANTY ].

(** The engine object: what [self] holds.  [RISK_RULES] is the class
    attribute, reached through [self]. *)
Record engine : Type := {
  model : string;
  rules : list rule
}.

(** [__init__] *)
Definition init (model : string) : engine :=
  {| model := model; rules := RISK_RULES |}.

Definition str_val (s : string) : pyval := VStr (lit s).
Definition nat_val (n : nat) : pyval := VInt (Z.of_nat n).

(** [extracted_data and not extracted_data.get(key)] *)
Definition lacks (extracted_data : option dict) (key : string) : bool :=
  match extracted_data with
  | Some d => dict_truthy d && negb (truthy (dict_get d key))
  | None => false
  end.

Definition check_termination_clause (text : str) (extracted_data : option dict)
  : option dict :=
  match search I_flag (seq [w "terminat"; alts [w "ion"; ch "e"]]) text with
  | None => Some {[ "evidence"%string := str_val "No termination clause found in document" ]}
  | Some _ =>
      if lacks extracted_data "termination"
      then Some {[ "evidence"%string := str_val "Termination clause not clearly defined" ]}
      else None
  end.

(** The dictionary both branches of [check_auto_renewal] build: the text
    from the renewal phrase on, at most 200 characters. *)
Definition anchored (text : str) (start : Z) (end_ : Z) : dict :=
  <["evidence" := VStr (slice text start end_)]>
  (<["char_start" := VInt start]> (<["char_end" := VInt end_]> ∅)).

(** [auto(?:matic)?(?:ally)?\s+renew] and
    [(\d+)\s+days?\s+(?:notice|prior)] *)
Definition renewal_phrase : regex :=
  seq [w "auto"; opt (w "matic"); opt (w "ally"); plus ws; w "renew"].

Definition notice_phrase : regex :=
  seq [Grp 1 (plus digit); plus ws; w "day"; opt (ch "s"); plus ws;
       alts [w "notice"; w "prior"]].

(** [int(match.group(1))]; the group of the notice patterns takes part in
    every match (lemma [search_group] below), so the digits are there.
    For a group that took no part the check yields nothing here.  (The
    bound recent Pythons put on the digits of [int], 4300, is out of
    reach in the window of [check_auto_renewal] and not modelled for
    [check_termination_notice]: on a text with a longer run of digits
    the code may raise [ValueError] where this returns.  The properties
    that say what an audit finds on every text are stated for the texts
    without such a run, [Spec2.int_readable], on which every numeral the
    check converts is within the bound, lemma
    [termination_notice_numerals_readable].) *)
Definition group_days (text : str) (m : mtch) : option Z :=
  match group text m 1 with
  | Some g => Some (int_of_digits g)
  | None => None
  end.

Definition check_auto_renewal (text : str) (extracted_data : option dict)
  : option dict :=
  match search I_flag renewal_phrase text with
  | Some auto_renewal_match =>
      let a_start := Z.of_nat (m_start auto_renewal_match) in
      let a_end := Z.of_nat (m_end auto_renewal_match) in
      let window := slice text (Z.max 0 (a_start - 500)) (a_end + 500) in
      match search I_flag notice_phrase window with
      | Some notice_match =>
          match group_days window notice_match with
          | Some days =>
              if days <? 30
              then Some (anchored text a_start (Z.min (len text) (a_start + 200)))
              else None
          | None => None
          end
      | None => Some (anchored text a_start (Z.min (len text) (a_start + 200)))
      end
  | None => None
  end.

Definition check_governing_law (text : str) (extracted_data : option dict)
  : option dict :=
  match search I_flag (seq [w "governing"; plus ws; w "law"]) text with
  | None => Some {[ "evidence"%string := str_val "No governing law clause found" ]}
  | Some _ =>
      if lacks extracted_data "governing_law"
      then Some {[ "evidence"%string := str_val "Governing law not clearly specified" ]}
      else None
  end.

(** [(?:terminate|cancel).*?(\d+)\s+days?\s+notice] *)
Definition termination_notice_phrase : regex :=
  seq [alts [w "terminate"; w "cancel"]; any_lazy; Grp 1 (plus digit);
       plus ws; w "day"; opt (ch "s"); plus ws; w "notice"].

(** The [for match in matches] loop of [check_termination_notice]. *)
Fixpoint first_short_notice (text : str) (matches : list mtch) : option dict :=
  match matches with
  | [] => None
  | m :: matches' =>
      match group_days text m with
      | Some days =>
          if days <? 30
          then let start := Z.of_nat (m_start m) in
               let end_ := Z.min (len text) (Z.of_nat (m_end m) + 100) in
               Some (anchored text start end_)
          else first_short_notice text matches'
      | None => first_short_notice text matches'
      end
  end.

Definition check_termination_notice (text : str) (extracted_data : option dict)
  : option dict :=
  first_short_notice text (finditer I_flag termination_notice_phrase text).

(** [getattr(self, rule['check_func'], None)] *)
Definition check_method (name : string)
  : option (str -> option dict -> option dict) :=
  if String.eqb name "check_termination_clause" then Some check_termination_clause
  else if String.eqb name "check_auto_renewal" then Some check_auto_renewal
  else if String.eqb name "check_governing_law" then Some check_governing_law
  else if String.eqb name "check_termination_notice" then Some check_termination_notice
  else None.

(** The finding built for a pattern match. *)
Definition pattern_finding (r : rule) (text : str) (m : mtch) : dict :=
  let start := Z.max 0 (Z.of_nat (m_start m) - 100) in
  let end_ := Z.min (len text) (Z.of_nat (m_end m) + 100) in
  let evidence := strip (slice text start end_) in
  <["finding_type" := str_val (id r)]>
  (<["severity" := str_val (severity r)]>
  (<["description" := str_val (name r)]>
  (<["evidence" := VStr evidence]>
  (<["char_start" := nat_val (m_start m)]>
  (<["char_end" := nat_val (m_end m)]> ∅))))).

(** [for pattern in rule['patterns']: ... for match in matches: ... break]:
    the [break] leaves the loop over the matches, not the one over the
    patterns. *)
Definition pattern_findings (r : rule) (text : str) : list dict :=
  flat_map (fun pattern =>
              match finditer I_flag pattern text with
              | [] => []
              | m :: _ => [pattern_finding r text m]
              end)
           (patterns r).

(** The finding built from the result of a custom check. *)
Definition check_finding (r : rule) (result : dict) : dict :=
  <["finding_type" := str_val (id r)]>
  (<["severity" := str_val (severity r)]>
  (<["description" := str_val (name r)]>
  (<["evidence" := dict_get_default result "evidence" (VStr [])]>
  (<["char_start" := dict_get result "char_start"]>
  (<["char_end" := dict_get result "char_end"]> ∅))))).

Definition check_findings (r : rule) (text : str) (extracted_data : option dict)
  : list dict :=
  match check_func r with
  | Some fname =>
      match check_method fname with
      | Some check =>
          match check text extracted_data with
          | Some result => if dict_truthy result then [check_finding r result] else []
          | None => []
          end
      | None => []
      end
  | None => []
  end.

(** The findings one rule appends. *)
Definition rule_findings (r : rule) (text : str) (extracted_data : option dict)
  : list dict :=
  pattern_findings r text ++ check_findings r text extracted_data.

(** [severity_weights.get(f.get('severity', 'low'), 5)] *)
Definition severity_weight (f : dict) : Z :=
  match dict_get_default f "severity" (str_val "low") with
  | VStr s =>
      if str_eqb s (lit "high") then 30
      else if str_eqb s (lit "medium") then 15
      else if str_eqb s (lit "low") then 5
      else 5
  | _ => 5
  end.

(** [calculate_risk_score]; the floats it returns are the integers from 0
    to 100. *)
Definition calculate_risk_score (findings : list dict) : Z :=
  match findings with
  | [] => 0
  | _ =>
      let total_score := fold_right Z.add 0 (map severity_weight findings) in
      Z.min total_score 100
  end.

(** [audit_document], with [self] threaded: the call returns the engine
    as it leaves it, the findings and the score. *)
Definition audit_document (self : engine) (text : str) (extracted_data : option dict)
  : engine * (list dict * Z) :=
  let findings := flat_map (fun r => rule_findings r text extracted_data) (rules self) in
  let risk_score := calculate_risk_score findings in
  (self, (findings, risk_score)).

(** The findings and the score of one call. *)
Definition audit (self : engine) (text : str) (extracted_data : option dict)
  : list dict * Z :=
  snd (audit_document self text extracted_data).

(** The findings of a list that carry a given rule id. *)
Definition has_type (ty : string) (f : dict) : bool :=
  match f !! "finding_type" with
  | Some (VStr s) => str_eqb s (lit ty)
  | _ => false
  end.

Definition findings_of_type (ty : string) (findings : list dict) : list dict :=
  List.filter (has_type ty) findings.

End RiskAuditEngine.

(** ** Vocabulary of the properties *)

Module Spec.
Import Py.

(** A chunk that is a trimmed slice of the text and is not empty, also
    after trimming. *)
Definition trimmed_nonempty (text : str) (chunk : str) : Prop :=
  strip chunk <> [] /\ exists i j, chunk = strip (slice text i j).

(** A finding as [calculate_risk_score] sees it: a dictionary with a
    severity. *)
Definition with_severity (sev : string) (f : dict) : dict :=
  <["severity" := VStr (lit sev)]> f.

Definition total_weight (findings : list dict) : Z :=
  fold_right Z.add 0 (map RiskAuditEngine.severity_weight findings).

(** The distinct tokens of the lower-cased query that occur in a text. *)
Definition occurring (query text : str) : list str :=
  remove_dups (List.filter (fun word => contains word text) (split (lower query))).

(** The keyword-overlap score of a chunk record: the number of those
    tokens for its lower-cased [text_content]. *)
Definition chunk_score (query : str) (chunk : dict) : Z :=
  match dict_get_default chunk "text_content" (VStr []) with
  | VStr s => len (occurring query (lower s))
  | _ => 0
  end.

(** A chunk record with its score under [relevance_score]. *)
Definition annotated (query : str) (chunk : dict) : dict :=
  <["relevance_score" := VInt (chunk_score query chunk)]> chunk.

(** The annotated records of the chunks that score above 0, in corpus
    order. *)
Definition qualifying (query : str) (chunks : list dict) : list dict :=
  map (annotated query) (List.filter (fun chunk => 0 <? chunk_score query chunk) chunks).

(** Descending order of relevance. *)
Definition desc (a b : dict) : Prop :=
  RAGEngine.relevance b <= RAGEngine.relevance a.

(** The records of a list that carry the score [s], in the list's order. *)
Definition with_score (s : Z) (l : list dict) : list dict :=
  List.filter (fun x => RAGEngine.relevance x =? s) l.

(** A chunk record whose [text_content], when present, is a string. *)
Definition text_is_str (chunk : dict) : Prop :=
  match chunk !! "text_content" with
  | Some (VStr _) | None => True
  | Some _ => False
  end.

(** A chunk record as the API builds it, reduced to two fields. *)
Definition doc (n : Z) (text : string) : dict :=
  <["text_content" := VStr (lit text)]> (<["document_id" := VInt n]> ∅).

(** A chunk record that already carries a [relevance_score]. *)
Definition rescored : dict :=
  <["relevance_score" := VInt 7]> (doc 1 "payment due").

(** [sets n r]: every successful match of [r] records group [n]. *)
Fixpoint sets (n : nat) (r : Re.regex) : bool :=
  match r with
  | Re.Eps | Re.Chr _ | Re.Eol | Re.Star _ _ => false
  | Re.Cat a b => sets n a || sets n b
  | Re.Alt a b => sets n a && sets n b
  | Re.Grp m a => Nat.eqb n m || sets n a
  end.

(** Group [n] has a span in [cp]; [cp'] has every group [cp] has. *)
Definition has_group (n : nat) (cp : Re.caps) : Prop := Re.cap_lookup n cp <> None.

Definition extends (cp cp' : Re.caps) : Prop :=
  forall n, has_group n cp -> has_group n cp'.


(** The days of the first notice phrase in the window of 500 characters
    on each side of the renewal phrase [am]. *)
Definition notice_days (text : str) (am : Re.mtch) : option Z :=
  let window := slice text (Z.max 0 (Z.of_nat (Re.m_start am) - 500))
                      (Z.of_nat (Re.m_end am) + 500) in
  match Re.search Re.I_flag RiskAuditEngine.notice_phrase window with
  | Some notice_match => RiskAuditEngine.group_days window notice_match
  | None => None
  end.

(** What [check_auto_renewal] returns when it objects: the text from the
    renewal phrase on, at most 200 characters, with its span. *)
Definition renewal_anchor (text : str) (am : Re.mtch) : dict :=
  RiskAuditEngine.anchored text (Z.of_nat (Re.m_start am))
    (Z.min (len text) (Z.of_nat (Re.m_start am) + 200)).

(** The findings of one audit that carry the rule id [ty]. *)
Definition findings_for (ty : string) (model : string) (text : str)
    (extracted_data : option dict) : list dict :=
  RiskAuditEngine.findings_of_type ty
    (fst (RiskAuditEngine.audit (RiskAuditEngine.init model) text extracted_data)).

Definition as_is_text : str := lit "Sold as is without warranty.".

Definition renews_60 : str :=
  lit "This agreement shall automatically renew unless 60 days notice is given.".

(** The values a list of records holds under some keys. *)
Definition view (keys : list string) (records : list dict) : list (list (option pyval)) :=
  map (fun r => map (fun k => r !! k) keys) records.

(** No pattern of the list matches anywhere in the text. *)
Definition unmatched (fl : Re.flags) (ps : list Re.regex) (text : str) : Prop :=
  Forall (fun p => Re.search fl p text = None) ps.

(** The record [{amount: ..., currency: ...}]. *)
Definition cap_record (amount : Q) (currency : string) : dict :=
  <["amount" := VFloat amount]> (<["currency" := VStr (lit currency)]> ∅).

Definition cap_example : str :=
  lit "...liability shall not exceed USD $100,000...".

Definition cap_euro : str :=
  lit "Liability is capped at " ++ [euro] ++ lit "5,000.50 in total".

Definition cap_pound : str :=
  [pound] ++ lit " 2,500 is the limit of liability".

End Spec.

(** ** [re.sub] and the path helpers of [os.path] *)

Module ReSub.
Import Py Re.

(** The text between the matches, with [repl] in the place of each match. *)
Fixpoint splice (text : str) (pos : nat) (ms : list mtch) (repl : str) : str :=
  match ms with
  | [] => skipn pos text
  | m :: ms' => substr text pos (m_start m) ++ repl ++ splice text (m_end m) ms' repl
  end.

(** [re.sub(pattern, repl, text)] for a replacement without group
    references. *)
Definition sub (fl : flags) (r : regex) (repl : str) (text : str) : str :=
  splice text 0 (finditer fl r text) repl.

End ReSub.

Module Os.
Import Py.

Definition sep : N := 47%N.

(** [os.path.basename] (POSIX): what follows the last [/]. *)
Fixpoint basename (p : str) : str :=
  match p with
  | [] => []
  | c :: p' =>
      if existsb (N.eqb sep) p' then basename p'
      else if (c =? sep)%N then p' else p
  end.




End Os.

(** ** The file side of [PDFProcessor] *)

Module PDFFiles.
Import Py Re.

(** [\w] as it reads ASCII text (on other letters the [\w] of [re] takes
    more than this), and [[^\w\s.-]]. *)
Definition word_chars : cset :=
  cunion [range "a" "z"; range "A" "Z"; range "0" "9"; chr1 "_"].

Definition unsafe_char : regex :=
  Chr (CNot (cunion [word_chars; CSpace; chr1 "."; chr1 "-"])).

(** [_sanitize_filename] *)
Definition _sanitize_filename (filename : str) : str :=
  let filename := Os.basename filename in
  let filename := ReSub.sub no_flags unsafe_char [] filename in
  ReSub.sub no_flags (plus ws) (lit "_") filename.

(** The files of the upload directory: what is stored under each path. *)
Abbreviation files := (gmap (list N) (list N)).


(** [str(n)] for an integer. *)
Definition str_of_int (n : Z) : str :=
  lit (DecimalString.NilZero.string_of_int (Z.to_int n)).

(** The header [f"\n--- Page {page_num} ---\n"] that precedes a page. *)
Definition page_header (page_num : Z) : str :=
  [newline] ++ lit "--- Page " ++ str_of_int page_num ++ lit " ---" ++ [newline].

Definition page_entry (page_num : Z) (page_text : str) (full_text : str) : dict :=
  <["page_number" := VInt page_num]>
  (<["text" := VStr page_text]>
  (<["char_start" := VInt (len full_text - len page_text)]>
  (<["char_end" := VInt (len full_text)]> ∅))).

(** The loop over [reader.pages]: a page gives its text, or [None] when
    [page.extract_text()] raises; a page without text is passed over. *)
Fixpoint extract_pages (pages : list (option str)) (page_num : Z)
    (full_text : str) (page_data : list dict) : str * list dict :=
  match pages with
  | [] => (full_text, page_data)
  | page :: pages' =>
      match page with
      | Some (c :: t) =>
          let page_text := c :: t in
          let full_text' := full_text ++ page_header page_num ++ page_text in
          extract_pages pages' (page_num + 1) full_text'
            (page_data ++ [page_entry page_num page_text full_text'])
      | _ => extract_pages pages' (page_num + 1) full_text page_data
      end
  end.

(** [extract_text_from_pdf], given what [PdfReader(pdf_path)] yields: the
    pages, or a failure, which comes out as [ValueError]. *)
Definition extract_text_from_pdf (reader : outcome (list (option str)))
  : outcome (str * Z * list dict) :=
  match reader with
  | Return pages =>
      let '(full_text, page_data) := extract_pages pages 1 [] [] in
      Return (full_text, len pages, page_data)
  | _ => Raise ValueError
  end.

End PDFFiles.

(** ** Helpers of the API ([src/api.py]) *)

Module Api.
Import Py Re.

(** [[^\n]] and [\n] *)
Definition not_nl : regex := Chr (CNot (CChar newline)).
Definition nl : regex := Chr (CChar newline).

(** [r{0,n}] *)
Fixpoint upto (n : nat) (r : regex) : regex :=
  match n with
  | O => Eps
  | S n' => opt (Cat r (upto n' r))
  end.

(** [([^\n]*{keyword}[^\n]*\n(?:[^\n]+\n){0,5})] for a keyword that is a
    plain word, as those of the callers are (the source puts the keyword
    into the pattern as it is). *)
Definition section_body (keyword : str) : regex :=
  Grp 1 (seq [star not_nl; word keyword; star not_nl; nl;
              upto 5 (Cat (plus not_nl) nl)]).

(** [(?:^|\n)] in front of the body: [^] holds at the start of the text
    and after a newline ([re.MULTILINE]), so the place where a match
    starts decides which alternatives there are. *)
Definition section_here (keyword : str) (at_line_start : bool) : regex :=
  if at_line_start
  then Alt (section_body keyword) (Cat nl (section_body keyword))
  else Cat nl (section_body keyword).

Fixpoint section_search_go (keyword : str) (at_line_start : bool)
    (s : str) (pos : nat) : option mtch :=
  match match_here IM_flags (section_here keyword at_line_start) s pos with
  | Some m => Some m
  | None =>
      match s with
      | [] => None
      | c :: s' => section_search_go keyword (c =? newline)%N s' (S pos)
      end
  end.

Definition section_search (keyword : str) (text : str) : option mtch :=
  section_search_go keyword true text 0.

(** [_extract_section] *)
Fixpoint _extract_section (text : str) (keywords : list str) (max_length : Z) : str :=
  match keywords with
  | [] => []
  | keyword :: keywords' =>
      match section_search keyword text with
      | Some m =>
          let section := strip (group0 text m) in
          if max_length <? len section
          then slice_to section max_length ++ lit "..."
          else section
      | None => _extract_section text keywords' max_length
      end
  end.

(** The excerpt of a citation: [text[:200] + "..." if len(text) > 200 else text]. *)
Definition excerpt (text : str) : str :=
  if 200 <? len text then slice_to text 200 ++ lit "..." else text.

(** The chunks the citation loop visits: [relevant_chunks[:5]]. *)
Definition cited (relevant_chunks : list dict) : list dict :=
  slice_to relevant_chunks 5.

End Api.

(** ** The summary of an audit *)

Module AuditSummary.
Import Py.

(** [sum(1 for f in findings if f.get('severity') == sev)] *)
Definition count_severity (sev : string) (findings : list dict) : Z :=
  len (List.filter (fun f => match dict_get f "severity" with
                             | VStr s => str_eqb s (lit sev)
                             | _ => false
                             end) findings).

Section Summary.
(** How the f-string prints the score, a float. *)
Variable fmt_score : str.

(** [_generate_simple_summary] *)
Definition _generate_simple_summary (findings : list dict) : str :=
  match findings with
  | [] => lit "No significant risks identified."
  | _ =>
      let high := count_severity "high" findings in
      let medium := count_severity "medium" findings in
      let low := count_severity "low" findings in
      lit "Found " ++ PDFFiles.str_of_int (len findings) ++ lit " issues: " ++
      PDFFiles.str_of_int high ++ lit " high, " ++
      PDFFiles.str_of_int medium ++ lit " medium, " ++
      PDFFiles.str_of_int low ++ lit " low severity. Risk score: " ++
      fmt_score ++ lit "/100."
  end.
End Summary.

End AuditSummary.

(** ** What a pattern matches *)

Module ReSpec.
Import Py Re.
(** [matches fl r s rest]: [r] can consume [s] in front of [rest]. *)
Inductive matches (fl : flags) : regex -> str -> str -> Prop :=
| M_Eps rest : matches fl Eps [] rest
| M_Chr cs c rest :
    cset_has (IGNORECASE fl) cs c = true -> matches fl (Chr cs) [c] rest
| M_Eol rest : at_eol fl rest = true -> matches fl Eol [] rest
| M_Cat a b s1 s2 rest :
    matches fl a s1 (s2 ++ rest) -> matches fl b s2 rest ->
    matches fl (Cat a b) (s1 ++ s2) rest
| M_AltL a b s rest : matches fl a s rest -> matches fl (Alt a b) s rest
| M_AltR a b s rest : matches fl b s rest -> matches fl (Alt a b) s rest
| M_Star0 g a rest : matches fl (Star g a) [] rest
| M_StarS g a s1 s2 rest :
    matches fl a s1 (s2 ++ rest) -> matches fl (Star g a) s2 rest ->
    matches fl (Star g a) (s1 ++ s2) rest
| M_Grp n a s rest : matches fl a s rest -> matches fl (Grp n a) s rest.

(** Every group of [r] has a body whose matches satisfy [Q]. *)
Fixpoint grp_ok (fl : flags) (Q : nat -> str -> Prop) (r : regex) : Prop :=
  match r with
  | Eps | Chr _ | Eol => True
  | Cat a b | Alt a b => grp_ok fl Q a /\ grp_ok fl Q b
  | Star _ a => grp_ok fl Q a
  | Grp n a => grp_ok fl Q a /\ forall s rest, matches fl a s rest -> Q n s
  end.

(** The spans of [cp] lie in the text, and their strings satisfy [Q]. *)
Definition caps_sat (Q : nat -> str -> Prop) (text : str) (cp : caps) : Prop :=
  forall n a b, cap_lookup n cp = Some (a, b) ->
    (a <= b)%nat /\ (b <= length text)%nat /\ Q n (substr text a b).

(** What [mt r s pos cp k = Some res] amounts to when [s] follows [pre]
    in the text: [r] consumed a prefix of [s] and the continuation gave
    [res] on the rest. *)
Definition reached {A : Type} (fl : flags) (Q : nat -> str -> Prop) (text : str)
    (k : str -> nat -> caps -> option A) (res : A)
    (r : regex) (pre s : str) : Prop :=
  exists s1 s' cp',
    s = s1 ++ s' /\ matches fl r s1 s' /\
    k s' (length pre + length s1)%nat cp' = Some res /\ caps_sat Q text cp'.

(** The first of a list of matches does not start before [pos]. *)
Definition starts_from (pos : nat) (ms : list mtch) : Prop :=
  match ms with
  | [] => True
  | m :: _ => (pos <= m_start m)%nat
  end.

(** A match object that is what it claims: its span lies in the text, the
    pattern consumes the span, and the groups satisfy [Q]. *)
Definition sound_match (fl : flags) (Q : nat -> str -> Prop) (r : regex)
    (text : str) (m : mtch) : Prop :=
  (m_start m <= m_end m)%nat /\ (m_end m <= length text)%nat /\
  matches fl r (group0 text m) (skipn (m_end m) text) /\
  caps_sat Q text (m_caps m).
End ReSpec.


(** ** More vocabulary *)

Module Spec2.
Import Py.

(** A pattern with no demand on its groups. *)
Definition any_group : nat -> str -> Prop := fun _ _ => True.

(** The dictionary the audit endpoint rebuilds from a stored finding:
    [{'severity': f.severity}]. *)
Definition severity_only (f : dict) : dict :=
  {[ "severity"%string := dict_get f "severity" ]}.

(** The keys of a finding. *)
Definition finding_keys : gset string :=
  {[ "finding_type"; "severity"; "description"; "evidence"; "char_start"; "char_end" ]}%string.

(** A finding of a rule of the table: its id, severity and name. *)
Definition of_rule (rules : list RiskAuditEngine.rule) (f : dict) : Prop :=
  exists r, In r rules /\
    f !! "finding_type" = Some (RiskAuditEngine.str_val (RiskAuditEngine.id r)) /\
    f !! "severity" = Some (RiskAuditEngine.str_val (RiskAuditEngine.severity r)) /\
    f !! "description" = Some (RiskAuditEngine.str_val (RiskAuditEngine.name r)).

(** The span of a finding: absent ([None] twice) or inside the text. *)
Definition span_ok (text : str) (f : dict) : Prop :=
  (f !! "char_start" = Some VNone /\ f !! "char_end" = Some VNone) \/
  (exists a b, f !! "char_start" = Some (VInt a) /\ f !! "char_end" = Some (VInt b) /\
               0 <= a <= b /\ b <= len text).

(** Group 1 holds a numeral [float] can read once the commas are gone. *)
Definition amount_group (n : nat) (s : str) : Prop :=
  n = 1%nat -> ContractExtractor.py_float (remove_char 44 s) <> None.

(** The longest run of decimal digits of a text. *)
Fixpoint digit_runs (cur best : Z) (s : str) : Z :=
  match s with
  | [] => Z.max cur best
  | c :: s' =>
      if is_digit c then digit_runs (cur + 1) best s'
      else digit_runs 0 (Z.max cur best) s'
  end.

Definition longest_digit_run (text : str) : Z := digit_runs 0 0 text.

(** [int] reads every numeral of the text: none has more than the 4300
    digits CPython allows in the conversion
    ([sys.int_info.default_max_str_digits]); on a longer one
    [int(match.group(1))] raises [ValueError], which
    [RiskAuditEngine.group_days] leaves out. *)
Definition int_readable (text : str) : Prop := longest_digit_run text <= 4300.

(** A numeric parse that fails on one numeral and reads the others, and
    a text in which both liability patterns match, with different
    amounts: the cascade past a failed parse. *)
Definition float_but (bad : str) (s : str) : option Q :=
  if str_eqb s bad then None else ContractExtractor.py_float s.

Definition cap_two : str :=
  lit "USD 5 is the fee; liability is limited to $100,000".

(** What [re.sub] gives when the pattern is [[...]+]: each maximal run of
    characters of [p] becomes one [repl]. *)
Fixpoint squeeze (p : N -> bool) (repl : str) (in_run : bool) (s : str) : str :=
  match s with
  | [] => []
  | c :: s' =>
      if p c then (if in_run then squeeze p repl true s' else repl ++ squeeze p repl true s')
      else c :: squeeze p repl false s'
  end.

(** ASCII text. *)
Definition ascii_text (s : str) : Prop := List.Forall (fun c => (c < 128)%N) s.

(** The characters of a sanitised file name: letters, digits, [_], [.]
    and [-]. *)
Definition safe_char (c : N) : bool :=
  in_range 97 122 c || in_range 65 90 c || is_digit c ||
  (c =? 95)%N || (c =? 46)%N || (c =? 45)%N.

Definition safe_name (s : str) : Prop := List.Forall (fun c => safe_char c = true) s.

(** A keyword that stands for itself in a pattern: letters, digits,
    spaces and hyphens. *)
Definition plain_char (c : N) : bool :=
  in_range 97 122 c || in_range 65 90 c || is_digit c || (c =? 32)%N || (c =? 45)%N.

Definition plain_keyword (kw : str) : Prop := List.Forall (fun c => plain_char c = true) kw.

(** The records of [page_data] against the full text: from offset [pos]
    on, the text is, page after page, the header of a page and its text,
    and each record holds the number, the text and the span of its page;
    the numbers grow and stay within [num_pages]. *)
Fixpoint pages_in (full_text : str) (num_pages : Z) (k pos : Z) (es : list dict) : Prop :=
  match es with
  | [] => pos = len full_text
  | e :: es' =>
      exists n t,
        let a := pos + len (PDFFiles.page_header n) in
        let b := a + len t in
        e !! "page_number" = Some (VInt n) /\ e !! "text" = Some (VStr t) /\
        e !! "char_start" = Some (VInt a) /\ e !! "char_end" = Some (VInt b) /\
        k <= n <= num_pages /\ t <> [] /\
        slice full_text pos a = PDFFiles.page_header n /\
        slice full_text a b = t /\
        pages_in full_text num_pages (n + 1) b es'
  end.

End Spec2.

(** * Properties *)

(** ** Strings and patterns on examples *)

Example slice_negative : Py.slice (Py.lit "abcdef") (-3) 7 = Py.lit "def".
Proof. reflexivity. Qed.

Example split_example :
  Py.split (Py.lit "  payment  terms net ") =
  [Py.lit "payment"; Py.lit "terms"; Py.lit "net"].
Proof. reflexivity. Qed.

Example strip_example : Py.strip (Py.lit "  a b. ") = Py.lit "a b.".
Proof. reflexivity. Qed.

(** [re.finditer('a*', 'baab')] has the spans (0,0), (1,3), (3,3), (4,4). *)
Example finditer_empty_matches :
  map (fun m => (Re.m_start m, Re.m_end m))
      (Re.finditer Re.no_flags (Re.star (Re.ch "a")) (Py.lit "baab")) =
  [(0, 0); (1, 3); (3, 3); (4, 4)]%nat.
Proof. reflexivity. Qed.

Example search_lazy_then_group :
  Re.search Re.I_flag ContractExtractor.notice_pattern (Py.lit "with 60 Days Notice") =
  Some {| Re.m_start := 5; Re.m_end := 19; Re.m_caps := [(1, (5, 7))]%nat |}.
Proof. reflexivity. Qed.

(** ** Trimming *)

Section Strip.
Import Py.
Variable p : N -> bool.

Lemma lstrip_by_idem s : lstrip_by p (lstrip_by p s) = lstrip_by p s.
Proof.
  induction s as [|c s IH]; [reflexivity|]. cbn.
  destruct (p c) eqn:E; [exact IH|]. cbn. now rewrite E.
Qed.

Lemma lstrip_by_snoc s c :
  p c = false -> lstrip_by p (s ++ [c]) = lstrip_by p s ++ [c].
Proof.
  intros Hc. induction s as [|a s IH]; cbn; [now rewrite Hc|].
  destruct (p a); [exact IH | reflexivity].
Qed.

Lemma rstrip_by_cons c s :
  p c = false -> rstrip_by p (c :: s) = c :: rstrip_by p s.
Proof.
  intros Hc. unfold rstrip_by. cbn [rev].
  now rewrite lstrip_by_snoc, rev_app_distr.
Qed.

Lemma rstrip_by_idem s : rstrip_by p (rstrip_by p s) = rstrip_by p s.
Proof. unfold rstrip_by. now rewrite rev_involutive, lstrip_by_idem. Qed.

Lemma lstrip_by_head s :
  lstrip_by p s = [] \/ exists c s', lstrip_by p s = c :: s' /\ p c = false.
Proof.
  induction s as [|c s IH]; [now left|]. cbn.
  destruct (p c) eqn:E; [exact IH|]. right. eauto.
Qed.

Lemma strip_by_idem s : strip_by p (strip_by p s) = strip_by p s.
Proof.
  unfold strip_by.
  destruct (lstrip_by_head s) as [->|(c & s' & -> & Hc)]; [reflexivity|].
  rewrite (rstrip_by_cons _ _ Hc). cbn [lstrip_by]. rewrite Hc.
  rewrite <- (rstrip_by_cons _ _ Hc). apply rstrip_by_idem.
Qed.
End Strip.

(** Trimming a trimmed string changes nothing. *)
Lemma strip_idem s : Py.strip (Py.strip s) = Py.strip s.
Proof. apply strip_by_idem. Qed.

(** ** Capturing groups of a match *)

Section Captures.
Import Py Re Spec.

Lemma extends_refl cp : extends cp cp.
Proof. intros n H. exact H. Qed.

Lemma extends_trans a b c : extends a b -> extends b c -> extends a c.
Proof. intros H1 H2 n H. auto. Qed.

Lemma extends_cons n sp cp : extends cp ((n, sp) :: cp).
Proof.
  intros m H. unfold has_group in *. cbn. destruct (Nat.eqb m n); [discriminate | exact H].
Qed.

Lemma has_group_cons n sp cp : has_group n ((n, sp) :: cp).
Proof. unfold has_group. cbn. rewrite Nat.eqb_refl. discriminate. Qed.

(** A successful match runs into its continuation, with every group it
    had and every group the pattern is bound to set. *)
Lemma mt_reaches {A} fl (r : regex) :
  forall s pos cp (k : str -> nat -> caps -> option A) res,
    mt fl r s pos cp k = Some res ->
    exists s' pos' cp',
      k s' pos' cp' = Some res /\ extends cp cp' /\
      (forall n, sets n r = true -> has_group n cp').
Proof.
  induction r as [| cs | | a IHa b IHb | a IHa b IHb | g a IHa | m a IHa];
    intros s pos cp k res H; cbn [mt] in H.
  - exists s, pos, cp. split; [exact H|]. split; [apply extends_refl | discriminate].
  - destruct s as [|c s']; [discriminate|].
    destruct (cset_has _ cs c); [|discriminate].
    exists s', (S pos), cp. split; [exact H|]. split; [apply extends_refl | discriminate].
  - destruct (at_eol fl s); [|discriminate].
    exists s, pos, cp. split; [exact H|]. split; [apply extends_refl | discriminate].
  - apply IHa in H as (s1 & p1 & c1 & H & E1 & S1).
    apply IHb in H as (s2 & p2 & c2 & H & E2 & S2).
    exists s2, p2, c2. split; [exact H|]. split; [eapply extends_trans; eauto|].
    intros n Hn. cbn in Hn. apply orb_true_iff in Hn as [Hn|Hn]; [apply E2, S1, Hn | apply S2, Hn].
  - destruct (mt fl a s pos cp k) eqn:Ea.
    + injection H as ->. apply IHa in Ea as (s1 & p1 & c1 & H & E1 & S1).
      exists s1, p1, c1. split; [exact H|]. split; [exact E1|].
      intros n Hn. cbn in Hn. apply andb_true_iff in Hn as [Hn _]. auto.
    + apply IHb in H as (s1 & p1 & c1 & H & E1 & S1).
      exists s1, p1, c1. split; [exact H|]. split; [exact E1|].
      intros n Hn. cbn in Hn. apply andb_true_iff in Hn as [_ Hn]. auto.
  - revert H. generalize (length s) as fuel. intros fuel. revert s pos cp res.
    induction fuel as [|fuel IHf]; intros s pos cp res H; cbn [star_loop] in H.
    + exists s, pos, cp. split; [exact H|]. split; [apply extends_refl | discriminate].
    + set (again := fun s1 p1 c1 =>
                      if (pos <? p1)%nat then star_loop (mt fl a) g k fuel s1 p1 c1 else None) in H.
      assert (Hmore : forall res', mt fl a s pos cp again = Some res' ->
        exists s' pos' cp', k s' pos' cp' = Some res' /\ extends cp cp' /\
          (forall n, sets n (Star g a) = true -> has_group n cp')).
      { intros res' Hm. apply IHa in Hm as (s1 & p1 & c1 & Hm & E1 & _).
        unfold again in Hm. destruct (pos <? p1)%nat; [|discriminate].
        apply IHf in Hm as (s2 & p2 & c2 & Hm & E2 & _).
        exists s2, p2, c2. split; [exact Hm|]. split; [eapply extends_trans; eauto | discriminate]. }
      assert (Hstop : forall res', k s pos cp = Some res' ->
        exists s' pos' cp', k s' pos' cp' = Some res' /\ extends cp cp' /\
          (forall n, sets n (Star g a) = true -> has_group n cp')).
      { intros res' Hk. exists s, pos, cp. split; [exact Hk|]. split; [apply extends_refl | discriminate]. }
      destruct g.
      * destruct (mt fl a s pos cp again) eqn:Em.
        -- injection H as ->. now apply Hmore.
        -- now apply Hstop.
      * destruct (k s pos cp) eqn:Ek.
        -- injection H as ->. now apply Hstop.
        -- now apply Hmore.
  - apply IHa in H as (s1 & p1 & c1 & H & E1 & S1).
    exists s1, p1, ((m, (pos, p1)) :: c1). split; [exact H|].
    split; [eapply extends_trans; [exact E1 | apply extends_cons]|].
    intros n Hn. cbn in Hn. apply orb_true_iff in Hn as [Hn|Hn].
    + apply Nat.eqb_eq in Hn as ->. apply has_group_cons.
    + apply extends_cons, S1, Hn.
Qed.

Lemma match_here_sets fl r s pos m n :
  match_here fl r s pos = Some m -> sets n r = true -> has_group n (m_caps m).
Proof.
  unfold match_here. intros H Hn.
  apply mt_reaches in H as (s' & p' & c' & H & _ & S). injection H as <-. cbn. auto.
Qed.

Lemma search_go_sets fl r n : forall s pos m,
  search_go fl r s pos = Some m -> sets n r = true -> has_group n (m_caps m).
Proof.
  induction s as [|c s IH]; intros pos m H Hn; cbn [search_go] in H.
  - destruct (match_here fl r [] pos) eqn:E; [|discriminate].
    injection H as ->. eapply match_here_sets; eauto.
  - destruct (match_here fl r (c :: s) pos) eqn:E.
    + injection H as ->. eapply match_here_sets; eauto.
    + eapply IH; eauto.
Qed.

(** [m.group(n)] is a string, not [None], for a group the pattern always
    sets. *)
Lemma search_group fl r text m n :
  search fl r text = Some m -> sets n r = true ->
  exists g, group text m n = Some g.
Proof.
  intros H Hn. apply (search_go_sets _ _ n) in H; [|exact Hn].
  unfold group, has_group in *. destruct (cap_lookup n (m_caps m)) as [[a b]|]; [eauto | contradiction].
Qed.

End Captures.

(** ** The chunker *)

Section Chunker.
Import Py Re PDFProcessor Spec.

Lemma chunk_loop_S fuel text size overlap start chunks :
  chunk_loop (S fuel) text size overlap start chunks =
  if start <? len text then
    chunk_loop fuel text size overlap
      (fst (chunk_step text size overlap start chunks))
      (snd (chunk_step text size overlap start chunks))
  else Return chunks.
Proof.
  cbn [chunk_loop]. destruct (start <? len text); [|reflexivity].
  destruct (chunk_step text size overlap start chunks); reflexivity.
Qed.

Lemma chunk_loop_O text size overlap start chunks :
  chunk_loop 0 text size overlap start chunks =
  if start <? len text then OutOfFuel else Return chunks.
Proof. reflexivity. Qed.

Lemma chunk_step_cursor text size overlap start chunks :
  fst (chunk_step text size overlap start chunks) =
  chunk_end text size start - overlap.
Proof. reflexivity. Qed.

(** The loop has no [raise]: whatever the configuration, a run returns or
    keeps running. *)
Lemma chunk_loop_no_raise fuel : forall text size overlap start chunks e,
  chunk_loop fuel text size overlap start chunks <> Raise e.
Proof.
  induction fuel as [|fuel IH]; intros text size overlap start chunks e.
  - rewrite chunk_loop_O. destruct (start <? len text); discriminate.
  - rewrite chunk_loop_S. destruct (start <? len text); [apply IH | discriminate].
Qed.

(** A cursor that comes back to where it was never leaves: the turn from
    [start] depends on the cursor alone. *)
Lemma chunk_loop_stuck text size overlap start :
  start < len text ->
  chunk_end text size start - overlap = start ->
  forall fuel chunks, chunk_loop fuel text size overlap start chunks = OutOfFuel.
Proof.
  intros Hlen Hend. induction fuel as [|fuel IH]; intros chunks.
  - rewrite chunk_loop_O. destruct (Z.ltb_spec start (len text)); [reflexivity | lia].
  - rewrite chunk_loop_S. destruct (Z.ltb_spec start (len text)); [|lia].
    rewrite chunk_step_cursor, Hend. apply IH.
Qed.

(** The cut never falls before [start + chunk_size - 100]: the boundary
    search starts at [max(start, end - 100)] and a match ends at or after
    the start of the window. *)
Lemma chunk_end_lower_bound text size start :
  start + size - 100 <= chunk_end text size start.
Proof.
  unfold chunk_end.
  destruct (start + size <? len text); [|lia].
  destruct (last_boundary _ _); lia.
Qed.

Lemma chunk_step_trimmed text size overlap start chunks :
  Forall (trimmed_nonempty text) chunks ->
  Forall (trimmed_nonempty text) (snd (chunk_step text size overlap start chunks)).
Proof.
  intros H. unfold chunk_step. cbn [snd].
  destruct (strip (slice text start (chunk_end text size start))) eqn:E; [exact H|].
  apply Forall_app. split; [exact H|].
  constructor; [|constructor].
  split.
  - rewrite <- E, strip_idem, E. discriminate.
  - exists start, (chunk_end text size start). now rewrite E.
Qed.

Lemma chunk_loop_trimmed fuel : forall text size overlap start chunks result,
  Forall (trimmed_nonempty text) chunks ->
  chunk_loop fuel text size overlap start chunks = Return result ->
  Forall (trimmed_nonempty text) result.
Proof.
  induction fuel as [|fuel IH]; intros text size overlap start chunks result Hc.
  - rewrite chunk_loop_O. destruct (start <? len text); [discriminate|].
    intros [= <-]. exact Hc.
  - rewrite chunk_loop_S. destruct (start <? len text).
    + apply IH. now apply chunk_step_trimmed.
    + intros [= <-]. exact Hc.
Qed.

(** Whenever [chunk_text] returns, every chunk is non-empty after
    trimming. *)
Lemma chunk_text_chunks_nonempty fuel text size overlap result :
  chunk_text fuel text size overlap = Return result ->
  Forall (trimmed_nonempty text) result.
Proof.
  unfold chunk_text. destruct text as [|c text].
  - intros [= <-]. constructor.
  - apply chunk_loop_trimmed. constructor.
Qed.

(** With more than 100 characters between size and overlap (the
    defaults, 1000 and 200, have 800) the cursor gains at least one
    character a turn and the loop ends within [len(text)] turns. *)
Lemma chunk_loop_terminates text size overlap :
  100 < size - overlap ->
  forall fuel start chunks,
    len text - start <= Z.of_nat fuel ->
    exists result, chunk_loop fuel text size overlap start chunks = Return result.
Proof.
  intros Hgap. induction fuel as [|fuel IH]; intros start chunks Hfuel.
  - rewrite chunk_loop_O. destruct (Z.ltb_spec start (len text)); [lia|]. eauto.
  - rewrite chunk_loop_S. destruct (Z.ltb_spec start (len text)); [|eauto].
    apply IH. rewrite chunk_step_cursor.
    pose proof (chunk_end_lower_bound text size start). lia.
Qed.

Lemma chunk_text_terminates_wide_gap text size overlap :
  100 < size - overlap ->
  exists result,
    chunk_text (length text) text size overlap = Return result /\
    Forall (trimmed_nonempty text) result.
Proof.
  intros Hgap.
  destruct (chunk_loop_terminates text size overlap Hgap (length text) 0 [])
    as [result Hr]; [unfold len; lia|].
  assert (Ht : chunk_text (length text) text size overlap = Return result).
  { unfold chunk_text. destruct text; [|exact Hr].
    cbn in Hr. injection Hr as <-. reflexivity. }
  exists result. split; [exact Ht|]. eapply chunk_text_chunks_nonempty, Ht.
Qed.

(** C2, as the code has it.  [chunk_text] does not look at its
    configuration before it starts: no call ends in an error, whatever the
    size and the overlap, and on the empty text it returns the empty list
    at once, also when the overlap is not below the size or the size is
    not positive. *)
Theorem chunk_text_no_config_check :
  (forall fuel text size overlap e, chunk_text fuel text size overlap <> Raise e) /\
  (forall fuel size overlap, chunk_text fuel [] size overlap = Return []).
Proof.
  split.
  - intros fuel text size overlap e. unfold chunk_text.
    destruct text; [discriminate | apply chunk_loop_no_raise].
  - reflexivity.
Qed.

(** C2 fails as stated: with size 2 and overlap 2 (overlap >= size) the
    call on ["aaaa"] raises nothing; the cursor is back at 0 after each
    turn and the call does not return for any amount of fuel. *)
Lemma chunk_text_invalid_config_loops :
  ~ valid_config 2 2 /\
  forall fuel, chunk_text fuel (lit "aaaa") 2 2 = OutOfFuel.
Proof.
  split.
  - unfold valid_config. lia.
  - intros fuel. apply (chunk_loop_stuck (lit "aaaa") 2 2 0); vm_compute; reflexivity.
Qed.

(** C3 at its failing input: size 10 and overlap 5 are a valid
    configuration, yet on ["abc. xxxxxx"] the boundary search moves the
    cut back to 5, the cursor returns to 0, and the call never returns. *)
Theorem chunk_text_valid_config_diverges :
  valid_config 10 5 /\
  chunk_end (lit "abc. xxxxxx") 10 0 = 5 /\
  forall fuel, chunk_text fuel (lit "abc. xxxxxx") 10 5 = OutOfFuel.
Proof.
  split; [unfold valid_config; lia|]. split; [reflexivity|].
  intros fuel. apply (chunk_loop_stuck (lit "abc. xxxxxx") 10 5 0); vm_compute; reflexivity.
Qed.

End Chunker.

(** ** The risk score *)

Section RiskScore.
Import Py RiskAuditEngine Spec.

Lemma severity_weight_with sev f :
  severity_weight (with_severity sev f) =
  if str_eqb (lit sev) (lit "high") then 30
  else if str_eqb (lit sev) (lit "medium") then 15
  else 5.
Proof.
  unfold severity_weight, with_severity, dict_get_default.
  rewrite lookup_insert_eq. unfold str_val.
  repeat destruct (str_eqb _ _); reflexivity.
Qed.

Lemma severity_weight_pos f : 5 <= severity_weight f <= 30.
Proof.
  unfold severity_weight.
  destruct (dict_get_default f "severity" (str_val "low")); try lia.
  repeat destruct (str_eqb _ _); lia.
Qed.

Lemma total_weight_nonneg findings : 0 <= total_weight findings.
Proof.
  induction findings as [|f fs IH]; cbn; [lia|].
  pose proof (severity_weight_pos f). unfold total_weight in IH. lia.
Qed.

Lemma total_weight_perm fs fs' :
  Permutation fs fs' -> total_weight fs = total_weight fs'.
Proof.
  induction 1; cbn; unfold total_weight in *; cbn; lia.
Qed.

Lemma calculate_risk_score_eq findings :
  calculate_risk_score findings = Z.min (total_weight findings) 100.
Proof. destruct findings; reflexivity. Qed.

(** C6.  The score is the sum of the weights 30, 15 and 5 of the
    findings' severities, capped at 100; it does not depend on the order
    of the findings and lies between 0 and 100; one high finding scores
    30, two high and one medium 75, and four high ones are capped at
    100. *)
Theorem calculate_risk_score_spec :
  (forall f, severity_weight (with_severity "high" f) = 30 /\
             severity_weight (with_severity "medium" f) = 15 /\
             severity_weight (with_severity "low" f) = 5) /\
  (forall findings,
     calculate_risk_score findings = Z.min (total_weight findings) 100 /\
     0 <= calculate_risk_score findings <= 100) /\
  (forall findings findings',
     Permutation findings findings' ->
     calculate_risk_score findings' = calculate_risk_score findings) /\
  calculate_risk_score [with_severity "high" ∅] = 30 /\
  calculate_risk_score
    [with_severity "high" ∅; with_severity "high" ∅; with_severity "medium" ∅] = 75 /\
  calculate_risk_score
    [with_severity "high" ∅; with_severity "high" ∅; with_severity "high" ∅;
     with_severity "high" ∅] = 100.
Proof.
  split; [|split; [|split; [|split; [|split]]]].
  - intros f. rewrite !severity_weight_with. repeat split; reflexivity.
  - intros findings. rewrite calculate_risk_score_eq.
    pose proof (total_weight_nonneg findings). lia.
  - intros findings findings' Hp. rewrite !calculate_risk_score_eq.
    now rewrite (total_weight_perm _ _ Hp).
  - rewrite calculate_risk_score_eq. cbn. now rewrite !severity_weight_with.
  - rewrite calculate_risk_score_eq. cbn. now rewrite !severity_weight_with.
  - rewrite calculate_risk_score_eq. cbn. now rewrite !severity_weight_with.
Qed.

(** The order of a low and a high finding does not change the score. *)
Lemma calculate_risk_score_spec_witness :
  calculate_risk_score [with_severity "high" ∅; with_severity "low" ∅] =
  calculate_risk_score [with_severity "low" ∅; with_severity "high" ∅].
Proof.
  apply (proj1 (proj2 (proj2 calculate_risk_score_spec))).
  apply perm_swap.
Defined.

End RiskScore.

(** ** The keyword retriever *)

Section Retriever.
Import Py RAGEngine Spec.

Lemma filter_elements_remove_dups (f : str -> bool) (l : list str) :
  length (List.filter f (elements (list_to_set l : gset str))) =
  length (remove_dups (List.filter f l)).
Proof.
  apply Permutation_length. apply NoDup_Permutation.
  - apply NoDup_ListNoDup, List.NoDup_filter, NoDup_ListNoDup, NoDup_elements.
  - apply NoDup_remove_dups.
  - intros x. rewrite elem_of_remove_dups, !list_elem_of_In, !filter_In,
      <- !list_elem_of_In, elem_of_elements, elem_of_list_to_set. reflexivity.
Qed.

Lemma overlap_score_occurring query text :
  overlap_score (query_words query) text = len (occurring query text).
Proof.
  unfold overlap_score, query_words, occurring, len.
  now rewrite filter_elements_remove_dups.
Qed.

Lemma score_chunks_qualifying query : forall chunks scored,
  score_chunks (query_words query) chunks = Return scored ->
  scored = qualifying query chunks.
Proof.
  induction chunks as [|chunk chunks IH]; intros scored.
  - intros [= <-]. reflexivity.
  - cbn [score_chunks]. unfold chunk_text_lower.
    destruct (dict_get_default chunk "text_content" (VStr [])) eqn:Et; try discriminate.
    cbn [bind].
    destruct (score_chunks (query_words query) chunks) as [sc| |] eqn:Es; try discriminate.
    cbn [bind]. intros [= <-]. rewrite (IH sc eq_refl).
    unfold qualifying. cbn [List.filter].
    assert (Hsc : chunk_score query chunk = overlap_score (query_words query) (lower s)).
    { unfold chunk_score. rewrite Et. now rewrite overlap_score_occurring. }
    rewrite <- Hsc. destruct (0 <? chunk_score query chunk); [|reflexivity].
    cbn [map]. unfold annotated. reflexivity.
Qed.

Lemma relevance_annotated query chunk :
  relevance (annotated query chunk) = chunk_score query chunk.
Proof. unfold relevance, annotated. now rewrite lookup_insert_eq. Qed.

(** The sort: a permutation, in descending order, that keeps records of
    equal key in their order. *)
Section Sort.
Context {A : Type} (key : A -> Z).

Lemma insert_desc_perm x l : Permutation (insert_desc key x l) (x :: l).
Proof.
  induction l as [|y l IH]; cbn; [reflexivity|].
  destruct (key x <? key y); [|reflexivity].
  rewrite IH. apply perm_swap.
Qed.

Lemma sort_desc_perm l : Permutation (sort_desc key l) l.
Proof.
  induction l as [|x l IH]; cbn; [reflexivity|].
  rewrite insert_desc_perm. now constructor.
Qed.

Lemma insert_desc_sorted x l :
  StronglySorted (fun a b => key b <= key a) l ->
  StronglySorted (fun a b => key b <= key a) (insert_desc key x l).
Proof.
  induction 1 as [|y l Hs IH Hy]; cbn.
  - repeat constructor.
  - destruct (Z.ltb_spec (key x) (key y)).
    + constructor; [exact IH|].
      eapply Permutation_Forall; [symmetry; apply insert_desc_perm|].
      constructor; [lia | exact Hy].
    + constructor; [now constructor|].
      constructor; [lia|]. eapply List.Forall_impl; [|exact Hy]. cbn. intros; lia.
Qed.

Lemma sort_desc_sorted l :
  StronglySorted (fun a b => key b <= key a) (sort_desc key l).
Proof.
  induction l as [|x l IH]; cbn; [constructor | now apply insert_desc_sorted].
Qed.

Lemma insert_desc_stable s x l :
  List.filter (fun a => key a =? s) (insert_desc key x l) =
  List.filter (fun a => key a =? s) (x :: l).
Proof.
  induction l as [|y l IH]; [reflexivity|].
  cbn [insert_desc]. destruct (Z.ltb_spec (key x) (key y)); [|reflexivity].
  cbn [List.filter] in *. rewrite IH.
  destruct (Z.eqb_spec (key x) s), (Z.eqb_spec (key y) s); try reflexivity. lia.
Qed.

Lemma sort_desc_stable s l :
  List.filter (fun a => key a =? s) (sort_desc key l) =
  List.filter (fun a => key a =? s) l.
Proof.
  induction l as [|x l IH]; [reflexivity|].
  cbn [sort_desc fold_right]. rewrite insert_desc_stable.
  cbn [List.filter]. fold (sort_desc key l). now rewrite IH.
Qed.
End Sort.

Lemma slice_to_firstn {A} (l : list A) k :
  slice_to l k = firstn (Z.to_nat (clamp_index (len l) k)) l.
Proof.
  unfold slice_to, slice.
  assert (H0 : clamp_index (len l) 0 = 0).
  { unfold clamp_index, len. cbn. lia. }
  rewrite H0, Z.sub_0_r. reflexivity.
Qed.

Lemma len_slice_to {A} (l : list A) k :
  0 <= k -> len (slice_to l k) = Z.min k (len l).
Proof.
  intros Hk. rewrite slice_to_firstn. unfold len, clamp_index.
  destruct (Z.ltb_spec k 0); [lia|].
  rewrite length_firstn. lia.
Qed.


Lemma score_chunks_returns query : forall chunks,
  Forall text_is_str chunks ->
  score_chunks (query_words query) chunks = Return (qualifying query chunks).
Proof.
  intros chunks H.
  assert (Hex : exists scored, score_chunks (query_words query) chunks = Return scored).
  { induction H as [|chunk chunks Hc _ [sc IH]]; [now exists []|].
    cbn [score_chunks]. unfold chunk_text_lower, dict_get_default.
    unfold text_is_str in Hc. rewrite IH.
    destruct (chunk !! "text_content") as [[]|]; try contradiction; cbn; eauto. }
  destruct Hex as [scored Hs]. now rewrite Hs, (score_chunks_qualifying _ _ _ Hs).
Qed.

Lemma semantic_search_eq query chunks top_k :
  Forall text_is_str chunks ->
  semantic_search query chunks top_k =
  Return (slice_to (sort_desc relevance (qualifying query chunks)) top_k).
Proof.
  intros H. unfold semantic_search. now rewrite score_chunks_returns.
Qed.

Lemma qualifying_In query chunks r :
  In r (qualifying query chunks) ->
  exists chunk, In chunk chunks /\ r = annotated query chunk /\
                0 < chunk_score query chunk.
Proof.
  unfold qualifying. rewrite in_map_iff. intros (chunk & <- & Hin).
  apply filter_In in Hin as [Hin Hpos]. exists chunk.
  repeat split; [exact Hin | lia].
Qed.

Lemma firstn_In {A} n (l : list A) x : In x (firstn n l) -> In x l.
Proof.
  intros H. rewrite <- (firstn_skipn n l). apply in_or_app. now left.
Qed.

Lemma firstn_sorted {A} (R : A -> A -> Prop) n (l : list A) :
  StronglySorted R l -> StronglySorted R (firstn n l).
Proof.
  intros H. rewrite <- (firstn_skipn n l) in H.
  now apply StronglySorted_app_1_l in H.
Qed.

Lemma filter_firstn_prefix {A} (f : A -> bool) n (l : list A) :
  List.filter f (firstn n l) `prefix_of` List.filter f l.
Proof.
  exists (List.filter f (skipn n l)).
  now rewrite <- List.filter_app, firstn_skipn.
Qed.

(** C5, as the code has it.  For chunk records whose text is a string,
    [semantic_search] returns; for a [top_k] that is not negative it
    returns at most [top_k] records; every record returned is a chunk of
    the corpus annotated with its score, which is above 0 (the score is
    the number of distinct lower-cased tokens of the query that occur in
    the lower-cased text); the records are in descending order of score;
    and the records of any one score appear in corpus order. *)
Theorem semantic_search_ranking query chunks top_k :
  Forall text_is_str chunks ->
  exists result,
    semantic_search query chunks top_k = Return result /\
    (0 <= top_k -> len result <= top_k) /\
    Forall (fun r => exists chunk, In chunk chunks /\ r = annotated query chunk /\
                                   0 < chunk_score query chunk) result /\
    StronglySorted desc result /\
    (forall s, with_score s result `prefix_of` with_score s (qualifying query chunks)).
Proof.
  intros H. eexists. split; [apply (semantic_search_eq _ _ _ H)|].
  rewrite slice_to_firstn.
  set (sorted := sort_desc relevance (qualifying query chunks)).
  set (n := Z.to_nat _).
  split; [|split; [|split]].
  - intros Hk. subst n. rewrite <- slice_to_firstn, len_slice_to by exact Hk. lia.
  - apply List.Forall_forall. intros r Hr. apply firstn_In in Hr.
    apply (Permutation_in _ (sort_desc_perm relevance _)) in Hr.
    now apply qualifying_In.
  - apply firstn_sorted, sort_desc_sorted.
  - intros s. unfold with_score.
    rewrite <- (sort_desc_stable relevance s (qualifying query chunks)).
    apply filter_firstn_prefix.
Qed.

(** C10, as the code has it.  Every record returned agrees with a chunk
    record of the corpus on every key other than [relevance_score] and
    holds the chunk's score under [relevance_score]; when the chunk
    record had no such key, every pair of it is in the result unchanged
    and the result has exactly one key more. *)
Theorem semantic_search_frame query chunks top_k :
  Forall text_is_str chunks ->
  exists result,
    semantic_search query chunks top_k = Return result /\
    Forall (fun r => exists chunk, In chunk chunks /\
              (forall key, key <> "relevance_score"%string -> r !! key = chunk !! key) /\
              r !! "relevance_score" = Some (VInt (chunk_score query chunk)) /\
              (chunk !! "relevance_score" = None ->
                 (forall key v, chunk !! key = Some v -> r !! key = Some v) /\
                 size r = S (size chunk))) result.
Proof.
  intros H.
  destruct (semantic_search_ranking query chunks top_k H) as (result & Hr & _ & Hall & _).
  exists result. split; [exact Hr|].
  eapply List.Forall_impl; [|exact Hall]. cbn.
  intros r (chunk & Hin & -> & _). exists chunk. split; [exact Hin|].
  unfold annotated. split; [|split].
  - intros key Hkey. now rewrite lookup_insert_ne.
  - apply lookup_insert_eq.
  - intros Hnone. split.
    + intros key v Hv. rewrite lookup_insert_ne; [exact Hv|]. congruence.
    + now apply map_size_insert_None.
Qed.

(** C5 fails as stated for a negative [top_k]: the slice [[:-1]] drops
    the last record only, so one record comes back for [top_k = -1]. *)
Lemma semantic_search_negative_top_k :
  exists result,
    semantic_search (lit "payment") [doc 1 "payment due"; doc 2 "late payment"] (-1)
      = Return result /\
    len result = 1 /\
    ~ (len result <= -1).
Proof.
  eexists. split.
  - apply semantic_search_eq.
    repeat (apply List.Forall_cons; [vm_compute; exact I|]). apply List.Forall_nil.
  - assert (E : len (slice_to (sort_desc relevance
                   (qualifying (lit "payment")
                      [doc 1 "payment due"; doc 2 "late payment"])) (-1)) = 1)
      by (vm_compute; reflexivity).
    rewrite E. split; [reflexivity | lia].
Qed.

(** C10 fails as stated for a chunk record that already has a
    [relevance_score]: its value 7 is replaced by the score 1, and no key
    is added. *)
Lemma semantic_search_overwrites_score :
  semantic_search (lit "payment") [rescored] 5
    = Return [annotated (lit "payment") rescored] /\
  rescored !! "relevance_score" = Some (VInt 7) /\
  annotated (lit "payment") rescored !! "relevance_score" = Some (VInt 1) /\
  size (annotated (lit "payment") rescored) = size rescored.
Proof.
  split; [|split; [|split]].
  - rewrite semantic_search_eq
      by (repeat (apply List.Forall_cons; [vm_compute; exact I|]); apply List.Forall_nil).
    unfold qualifying. cbn [List.filter].
    replace (0 <? chunk_score (lit "payment") rescored) with true
      by (vm_compute; reflexivity).
    reflexivity.
  - reflexivity.
  - unfold annotated. rewrite lookup_insert_eq.
    replace (chunk_score (lit "payment") rescored) with 1 by (vm_compute; reflexivity).
    reflexivity.
  - vm_compute. reflexivity.
Qed.

Lemma semantic_search_ranking_witness :
  exists result,
    semantic_search (lit "payment terms net 30")
      [doc 1 "the payment"; doc 2 "nothing here";
       doc 3 "Payment terms are net 30 days"; doc 4 "PAYMENT due"] 2 = Return result /\
    (0 <= 2 -> len result <= 2) /\
    Forall (fun r => exists chunk,
              In chunk [doc 1 "the payment"; doc 2 "nothing here";
                        doc 3 "Payment terms are net 30 days"; doc 4 "PAYMENT due"] /\
              r = annotated (lit "payment terms net 30") chunk /\
              0 < chunk_score (lit "payment terms net 30") chunk) result /\
    StronglySorted desc result /\
    (forall s, with_score s result `prefix_of`
               with_score s (qualifying (lit "payment terms net 30")
                  [doc 1 "the payment"; doc 2 "nothing here";
                   doc 3 "Payment terms are net 30 days"; doc 4 "PAYMENT due"])).
Proof.
  apply (semantic_search_ranking (lit "payment terms net 30")
           [doc 1 "the payment"; doc 2 "nothing here";
            doc 3 "Payment terms are net 30 days"; doc 4 "PAYMENT due"] 2).
  repeat (apply List.Forall_cons; [vm_compute; exact I|]). apply List.Forall_nil.
Defined.

Lemma semantic_search_frame_witness :
  exists result,
    semantic_search (lit "payment") [doc 1 "the payment"; doc 2 "nothing here"] 5
      = Return result /\
    Forall (fun r => exists chunk,
              In chunk [doc 1 "the payment"; doc 2 "nothing here"] /\
              (forall key, key <> "relevance_score"%string -> r !! key = chunk !! key) /\
              r !! "relevance_score" = Some (VInt (chunk_score (lit "payment") chunk)) /\
              (chunk !! "relevance_score" = None ->
                 (forall key v, chunk !! key = Some v -> r !! key = Some v) /\
                 size r = S (size chunk))) result.
Proof.
  apply (semantic_search_frame (lit "payment")
           [doc 1 "the payment"; doc 2 "nothing here"] 5).
  repeat (apply List.Forall_cons; [vm_compute; exact I|]). apply List.Forall_nil.
Defined.

(** The ranking of the specification's example: the chunk with all of
    the query's words comes first, the chunk that shares none is left
    out, and the two chunks with one word keep their order. *)
Example semantic_search_example :
  exists result,
    semantic_search (lit "payment terms net 30")
      [doc 1 "the payment"; doc 2 "nothing here";
       doc 3 "Payment terms are net 30 days"; doc 4 "PAYMENT due"] 5 = Return result /\
    view ["document_id"; "relevance_score"]%string result =
    [ [Some (VInt 3); Some (VInt 4)];
      [Some (VInt 1); Some (VInt 1)];
      [Some (VInt 4); Some (VInt 1)] ].
Proof.
  eexists. split.
  - apply semantic_search_eq.
    repeat (apply List.Forall_cons; [vm_compute; exact I|]). apply List.Forall_nil.
  - vm_compute. reflexivity.
Qed.

End Retriever.

(** ** The risk auditor *)

Section Auditor.
Import Py Re RiskAuditEngine Spec.

(** Compare the rule ids of the table with a given one. *)
Ltac decide_ids :=
  repeat match goal with
  | |- context [str_eqb (lit (id ?r)) (lit ?ty)] =>
      let b := eval vm_compute in (str_eqb (lit (id r)) (lit ty)) in
      change (str_eqb (lit (id r)) (lit ty)) with b
  end.

(** The first match [finditer] yields is the match of [search]. *)
Lemma finditer_head fl r text :
  hd_error (finditer fl r text) = search fl r text.
Proof.
  unfold finditer, search. cbn [finditer_go].
  destruct (search_go fl r text 0) as [m|]; [|reflexivity].
  destruct (m_start m <? m_end m)%nat; [reflexivity|].
  destruct (skipn _ _); reflexivity.
Qed.

Lemma first_match_finding r text p :
  match finditer I_flag p text with
  | [] => []
  | m :: _ => [pattern_finding r text m]
  end =
  match search I_flag p text with
  | Some m => [pattern_finding r text m]
  | None => []
  end.
Proof.
  rewrite <- finditer_head. destruct (finditer I_flag p text); reflexivity.
Qed.

Lemma has_type_insert ty v f :
  has_type ty (<["finding_type" := VStr v]> f) = str_eqb v (lit ty).
Proof. unfold has_type. now rewrite lookup_insert_eq. Qed.

(** Every finding a rule appends carries the id of the rule. *)
Lemma rule_findings_typed r text data :
  Forall (fun f => forall ty, has_type ty f = str_eqb (lit (id r)) (lit ty))
         (rule_findings r text data).
Proof.
  unfold rule_findings. apply Forall_app. split.
  - unfold pattern_findings. apply List.Forall_forall. intros f Hin.
    apply in_flat_map in Hin as (p & _ & Hin).
    destruct (finditer I_flag p text) as [|m ms]; [contradiction|].
    destruct Hin as [<-|[]]. intros ty. apply has_type_insert.
  - unfold check_findings.
    destruct (check_func r) as [fname|]; [|constructor].
    destruct (check_method fname) as [check|]; [|constructor].
    destruct (check text data) as [result|]; [|constructor].
    destruct (dict_truthy result); constructor; [|constructor].
    intros ty. apply has_type_insert.
Qed.

Lemma filter_rule_findings ty r text data :
  findings_of_type ty (rule_findings r text data) =
  if str_eqb (lit (id r)) (lit ty) then rule_findings r text data else [].
Proof.
  unfold findings_of_type.
  pose proof (rule_findings_typed r text data) as H.
  induction H as [|f fs Hf _ IH]; cbn [List.filter].
  - now destruct (str_eqb _ _).
  - rewrite Hf, IH. now destruct (str_eqb _ _).
Qed.

Lemma findings_of_type_app ty a b :
  findings_of_type ty (a ++ b) = findings_of_type ty a ++ findings_of_type ty b.
Proof. apply List.filter_app. Qed.

(** The findings with the id of the auto-renewal rule are the ones that
    rule appends. *)
Lemma auto_renewal_only model text data :
  findings_for "AUTO_RENEWAL" model text data = rule_findings AUTO_RENEWAL text data.
Proof.
  unfold findings_for, audit, audit_document, init. cbn [snd fst rules RISK_RULES flat_map].
  rewrite !findings_of_type_app, !filter_rule_findings.
  decide_ids. cbn [app findings_of_type List.filter]. apply app_nil_r.
Qed.

Lemma auto_renewal_pattern_findings text :
  pattern_findings AUTO_RENEWAL text =
  match search I_flag renewal_phrase text with
  | Some am => [pattern_finding AUTO_RENEWAL text am]
  | None => []
  end.
Proof.
  unfold pattern_findings. cbn [patterns AUTO_RENEWAL flat_map].
  rewrite app_nil_r. apply first_match_finding.
Qed.

Lemma anchored_truthy text a b : dict_truthy (anchored text a b) = true.
Proof.
  unfold dict_truthy, anchored. destruct (decide _) as [E|]; [|reflexivity].
  exfalso. exact (insert_non_empty _ _ _ E).
Qed.

Lemma auto_renewal_check_findings text data :
  check_findings AUTO_RENEWAL text data =
  match check_auto_renewal text data with
  | Some result => if dict_truthy result then [check_finding AUTO_RENEWAL result] else []
  | None => []
  end.
Proof. reflexivity. Qed.

Lemma notice_days_none text am :
  notice_days text am = None ->
  search I_flag notice_phrase
    (slice text (Z.max 0 (Z.of_nat (m_start am) - 500)) (Z.of_nat (m_end am) + 500)) = None.
Proof.
  unfold notice_days, group_days.
  destruct (search I_flag notice_phrase _) as [nm|] eqn:E; [|reflexivity].
  destruct (search_group _ _ _ _ 1%nat E eq_refl) as [g ->]. discriminate.
Qed.

Lemma check_auto_renewal_cases text data :
  check_auto_renewal text data =
  match search I_flag renewal_phrase text with
  | Some am =>
      match notice_days text am with
      | Some days => if days <? 30 then Some (renewal_anchor text am) else None
      | None => Some (renewal_anchor text am)
      end
  | None => None
  end.
Proof.
  unfold check_auto_renewal. destruct (search I_flag renewal_phrase text) as [am|]; [|reflexivity].
  cbv zeta. destruct (notice_days text am) as [days|] eqn:En.
  - unfold notice_days in En. cbv zeta in En.
    destruct (search I_flag notice_phrase _); [|discriminate]. now rewrite En.
  - now rewrite (notice_days_none _ _ En).
Qed.

(** What the audit does for the auto-renewal rule.  Without a renewal
    phrase there is no AUTO_RENEWAL finding.  With one, [am] the first:
    when the first notice phrase in the window of 500 characters around
    it has 30 days or more, [check_auto_renewal] returns nothing and the
    only AUTO_RENEWAL finding is the one of the rule's pattern list; when
    the window has no notice phrase, or its first one has fewer than 30
    days, [check_auto_renewal] returns the finding anchored at the
    renewal phrase with its window of 200 characters, and the audit has
    the pattern finding followed by that one. *)
Lemma auto_renewal_findings model text data :
  (search I_flag renewal_phrase text = None ->
   findings_for "AUTO_RENEWAL" model text data = []) /\
  (forall am, search I_flag renewal_phrase text = Some am ->
     (forall days, notice_days text am = Some days -> 30 <= days ->
        check_auto_renewal text data = None /\
        findings_for "AUTO_RENEWAL" model text data =
          [pattern_finding AUTO_RENEWAL text am]) /\
     (notice_days text am = None \/
      (exists days, notice_days text am = Some days /\ days < 30) ->
        check_auto_renewal text data = Some (renewal_anchor text am) /\
        findings_for "AUTO_RENEWAL" model text data =
          [pattern_finding AUTO_RENEWAL text am;
           check_finding AUTO_RENEWAL (renewal_anchor text am)])).
Proof.
  rewrite auto_renewal_only. unfold rule_findings.
  rewrite auto_renewal_pattern_findings, auto_renewal_check_findings,
    check_auto_renewal_cases.
  split.
  - intros ->. reflexivity.
  - intros am ->. split.
    + intros days -> Hd. destruct (Z.ltb_spec days 30); [lia|]. split; reflexivity.
    + intros [->|(days & -> & Hd)].
      * unfold renewal_anchor. rewrite anchored_truthy. split; reflexivity.
      * destruct (Z.ltb_spec days 30); [|lia]. unfold renewal_anchor.
        rewrite anchored_truthy. split; reflexivity.
Qed.

(** C4 at its failing input: 60 days of notice follow the renewal
    phrase, [check_auto_renewal] has no objection, and the audit still
    reports a finding of the rule AUTO_RENEWAL, described as "Automatic
    Renewal Without Notice": the one the rule's pattern list gives
    whenever the phrase occurs. *)
Theorem auto_renewal_with_notice_still_found :
  search I_flag renewal_phrase renews_60 =
    Some {| m_start := 21; m_end := 40; m_caps := [] |} /\
  notice_days renews_60 {| m_start := 21; m_end := 40; m_caps := [] |} = Some 60 /\
  check_auto_renewal renews_60 None = None /\
  view ["finding_type"; "description"; "char_start"; "char_end"]%string
       (findings_for "AUTO_RENEWAL" "gpt-3.5-turbo" renews_60 None) =
  [ [Some (str_val "AUTO_RENEWAL");
     Some (str_val "Automatic Renewal Without Notice");
     Some (VInt 21); Some (VInt 40)] ].
Proof.
  repeat split; vm_compute; reflexivity.
Qed.

(** The same audit through the general lemma. *)
(** The same audit through the general lemma. *)
Example auto_renewal_findings_at_60_days :
  findings_for "AUTO_RENEWAL" "gpt-3.5-turbo" renews_60 None =
  [pattern_finding AUTO_RENEWAL renews_60
     {| m_start := 21; m_end := 40; m_caps := [] |}].
Proof.
  refine (proj2 (proj1 (proj2 (auto_renewal_findings "gpt-3.5-turbo" renews_60 None)
                           {| m_start := 21; m_end := 40; m_caps := [] |} _) 60 _ _)).
  - vm_compute. reflexivity.
  - vm_compute. reflexivity.
  - lia.
Defined.



(** Each pattern of a rule gives at most one finding, from its first
    match; the evidence is the trimmed window of 100 characters on each
    side. *)
Lemma pattern_findings_first_matches r text :
  pattern_findings r text =
  flat_map (fun p => match search I_flag p text with
                     | Some m => [pattern_finding r text m]
                     | None => []
                     end) (patterns r).
Proof.
  unfold pattern_findings. induction (patterns r) as [|p ps IH]; [reflexivity|].
  cbn [flat_map]. now rewrite IH, first_match_finding.
Qed.

Lemma pattern_findings_bound r text :
  (length (pattern_findings r text) <= length (patterns r))%nat.
Proof.
  rewrite pattern_findings_first_matches.
  induction (patterns r) as [|p ps IH]; cbn [flat_map]; [reflexivity|].
  rewrite length_app. destruct (search I_flag p text); cbn; lia.
Qed.

Lemma pattern_finding_evidence r text m :
  pattern_finding r text m !! "evidence" =
  Some (VStr (strip (slice text (Z.max 0 (Z.of_nat (m_start m) - 100))
                                (Z.min (len text) (Z.of_nat (m_end m) + 100))))).
Proof. reflexivity. Qed.

(** C1 at its failing input: the [break] ends the loop over the matches
    of one pattern only, so the rule NO_WARRANTY, whose first and second
    pattern both match, gives two findings in one audit. *)
Theorem no_warranty_two_findings :
  view ["finding_type"; "char_start"; "char_end"]%string
       (findings_for "NO_WARRANTY" "gpt-3.5-turbo" as_is_text None) =
  [ [Some (str_val "NO_WARRANTY"); Some (VInt 5); Some (VInt 10)];
    [Some (str_val "NO_WARRANTY"); Some (VInt 11); Some (VInt 27)] ].
Proof. vm_compute. reflexivity. Qed.

(** C7.  A call of [audit_document] leaves the engine as it found it, so
    a second call with the same text and fact map returns the same
    findings, in the same order, and the same score; the result does not
    depend on the engine's own settings either. *)
Theorem audit_document_idempotent self text data :
  (let '(self1, r1) := audit_document self text data in
   let '(self2, r2) := audit_document self1 text data in
   self1 = self /\ self2 = self /\ r1 = r2) /\
  (forall model1 model2,
     audit (init model1) text data = audit (init model2) text data).
Proof. split; [cbn; auto | reflexivity]. Qed.

End Auditor.

(** ** The field extractor *)

Section Extractor.
Import Py Re ContractExtractor Spec.

Lemma finditer_none fl r text :
  search fl r text = None -> finditer fl r text = [].
Proof.
  unfold finditer, search. cbn [finditer_go]. now intros ->.
Qed.

Lemma first_match_unmatched fl ps text :
  unmatched fl ps text -> first_match fl ps text = None.
Proof.
  induction 1 as [|p ps Hp _ IH]; [reflexivity|]. cbn. now rewrite Hp.
Qed.

Lemma first_match_group fl n ps text m :
  forallb (sets n) ps = true ->
  first_match fl ps text = Some m ->
  exists g, group text m n = Some g.
Proof.
  induction ps as [|p ps IH]; [discriminate|].
  cbn [forallb first_match]. intros [Hp Hps]%andb_true_iff.
  destruct (search fl p text) as [m'|] eqn:E.
  - intros [= <-]. eapply search_group; eauto.
  - now apply IH.
Qed.

Lemma extract_term_returns text : exists v, extract_term text = Return v.
Proof.
  unfold extract_term. cbv zeta.
  destruct (first_match I_flag term_patterns (slice_to text 3000)) as [m|] eqn:E; [|eauto].
  destruct (first_match_group I_flag 1%nat term_patterns _ _ eq_refl E) as [g Hg].
  unfold group_strip. rewrite Hg. cbn. eauto.
Qed.

Lemma extract_governing_law_returns text :
  exists v, extract_governing_law text = Return v.
Proof.
  unfold extract_governing_law.
  destruct (first_match I_flag law_patterns text) as [m|] eqn:E; [|eauto].
  destruct (first_match_group I_flag 1%nat law_patterns _ _ eq_refl E) as [g Hg].
  unfold group_strip. rewrite Hg. cbn. eauto.
Qed.

Lemma cap_cascade_returns float_ text : forall ps,
  forallb (sets 1) ps = true ->
  exists d, cap_cascade float_ ps text = Return d.
Proof.
  induction ps as [|p ps IH]; [eauto|].
  cbn [forallb cap_cascade]. intros [Hp Hps]%andb_true_iff.
  destruct (search I_flag p text) as [m|] eqn:E; [|auto].
  destruct (search_group _ _ _ _ 1%nat E Hp) as [g ->].
  cbv zeta. destruct (float_ _); eauto.
Qed.

Lemma cap_cascade_unmatched float_ text : forall ps,
  unmatched I_flag ps text -> cap_cascade float_ ps text = Return ∅.
Proof.
  induction 1 as [|p ps Hp _ IH]; [reflexivity|]. cbn. now rewrite Hp.
Qed.

Lemma cap_cascade_parse_fails float_ text : forall ps,
  forallb (sets 1) ps = true ->
  (forall s, float_ s = None) ->
  cap_cascade float_ ps text = Return ∅.
Proof.
  intros ps Hs Hf. induction ps as [|p ps IH]; [reflexivity|].
  cbn [forallb] in Hs. apply andb_true_iff in Hs as [Hp Hps].
  cbn [cap_cascade].
  destruct (search I_flag p text) as [m|] eqn:E; [|auto].
  destruct (search_group _ _ _ _ 1%nat E Hp) as [g ->].
  cbv zeta. rewrite Hf. auto.
Qed.

(** One failed parse: the cascade goes on with the patterns that are left. *)
Lemma cap_cascade_discards float_ text p ps m g :
  search I_flag p text = Some m ->
  group text m 1 = Some g ->
  float_ (remove_char 44 g) = None ->
  cap_cascade float_ (p :: ps) text = cap_cascade float_ ps text.
Proof. intros Hm Hg Hf. cbn [cap_cascade]. now rewrite Hm, Hg, Hf. Qed.

(** A pattern whose candidate parses decides; a pattern that does not
    match is passed over. *)
Lemma cap_cascade_hit float_ text p ps m g a c :
  search I_flag p text = Some m ->
  group text m 1 = Some g ->
  float_ (remove_char 44 g) = Some a ->
  currency_of (group0 text m) = lit c ->
  cap_cascade float_ (p :: ps) text = Return (cap_record a c).
Proof.
  intros Hm Hg Hf Hc. cbn [cap_cascade]. rewrite Hm, Hg. cbv zeta.
  now rewrite Hf, Hc.
Qed.

Lemma cap_cascade_miss float_ text p ps :
  search I_flag p text = None ->
  cap_cascade float_ (p :: ps) text = cap_cascade float_ ps text.
Proof. intros Hm. cbn [cap_cascade]. now rewrite Hm. Qed.

Lemma extract_parties_unmatched set_order text :
  (forall l x, In x (set_order l) -> In x l) ->
  unmatched IM_flags party_patterns (slice_to text 2000) ->
  extract_parties set_order text = [].
Proof.
  intros Hset Hun. unfold extract_parties. cbv zeta.
  assert (Hnil : flat_map (fun pattern =>
             flat_map clean_party (findall1 IM_flags pattern (slice_to text 2000)))
             party_patterns = []).
  { induction Hun as [|p ps Hp _ IH]; [reflexivity|].
    cbn [flat_map]. unfold findall1 at 1. rewrite (finditer_none _ _ _ Hp). exact IH. }
  rewrite Hnil. destruct (set_order []) as [|x l] eqn:E; [reflexivity|].
  exfalso. apply (Hset [] x). rewrite E. now left.
Qed.

(** C8.  For every text, every iteration order of the party set and
    every behaviour of the numeric parse, the extraction routines return:
    none of them raises.  A field none of whose patterns matches has its
    default: no party, [None] for the date, the term and the governing
    law, the empty record for the liability cap, ["No"] for the
    auto-renewal.  A numeric parse that fails discards its candidate and
    the cascade goes on with the patterns that are left: when the amount
    of the first liability pattern does not parse, the second pattern
    decides (its record when its amount parses, the empty record when it
    does not match); when every parse fails the result is the empty
    record. *)
Theorem extractors_never_raise
    (set_order : list str -> list str) (float_ : str -> option Q) (text : str) :
  (forall l x, In x (set_order l) -> In x l) ->
  ((exists v, extract_term text = Return v) /\
   (exists v, extract_governing_law text = Return v) /\
   (exists d, extract_liability_cap_with float_ text = Return d)) /\
  ((unmatched IM_flags party_patterns (slice_to text 2000) ->
      extract_parties set_order text = []) /\
   (unmatched I_flag date_patterns (slice_to text 2000) -> extract_dates text = None) /\
   (unmatched I_flag term_patterns (slice_to text 3000) ->
      extract_term text = Return None) /\
   (unmatched I_flag law_patterns text -> extract_governing_law text = Return None) /\
   (unmatched I_flag liability_patterns text ->
      extract_liability_cap_with float_ text = Return ∅) /\
   (search I_flag auto_renew_pattern text = None ->
      extract_auto_renewal text = lit "No")) /\
  ((forall s, float_ s = None) ->
     extract_liability_cap_with float_ text = Return ∅) /\
  (forall p ps m g,
     search I_flag p text = Some m ->
     group text m 1 = Some g ->
     float_ (remove_char 44 g) = None ->
     cap_cascade float_ (p :: ps) text = cap_cascade float_ ps text) /\
  (forall m1 g1,
     search I_flag (hd Eps liability_patterns) text = Some m1 ->
     group text m1 1 = Some g1 ->
     float_ (remove_char 44 g1) = None ->
     (forall m2 g2 a c,
        search I_flag (hd Eps (tl liability_patterns)) text = Some m2 ->
        group text m2 1 = Some g2 ->
        float_ (remove_char 44 g2) = Some a ->
        currency_of (group0 text m2) = lit c ->
        extract_liability_cap_with float_ text = Return (cap_record a c)) /\
     (search I_flag (hd Eps (tl liability_patterns)) text = None ->
        extract_liability_cap_with float_ text = Return ∅)).
Proof.
  intros Hset. split; [|split; [|split; [|split]]].
  - split; [apply extract_term_returns|].
    split; [apply extract_governing_law_returns|].
    now apply cap_cascade_returns.
  - split; [now apply extract_parties_unmatched|].
    split. { intros H. unfold extract_dates. cbv zeta. now rewrite (first_match_unmatched _ _ _ H). }
    split. { intros H. unfold extract_term. cbv zeta. now rewrite (first_match_unmatched _ _ _ H). }
    split. { intros H. unfold extract_governing_law. now rewrite (first_match_unmatched _ _ _ H). }
    split. { apply cap_cascade_unmatched. }
    intros H. unfold extract_auto_renewal. now rewrite H.
  - now apply cap_cascade_parse_fails.
  - intros p ps m g. apply cap_cascade_discards.
  - intros m1 g1 Hm1 Hg1 Hf1.
    unfold extract_liability_cap_with, liability_patterns in *. cbn [hd tl] in *.
    rewrite (cap_cascade_discards _ _ _ _ _ _ Hm1 Hg1 Hf1). split.
    + intros m2 g2 a c Hm2 Hg2 Hf2 Hc. now apply (cap_cascade_hit _ _ _ _ m2 g2).
    + intros Hm2. now rewrite cap_cascade_miss.
Qed.

(** On the empty text nothing matches. *)
Lemma unmatched_empty :
  unmatched IM_flags party_patterns (slice_to [] 2000) /\
  unmatched I_flag date_patterns (slice_to [] 2000) /\
  unmatched I_flag term_patterns (slice_to [] 3000) /\
  unmatched I_flag law_patterns [] /\
  unmatched I_flag liability_patterns [] /\
  search I_flag auto_renew_pattern [] = None.
Proof.
  repeat split; repeat (apply List.Forall_cons; [vm_compute; reflexivity|]);
    try apply List.Forall_nil.
Qed.

Lemma extractors_never_raise_witness :
  (extract_parties (fun l => remove_dups l) [] = [] /\
   extract_dates [] = None /\
   extract_term [] = Return None /\
   extract_governing_law [] = Return None /\
   extract_liability_cap [] = Return ∅ /\
   extract_auto_renewal [] = lit "No") /\
  extract_liability_cap_with (Spec2.float_but (lit "100000")) Spec2.cap_two =
    Return (cap_record 5 "USD").
Proof.
  assert (Hset : forall (l : list str) x, In x (remove_dups l) -> In x l).
  { intros l x. rewrite <- !list_elem_of_In. apply elem_of_remove_dups. }
  split.
  - destruct (extractors_never_raise (fun l => remove_dups l) py_float [] Hset)
      as (_ & (Hp & Hd & Ht & Hl & Hc & Ha) & _).
    destruct unmatched_empty as (Up & Ud & Ut & Ul & Uc & Ua).
    repeat split; auto.
  - destruct (extractors_never_raise (fun l => remove_dups l)
                (Spec2.float_but (lit "100000")) Spec2.cap_two Hset)
      as (_ & _ & _ & _ & Hgo).
    eapply Hgo; vm_compute; reflexivity.
Defined.


Lemma normalize_currency_other c :
  c <> [euro] -> c <> lit "EUR" -> c <> [pound] -> c <> lit "GBP" ->
  normalize_currency (Some c) = lit "USD".
Proof.
  intros H1 H2 H3 H4. unfold normalize_currency, str_eqb.
  repeat (destruct (decide _); [contradiction|]). reflexivity.
Qed.

(** C9.  On the specification's example the liability cap is the record
    with amount 100000.0 and currency USD: group 1 is ["100,000"], the
    commas are removed, the digits are read as a decimal.  The marker is
    normalised: [€] and [EUR] to EUR, [£] and [GBP] to GBP, anything else
    to USD. *)
Theorem extract_liability_cap_example :
  extract_liability_cap cap_example = Return (cap_record 100000 "USD") /\
  (exists m,
     search I_flag (hd Eps liability_patterns) cap_example = Some m /\
     group cap_example m 1 = Some (lit "100,000") /\
     remove_char 44 (lit "100,000") = lit "100000" /\
     py_float (lit "100000") = Some 100000%Q) /\
  normalize_currency (Some [euro]) = lit "EUR" /\
  normalize_currency (Some (lit "EUR")) = lit "EUR" /\
  normalize_currency (Some [pound]) = lit "GBP" /\
  normalize_currency (Some (lit "GBP")) = lit "GBP" /\
  (forall c, c <> [euro] -> c <> lit "EUR" -> c <> [pound] -> c <> lit "GBP" ->
             normalize_currency (Some c) = lit "USD") /\
  extract_liability_cap cap_euro = Return (cap_record 5000.50 "EUR") /\
  extract_liability_cap cap_pound = Return (cap_record 2500 "GBP").
Proof.
  split.
  { eapply cap_cascade_hit; vm_compute; reflexivity. }
  split. { eexists. repeat split; vm_compute; reflexivity. }
  do 4 (split; [vm_compute; reflexivity|]).
  split; [exact normalize_currency_other|].
  split.
  - eapply cap_cascade_hit; vm_compute; reflexivity.
  - unfold extract_liability_cap, extract_liability_cap_with, liability_patterns.
    rewrite cap_cascade_miss by (vm_compute; reflexivity).
    eapply cap_cascade_hit; vm_compute; reflexivity.
Qed.

Lemma extract_liability_cap_example_witness :
  normalize_currency (Some (lit "$")) = lit "USD".
Proof.
  apply (proj1 (proj2 (proj2 (proj2 (proj2 (proj2 (proj2 extract_liability_cap_example))))))
           (lit "$")); vm_compute; discriminate.
Defined.
End Extractor.

(** ** The matcher is sound for the match relation *)

Section Sound.
Import Py Re ReSpec.
Context (fl : flags) (Q : nat -> str -> Prop) (text : str).

Lemma substr_mid (pre s1 s' : str) :
  substr (pre ++ s1 ++ s') (length pre) (length pre + length s1) = s1.
Proof.
  unfold substr.
  replace (length pre + length s1 - length pre)%nat with (length s1) by lia.
  now rewrite drop_app_length, take_app_length.
Qed.

Lemma caps_sat_cons n a b cp :
  (a <= b)%nat -> (b <= length text)%nat -> Q n (substr text a b) ->
  caps_sat Q text cp -> caps_sat Q text ((n, (a, b)) :: cp).
Proof.
  intros Hab Hb Hq Hcp m x y. cbn. destruct (Nat.eqb m n) eqn:E.
  - apply Nat.eqb_eq in E as ->. intros [= <- <-]. auto.
  - apply Hcp.
Qed.

Lemma mt_sound {A : Type} (r : regex) :
  grp_ok fl Q r ->
  forall pre s cp (k : str -> nat -> caps -> option A) res,
    text = pre ++ s -> caps_sat Q text cp ->
    mt fl r s (length pre) cp k = Some res ->
    reached fl Q text k res r pre s.
Proof.
  induction r as [| cs | | a IHa b IHb | a IHa b IHb | g a IHa | m a IHa];
    intros Hok pre s cp k res Ht Hcp H; cbn [mt] in H; cbn [grp_ok] in Hok.
  - exists [], s, cp. cbn. rewrite Nat.add_0_r.
    split; [reflexivity|]. split; [constructor|]. split; [exact H | exact Hcp].
  - destruct s as [|c s']; [discriminate|].
    destruct (cset_has _ cs c) eqn:E; [|discriminate].
    exists [c], s', cp. cbn. rewrite Nat.add_1_r.
    split; [reflexivity|]. split; [now constructor|]. split; [exact H | exact Hcp].
  - destruct (at_eol fl s) eqn:E; [|discriminate].
    exists [], s, cp. cbn. rewrite Nat.add_0_r.
    split; [reflexivity|]. split; [now constructor|]. split; [exact H | exact Hcp].
  - destruct Hok as [Ha Hb].
    destruct (IHa Ha pre s cp _ res Ht Hcp H) as (s1 & s' & c1 & -> & M1 & H1 & C1).
    replace (length pre + length s1)%nat with (length (pre ++ s1)) in H1
      by (rewrite length_app; lia).
    assert (Ht' : text = (pre ++ s1) ++ s') by (now rewrite <- app_assoc).
    destruct (IHb Hb (pre ++ s1) s' c1 _ res Ht' C1 H1) as (s2 & s'' & c2 & -> & M2 & H2 & C2).
    exists (s1 ++ s2), s'', c2. rewrite <- app_assoc. split; [reflexivity|].
    split; [now constructor|]. split; [|exact C2].
    rewrite <- H2. f_equal. rewrite !length_app. lia.
  - destruct Hok as [Ha Hb]. destruct (mt fl a s (length pre) cp k) eqn:Ea.
    + injection H as ->.
      destruct (IHa Ha pre s cp _ res Ht Hcp Ea) as (s1 & s' & c1 & -> & M1 & H1 & C1).
      exists s1, s', c1. split; [reflexivity|]. split; [now apply M_AltL|]. split; assumption.
    + destruct (IHb Hb pre s cp _ res Ht Hcp H) as (s1 & s' & c1 & -> & M1 & H1 & C1).
      exists s1, s', c1. split; [reflexivity|]. split; [now apply M_AltR|]. split; assumption.
  - revert H. generalize (length s) as fuel. intros fuel. revert pre s cp res Ht Hcp.
    induction fuel as [|fuel IHf]; intros pre s cp res Ht Hcp H; cbn [star_loop] in H.
    + exists [], s, cp. cbn. rewrite Nat.add_0_r.
      split; [reflexivity|]. split; [constructor|]. split; [exact H | exact Hcp].
    + set (again := fun s1 p1 c1 =>
          if (length pre <? p1)%nat then star_loop (mt fl a) g k fuel s1 p1 c1 else None) in H.
      assert (Hmore : forall res', mt fl a s (length pre) cp again = Some res' ->
                reached fl Q text k res' (Star g a) pre s).
      { intros res' Hm.
        destruct (IHa Hok pre s cp _ res' Ht Hcp Hm) as (s1 & s' & c1 & -> & M1 & H1 & C1).
        unfold again in H1. destruct (length pre <? _)%nat; [|discriminate].
        replace (length pre + length s1)%nat with (length (pre ++ s1)) in H1
          by (rewrite length_app; lia).
        assert (Ht' : text = (pre ++ s1) ++ s') by (now rewrite <- app_assoc).
        destruct (IHf (pre ++ s1) s' c1 res' Ht' C1 H1) as (s2 & s'' & c2 & -> & M2 & H2 & C2).
        exists (s1 ++ s2), s'', c2. rewrite <- app_assoc. split; [reflexivity|].
        split; [now apply M_StarS|]. split; [|exact C2].
        rewrite <- H2. f_equal. rewrite !length_app. lia. }
      assert (Hstop : forall res', k s (length pre) cp = Some res' ->
                reached fl Q text k res' (Star g a) pre s).
      { intros res' Hk. exists [], s, cp. cbn. rewrite Nat.add_0_r.
        split; [reflexivity|]. split; [constructor|]. split; [exact Hk | exact Hcp]. }
      destruct g.
      * destruct (mt fl a s (length pre) cp again) eqn:Em.
        -- injection H as ->. now apply Hmore.
        -- now apply Hstop.
      * destruct (k s (length pre) cp) eqn:Ek.
        -- injection H as ->. now apply Hstop.
        -- now apply Hmore.
  - destruct Hok as [Ha Hq].
    destruct (IHa Ha pre s cp _ res Ht Hcp H) as (s1 & s' & c1 & -> & M1 & H1 & C1).
    exists s1, s', ((m, (length pre, (length pre + length s1)%nat)) :: c1).
    split; [reflexivity|]. split; [now constructor|]. split; [exact H1|].
    apply caps_sat_cons; auto; [lia | rewrite Ht, !length_app; lia |].
    rewrite Ht, substr_mid. eapply Hq, M1.
Qed.

Lemma caps_sat_nil : caps_sat Q text [].
Proof. intros n a b. discriminate. Qed.

Lemma match_here_sound r pre s m :
  grp_ok fl Q r -> text = pre ++ s ->
  match_here fl r s (length pre) = Some m ->
  m_start m = length pre /\ sound_match fl Q r text m.
Proof.
  intros Hok Ht H. unfold match_here in H.
  destruct (mt_sound r Hok pre s [] _ m Ht caps_sat_nil H)
    as (s1 & s' & c' & -> & M & Hk & C).
  injection Hk as <-. cbn [m_start]. split; [reflexivity|].
  unfold sound_match, group0. cbn [m_start m_end m_caps].
  split; [lia|]. split; [rewrite Ht, !length_app; lia|].
  split; [|exact C].
  rewrite Ht, substr_mid.
  replace (length pre + length s1)%nat with (length (pre ++ s1)) by (rewrite length_app; lia).
  now rewrite app_assoc, drop_app_length.
Qed.

Lemma search_go_sound r : grp_ok fl Q r ->
  forall s pre m, text = pre ++ s ->
    search_go fl r s (length pre) = Some m ->
    (length pre <= m_start m)%nat /\ sound_match fl Q r text m.
Proof.
  intros Hok. induction s as [|c s IH]; intros pre m Ht H; cbn [search_go] in H.
  - destruct (match_here fl r [] (length pre)) eqn:E; [|discriminate].
    injection H as ->. destruct (match_here_sound r pre [] m Hok Ht E) as [-> Hs].
    split; [lia | exact Hs].
  - destruct (match_here fl r (c :: s) (length pre)) eqn:E.
    + injection H as ->. destruct (match_here_sound r pre _ m Hok Ht E) as [-> Hs].
      split; [lia | exact Hs].
    + assert (Ht' : text = (pre ++ [c]) ++ s) by (now rewrite <- app_assoc).
      replace (S (length pre)) with (length (pre ++ [c])) in H
        by (rewrite length_app; cbn; lia).
      destruct (IH _ m Ht' H) as [Hle Hs]. rewrite length_app in Hle. cbn in Hle.
      split; [lia | exact Hs].
Qed.

Lemma search_sound r m :
  grp_ok fl Q r -> search fl r text = Some m -> sound_match fl Q r text m.
Proof.
  intros Hok H. now destruct (search_go_sound r Hok text [] m eq_refl H).
Qed.

Lemma finditer_go_sound r : grp_ok fl Q r ->
  forall fuel s pre, text = pre ++ s ->
    Forall (sound_match fl Q r text) (finditer_go fl r fuel s (length pre)).
Proof.
  intros Hok. induction fuel as [|fuel IH]; intros s pre Ht; cbn [finditer_go];
    [constructor|].
  destruct (search_go fl r s (length pre)) as [m|] eqn:E; [|constructor].
  destruct (search_go_sound r Hok s pre m Ht E) as [Hle Hs].
  pose proof Hs as (Hse & Hel & _ & _).
  assert (Hrest : skipn (m_end m - length pre) s = skipn (m_end m) text).
  { rewrite Ht, skipn_app.
    replace (skipn (m_end m) pre) with (@nil N) by (symmetry; apply skipn_all2; lia).
    reflexivity. }
  assert (Hsplit : text = firstn (m_end m) text ++ skipn (m_end m) text)
    by (now rewrite firstn_skipn).
  assert (Hlen : length (firstn (m_end m) text) = m_end m)
    by (rewrite length_firstn; lia).
  rewrite Hrest. destruct (m_start m <? m_end m)%nat.
  - constructor; [exact Hs|]. rewrite <- Hlen at 2. apply IH. exact Hsplit.
  - destruct (skipn (m_end m) text) as [|c rest'] eqn:Er; constructor; auto.
    replace (S (m_end m)) with (length (firstn (m_end m) text ++ [c]))
      by (rewrite length_app, Hlen; cbn; lia).
    apply IH. rewrite Hsplit at 1. now rewrite <- app_assoc.
Qed.

Lemma finditer_sound r :
  grp_ok fl Q r -> Forall (sound_match fl Q r text) (finditer fl r text).
Proof. intros Hok. apply (finditer_go_sound r Hok _ text []). reflexivity. Qed.
End Sound.

(** ** More on the chunker *)

Section ChunkerMore.
Import Py Re ReSpec PDFProcessor Spec Spec2.

Lemma length_lstrip_by p s : (length (lstrip_by p s) <= length s)%nat.
Proof.
  induction s as [|c s IH]; cbn; [lia|]. destruct (p c); cbn; lia.
Qed.

Lemma length_strip s : (length (strip s) <= length s)%nat.
Proof.
  unfold strip, strip_by, rstrip_by. rewrite length_rev.
  etransitivity; [apply length_lstrip_by|]. rewrite length_rev.
  apply length_lstrip_by.
Qed.

(** A slice with bounds that are not negative is no longer than their
    distance. *)
Lemma length_slice {A} (s : list A) i j :
  0 <= i -> 0 <= j -> Z.of_nat (length (slice s i j)) <= Z.max 0 (j - i).
Proof.
  intros Hi Hj. unfold slice, clamp_index, len.
  destruct (Z.ltb_spec i 0); [lia|]. destruct (Z.ltb_spec j 0); [lia|].
  rewrite length_firstn, length_skipn. lia.
Qed.

Lemma slice_all {A} (s : list A) j : len s <= j -> slice s 0 j = s.
Proof.
  intros Hj. unfold slice, clamp_index, len in *. cbn [Z.ltb Z.compare].
  destruct (Z.ltb_spec j 0); [lia|].
  rewrite (Z.min_l 0) by lia. rewrite (Z.min_r j) by lia.
  rewrite Z.sub_0_r, Nat2Z.id. cbn [Z.to_nat skipn]. apply firstn_all.
Qed.

Lemma boundary_patterns_ok :
  Forall (grp_ok no_flags any_group) boundary_patterns.
Proof. repeat constructor. Qed.

Lemma last_cons {A} (l : list A) (x d : A) : List.last (x :: l) d = List.last l x.
Proof.
  revert x d. induction l as [|y l IH]; intros x d; [reflexivity|].
  change (List.last (x :: y :: l) d) with (List.last (y :: l) d).
  now rewrite !IH.
Qed.

Lemma last_in {A} (l : list A) (d : A) : In (List.last l d) (d :: l).
Proof.
  revert d. induction l as [|x l IH]; intros d; [now left|].
  right. rewrite last_cons. apply IH.
Qed.

(** The boundary found ends inside the window. *)
Lemma last_boundary_end ps window m :
  Forall (grp_ok no_flags any_group) ps ->
  last_boundary ps window = Some m -> (m_end m <= length window)%nat.
Proof.
  induction 1 as [|p ps Hp _ IH]; [discriminate|]. cbn [last_boundary].
  pose proof (finditer_sound no_flags any_group window p Hp) as Hs.
  destruct (finditer no_flags p window) as [|m0 ms]; [exact IH|].
  intros [= <-]. rewrite List.Forall_forall in Hs.
  now destruct (Hs _ (last_in ms m0)) as (_ & ? & _).
Qed.

(** The cut falls at most 100 characters behind [start + chunk_size]. *)
Lemma chunk_end_upper_bound text size start :
  0 <= start -> 0 < size -> chunk_end text size start <= start + size + 100.
Proof.
  intros Hs Hz. unfold chunk_end.
  destruct (start + size <? len text); [|lia].
  destruct (last_boundary _ _) as [m|] eqn:E; [|lia].
  apply (last_boundary_end _ _ _ boundary_patterns_ok) in E.
  pose proof (length_slice text (Z.max start (start + size - 100)) (start + size + 100)).
  lia.
Qed.

(** Whatever holds at the start and is kept by every turn holds when the
    loop ends. *)
Lemma chunk_loop_invariant (P : Z -> list str -> Prop) text size overlap :
  (forall start chunks, P start chunks -> start < len text ->
     P (fst (chunk_step text size overlap start chunks))
       (snd (chunk_step text size overlap start chunks))) ->
  forall fuel start chunks result,
    P start chunks ->
    chunk_loop fuel text size overlap start chunks = Return result ->
    exists start', P start' result.
Proof.
  intros Hstep. induction fuel as [|fuel IH]; intros start chunks result HP.
  - rewrite chunk_loop_O. destruct (start <? len text); [discriminate|].
    intros [= <-]. eauto.
  - rewrite chunk_loop_S. destruct (Z.ltb_spec start (len text)).
    + apply IH. now apply Hstep.
    + intros [= <-]. eauto.
Qed.

(** More fuel does not change what a run returns. *)
Lemma chunk_loop_more_fuel text size overlap : forall fuel fuel' start chunks result,
  (fuel <= fuel')%nat ->
  chunk_loop fuel text size overlap start chunks = Return result ->
  chunk_loop fuel' text size overlap start chunks = Return result.
Proof.
  induction fuel as [|fuel IH]; intros fuel' start chunks result Hle.
  - rewrite chunk_loop_O. destruct (start <? len text) eqn:E; [discriminate|].
    intros [= <-]. destruct fuel'; cbn [chunk_loop]; now rewrite E.
  - destruct fuel' as [|fuel']; [lia|]. rewrite !chunk_loop_S.
    destruct (start <? len text); [|auto]. apply IH. lia.
Qed.

Lemma chunk_step_count text size overlap start chunks :
  (length (snd (chunk_step text size overlap start chunks)) <= S (length chunks))%nat.
Proof.
  unfold chunk_step. cbn [snd]. destruct (strip _); [lia|].
  rewrite length_app. cbn. lia.
Qed.

(** X1.  With more than 100 characters between size and overlap, as for
    the defaults 1000 and 200 the API uses, [chunk_text] returns, within
    [len(text)] turns of its loop whatever the text; every chunk is a
    trimmed slice of the text that is not empty. *)
Theorem chunk_text_returns_wide_gap text size overlap :
  100 < size - overlap ->
  exists result,
    (forall fuel, (length text <= fuel)%nat ->
       chunk_text fuel text size overlap = Return result) /\
    Forall (trimmed_nonempty text) result.
Proof.
  intros Hgap.
  destruct (chunk_text_terminates_wide_gap text size overlap Hgap) as (result & Hr & Ht).
  exists result. split; [|exact Ht].
  intros fuel Hf. unfold chunk_text in *. destruct text; [exact Hr|].
  eapply chunk_loop_more_fuel; eauto.
Qed.

Lemma chunk_text_returns_wide_gap_witness :
  exists result,
    (forall fuel, (length (lit "One. Two.") <= fuel)%nat ->
       chunk_text fuel (lit "One. Two.") 1000 200 = Return result) /\
    Forall (trimmed_nonempty (lit "One. Two.")) result.
Proof. apply (chunk_text_returns_wide_gap (lit "One. Two.") 1000 200). lia. Defined.

(** X2.  Under the same condition and an overlap that is not negative,
    no chunk is longer than [chunk_size + 100]: the boundary search may
    move the cut up to 100 characters past [chunk_size], which is thus
    not the maximum size its docstring announces. *)
Theorem chunk_text_chunk_length fuel text size overlap result :
  0 <= overlap -> 100 < size - overlap ->
  chunk_text fuel text size overlap = Return result ->
  Forall (fun chunk => len chunk <= size + 100) result.
Proof.
  intros Ho Hgap. unfold chunk_text. destruct text as [|c0 text0]; [intros [= <-]; constructor|].
  set (text := c0 :: text0). intros Hr.
  set (P := fun (start : Z) (chunks : list str) =>
              0 <= start /\ Forall (fun chunk => len chunk <= size + 100) chunks).
  assert (Hstep : forall start chunks, P start chunks -> start < len text ->
            P (fst (chunk_step text size overlap start chunks))
              (snd (chunk_step text size overlap start chunks))).
  { intros start chunks [Hs HF] Hlt. split.
    - rewrite chunk_step_cursor.
      pose proof (chunk_end_lower_bound text size start). lia.
    - unfold chunk_step. cbn [snd].
      destruct (strip (slice text start (chunk_end text size start))) eqn:E; [exact HF|].
      apply Forall_app. split; [exact HF|]. constructor; [|constructor].
      rewrite <- E. unfold len.
      pose proof (length_strip (slice text start (chunk_end text size start))).
      pose proof (chunk_end_upper_bound text size start Hs ltac:(lia)).
      pose proof (chunk_end_lower_bound text size start).
      pose proof (length_slice text start (chunk_end text size start) Hs ltac:(lia)).
      lia. }
  assert (Hinit : P 0 []) by (split; [lia | constructor]).
  destruct (chunk_loop_invariant P text size overlap Hstep fuel 0 [] result Hinit Hr)
    as (start' & _ & HF).
  exact HF.
Qed.

Lemma chunk_text_chunk_length_witness :
  Forall (fun chunk => len chunk <= 1000 + 100) [lit "One. Two."].
Proof.
  apply (chunk_text_chunk_length 9 (lit "One. Two.") 1000 200); [lia | lia |].
  vm_compute. reflexivity.
Defined.

(** X3.  Under the same condition the number of chunks is bounded by the
    length of the text over the least gain of a turn,
    [chunk_size - chunk_overlap - 100]: with [n] chunks,
    [(n - 1) * gain < len(text)]. *)
Theorem chunk_text_chunk_count fuel text size overlap result :
  100 < size - overlap ->
  chunk_text fuel text size overlap = Return result ->
  result = [] \/ (len result - 1) * (size - overlap - 100) < len text.
Proof.
  intros Hgap. unfold chunk_text. destruct text as [|c0 text0]; [intros [= <-]; now left|].
  set (text := c0 :: text0). intros Hr.
  set (P := fun (start : Z) (chunks : list str) =>
              len chunks * (size - overlap - 100) <= start /\
              (chunks = [] \/ (len chunks - 1) * (size - overlap - 100) < len text)).
  assert (Hstep : forall start chunks, P start chunks -> start < len text ->
            P (fst (chunk_step text size overlap start chunks))
              (snd (chunk_step text size overlap start chunks))).
  { intros start chunks [Hc _] Hlt.
    pose proof (chunk_step_count text size overlap start chunks) as Hn.
    rewrite chunk_step_cursor.
    pose proof (chunk_end_lower_bound text size start).
    set (chunks' := snd (chunk_step text size overlap start chunks)) in *.
    unfold P, len in *.
    assert (Hmul : Z.of_nat (length chunks') * (size - overlap - 100) <=
                   (Z.of_nat (length chunks) + 1) * (size - overlap - 100))
      by (apply Z.mul_le_mono_nonneg_r; lia).
    assert (Hmul' : (Z.of_nat (length chunks') - 1) * (size - overlap - 100) <=
                    Z.of_nat (length chunks) * (size - overlap - 100))
      by (apply Z.mul_le_mono_nonneg_r; lia).
    split; [lia|]. right. lia. }
  assert (Hinit : P 0 []) by (split; [unfold len; cbn [length]; lia | now left]).
  destruct (chunk_loop_invariant P text size overlap Hstep fuel 0 [] result Hinit Hr)
    as (start' & _ & HF).
  exact HF.
Qed.

Lemma chunk_text_chunk_count_witness :
  [lit "One. Two."] = [] \/
  (len [lit "One. Two."] - 1) * (1000 - 200 - 100) < len (lit "One. Two.").
Proof.
  apply (chunk_text_chunk_count 9 (lit "One. Two.") 1000 200); [lia|].
  vm_compute. reflexivity.
Defined.

(** X4.  A text no longer than the size and than the gain of a turn
    ([chunk_size - chunk_overlap]) gives one chunk, the trimmed text, or
    none when the text is blank. *)
Theorem chunk_text_short_text fuel text size overlap :
  len text <= size -> len text <= size - overlap ->
  chunk_text (S fuel) text size overlap =
  Return (match strip text with [] => [] | chunk => [chunk] end).
Proof.
  intros Hsz Hgap. unfold chunk_text. destruct text as [|c0 text0]; [reflexivity|].
  set (text := c0 :: text0) in *.
  assert (Hpos : 0 < len text) by (unfold len, text; cbn; lia).
  rewrite chunk_loop_S. destruct (Z.ltb_spec 0 (len text)); [|lia].
  assert (He : chunk_end text size 0 = size).
  { unfold chunk_end. destruct (Z.ltb_spec (0 + size) (len text)); lia. }
  unfold chunk_step. rewrite He. cbn [fst snd].
  rewrite slice_all by lia.
  assert (Hdone : forall chunks,
            chunk_loop fuel text size overlap (size - overlap) chunks = Return chunks).
  { intros chunks. destruct fuel; cbn [chunk_loop];
      destruct (Z.ltb_spec (size - overlap) (len text)); try lia; reflexivity. }
  rewrite Hdone. now destruct (strip text).
Qed.

Lemma chunk_text_short_text_witness :
  chunk_text 1 (lit "  One. Two. ") 1000 200 = Return [lit "One. Two."].
Proof.
  apply (chunk_text_short_text 0 (lit "  One. Two. ") 1000 200); vm_compute; discriminate.
Defined.

End ChunkerMore.

(** ** More on the retriever *)

Section RetrieverMore.
Import Py RAGEngine Spec.

Lemma slice_to_split {A} (l : list A) k :
  exists n, slice_to l k = firstn n l /\ l = firstn n l ++ skipn n l.
Proof.
  exists (Z.to_nat (clamp_index (len l) k)).
  split; [apply slice_to_firstn | now rewrite firstn_skipn].
Qed.

(** X5.  For a [top_k] that is not negative the number of records
    returned is the smaller of [top_k] and the number of chunks that
    share a token with the query: nothing that qualifies is dropped
    while there is room. *)
Theorem semantic_search_count query chunks top_k :
  Forall text_is_str chunks -> 0 <= top_k ->
  exists result,
    semantic_search query chunks top_k = Return result /\
    len result =
    Z.min top_k (len (List.filter (fun chunk => 0 <? chunk_score query chunk) chunks)).
Proof.
  intros H Hk. eexists. split; [apply (semantic_search_eq _ _ _ H)|].
  rewrite len_slice_to by exact Hk. f_equal. unfold len. f_equal.
  rewrite (Permutation_length (sort_desc_perm relevance _)).
  unfold qualifying. apply length_map.
Qed.

Lemma semantic_search_count_witness :
  exists result,
    semantic_search (lit "payment") [doc 1 "the payment"; doc 2 "nothing here"] 5
      = Return result /\
    len result =
    Z.min 5 (len (List.filter (fun chunk => 0 <? chunk_score (lit "payment") chunk)
                              [doc 1 "the payment"; doc 2 "nothing here"])).
Proof.
  apply (semantic_search_count (lit "payment")
           [doc 1 "the payment"; doc 2 "nothing here"] 5); [|lia].
  repeat (apply List.Forall_cons; [vm_compute; exact I|]). apply List.Forall_nil.
Defined.

(** X6.  What is returned is the top of the ranking: the records returned
    and the qualifying records left out make up all qualifying records,
    and no record left out has a higher score than a record returned. *)
Theorem semantic_search_top query chunks top_k :
  Forall text_is_str chunks ->
  exists result rest,
    semantic_search query chunks top_k = Return result /\
    Permutation (result ++ rest) (qualifying query chunks) /\
    (forall r x, In r result -> In x rest -> relevance x <= relevance r).
Proof.
  intros H.
  destruct (slice_to_split (sort_desc relevance (qualifying query chunks)) top_k)
    as (n & Hs & Hsplit).
  exists (firstn n (sort_desc relevance (qualifying query chunks))),
         (skipn n (sort_desc relevance (qualifying query chunks))).
  split; [rewrite <- Hs; apply (semantic_search_eq _ _ _ H)|].
  split; [rewrite <- Hsplit; apply sort_desc_perm|].
  intros r x Hr Hx.
  pose proof (sort_desc_sorted relevance (qualifying query chunks)) as Hsorted.
  rewrite Hsplit in Hsorted.
  apply (StronglySorted_app_1_elem_of _ _ _ r x Hsorted); now apply list_elem_of_In.
Qed.

Lemma semantic_search_top_witness :
  exists result rest,
    semantic_search (lit "payment terms")
      [doc 1 "the payment"; doc 2 "payment terms"] 1 = Return result /\
    Permutation (result ++ rest)
      (qualifying (lit "payment terms") [doc 1 "the payment"; doc 2 "payment terms"]) /\
    (forall r x, In r result -> In x rest -> relevance x <= relevance r).
Proof.
  apply (semantic_search_top (lit "payment terms")
           [doc 1 "the payment"; doc 2 "payment terms"] 1).
  repeat (apply List.Forall_cons; [vm_compute; exact I|]). apply List.Forall_nil.
Defined.

(** Tokens of [split] are not empty. *)
Lemma split_ws_go_nonempty s : forall cur w,
  In w (split_ws_go cur s) -> w <> [].
Proof.
  induction s as [|c s IH]; intros cur w; cbn [split_ws_go].
  - destruct cur as [|x cur]; [intros []|].
    intros [<-|[]]. intros E. apply (f_equal (@length N)) in E.
    rewrite length_rev in E. discriminate.
  - destruct (py_isspace c).
    + destruct cur as [|x cur]; [apply IH|].
      intros [<-|Hin]; [|eapply IH, Hin].
      intros E. apply (f_equal (@length N)) in E. rewrite length_rev in E. discriminate.
    + apply IH.
Qed.

Lemma contains_nil w : contains w [] = true -> w = [].
Proof. destruct w; [reflexivity | discriminate]. Qed.

(** No token occurs in the empty text. *)
Lemma occurring_nil query : occurring query [] = [].
Proof.
  unfold occurring.
  assert (Hnil : List.filter (fun word => contains word []) (split (lower query)) = []).
  { destruct (List.filter _ _) as [|w ws] eqn:Ew; [reflexivity|].
    assert (Hw : In w (List.filter (fun word => contains word []) (split (lower query))))
      by (rewrite Ew; now left).
    apply filter_In in Hw as [Hw Hc]. apply contains_nil in Hc.
    destruct (split_ws_go_nonempty _ _ _ Hw Hc). }
  now rewrite Hnil.
Qed.

Lemma length_remove_dups_filter (f : str -> bool) (l : list str) :
  (length (remove_dups (List.filter f l)) <= length (remove_dups l))%nat.
Proof.
  apply submseteq_length, NoDup_submseteq; [apply NoDup_remove_dups|].
  intros x. rewrite !elem_of_remove_dups, !list_elem_of_In, filter_In. tauto.
Qed.

Lemma semantic_search_result_records query chunks top_k result :
  semantic_search query chunks top_k = Return result ->
  Forall (fun r =>
            (exists s, r !! "text_content" = Some (VStr s) /\ s <> []) /\
            1 <= relevance r <= len (remove_dups (split (lower query)))) result.
Proof.
  intros Hr. unfold semantic_search in Hr.
  destruct (score_chunks (query_words query) chunks) as [scored| |] eqn:Es;
    try discriminate.
  cbn [bind] in Hr. injection Hr as <-.
  apply score_chunks_qualifying in Es. subst scored.
  apply List.Forall_forall. intros r Hin.
  rewrite slice_to_firstn in Hin. apply firstn_In in Hin.
  apply (Permutation_in _ (sort_desc_perm relevance _)) in Hin.
  apply qualifying_In in Hin as (chunk & _ & -> & Hpos).
  rewrite relevance_annotated. unfold chunk_score, dict_get_default in *.
  destruct (chunk !! "text_content") as [[| | |s]|] eqn:Et; try lia.
  - split.
    + exists s. unfold annotated. rewrite lookup_insert_ne by discriminate.
      split; [exact Et|]. intros ->.
      change (lower []) with (@nil N) in Hpos. rewrite occurring_nil in Hpos.
      unfold len in Hpos. cbn in Hpos. lia.
    + split; [lia|]. unfold occurring, len.
      apply inj_le, length_remove_dups_filter.
  - change (lower []) with (@nil N) in Hpos. rewrite occurring_nil in Hpos.
    unfold len in Hpos. cbn in Hpos. lia.
Qed.


(** X7.  Every record returned holds a [text_content] that is a string
    and is not empty, and a score of at least 1 and at most the number of
    distinct tokens of the query: reading [chunk['text_content']] of a
    returned record, as the citation loop of the API does, cannot fail. *)
Theorem semantic_search_records query chunks top_k result :
  semantic_search query chunks top_k = Return result ->
  Forall (fun r =>
            (exists s, r !! "text_content" = Some (VStr s) /\ s <> []) /\
            1 <= relevance r <= len (remove_dups (split (lower query)))) result.
Proof. apply semantic_search_result_records. Qed.

Lemma semantic_search_records_witness :
  Forall (fun r =>
            (exists s, r !! "text_content" = Some (VStr s) /\ s <> []) /\
            1 <= relevance r <= len (remove_dups (split (lower (lit "payment")))))
         [annotated (lit "payment") (doc 1 "the payment")].
Proof.
  apply (semantic_search_records (lit "payment") [doc 1 "the payment"] 5).
  rewrite semantic_search_eq
    by (repeat (apply List.Forall_cons; [vm_compute; exact I|]); apply List.Forall_nil).
  unfold qualifying. cbn [List.filter].
  replace (0 <? chunk_score (lit "payment") (doc 1 "the payment")) with true
    by (vm_compute; reflexivity).
  reflexivity.
Defined.

Lemma split_ws_go_blank s :
  forallb py_isspace s = true -> split_ws_go [] s = [].
Proof.
  induction s as [|c s IH]; [reflexivity|]. cbn.
  intros [Hc Hs]%andb_true_iff. rewrite Hc. auto.
Qed.

Lemma lower_char_blank c : py_isspace c = true -> lower_char c = c.
Proof.
  intros Hc. unfold lower_char. destruct (in_range 65 90 c) eqn:E; [|reflexivity].
  exfalso. unfold in_range in E. apply andb_true_iff in E as [E1 E2].
  apply N.leb_le in E1, E2. unfold py_isspace, in_range in Hc.
  repeat (apply orb_true_iff in Hc as [Hc|Hc]);
    repeat match goal with
    | H : (_ && _) = true |- _ => apply andb_true_iff in H as [? ?]
    | H : (_ <=? _)%N = true |- _ => apply N.leb_le in H
    | H : (_ =? _)%N = true |- _ => apply N.eqb_eq in H
    end; lia.
Qed.

Lemma lower_blank s : forallb py_isspace s = true -> lower s = s.
Proof.
  induction s as [|c s IH]; [reflexivity|]. cbn [forallb].
  intros [Hc Hs]%andb_true_iff.
  change (lower (c :: s)) with (lower_char c :: lower s).
  now rewrite (lower_char_blank _ Hc), (IH Hs).
Qed.

(** X8.  A query without a token (empty, or blanks only) finds nothing:
    for chunk records whose [text_content] is a string or absent the
    result is the empty list, whatever their number and [top_k].  (A
    record with another [text_content] makes the call raise also for
    such a query: the text is lower-cased before the tokens are
    looked up.) *)
Theorem semantic_search_blank_query query chunks top_k :
  forallb py_isspace query = true -> Forall text_is_str chunks ->
  semantic_search query chunks top_k = Return [].
Proof.
  intros Hq H. rewrite (semantic_search_eq _ _ _ H).
  assert (Hnil : qualifying query chunks = []).
  { unfold qualifying.
    assert (Hz : forall chunk, chunk_score query chunk = 0).
    { intros chunk. unfold chunk_score, occurring, split.
      rewrite (lower_blank _ Hq), (split_ws_go_blank _ Hq).
      now destruct (dict_get_default _ _ _). }
    induction chunks as [|c cs IH]; [reflexivity|]. cbn [List.filter].
    rewrite Hz. cbn. apply IH. now inversion H. }
  rewrite Hnil. cbn [sort_desc fold_right]. rewrite slice_to_firstn.
  now rewrite firstn_nil.
Qed.

Lemma semantic_search_blank_query_witness :
  semantic_search (lit "   ") [doc 1 "the payment"] 5 = Return [].
Proof.
  apply semantic_search_blank_query; [reflexivity|].
  repeat (apply List.Forall_cons; [vm_compute; exact I|]). apply List.Forall_nil.
Defined.

(** X9.  A chunk record whose [text_content] is present and is not a
    string ([None], a number) makes the call raise [AttributeError],
    whatever the other records are. *)
Theorem semantic_search_not_a_string query chunks top_k :
  Exists (fun chunk => ~ text_is_str chunk) chunks ->
  semantic_search query chunks top_k = Raise AttributeError.
Proof.
  intros H. unfold semantic_search.
  assert (Hs : score_chunks (query_words query) chunks = Raise AttributeError).
  { induction chunks as [|chunk chunks IH]; [inversion H|].
    cbn [score_chunks]. unfold chunk_text_lower, dict_get_default.
    destruct (chunk !! "text_content") as [[| | |s]|] eqn:Et; try reflexivity.
    - cbn [bind]. rewrite IH; [reflexivity|].
      inversion H as [? ? Hn|? ? Hn]; subst; [|exact Hn].
      exfalso. apply Hn. unfold text_is_str. now rewrite Et.
    - cbn [bind]. rewrite IH; [reflexivity|].
      inversion H as [? ? Hn|? ? Hn]; subst; [|exact Hn].
      exfalso. apply Hn. unfold text_is_str. now rewrite Et. }
  now rewrite Hs.
Qed.

Lemma semantic_search_not_a_string_witness :
  semantic_search (lit "payment")
    [doc 1 "the payment"; <["text_content" := VNone]> (doc 2 "x")] 5
  = Raise AttributeError.
Proof.
  apply semantic_search_not_a_string.
  apply Exists_cons_tl, Exists_cons_hd. vm_compute. auto.
Defined.

End RetrieverMore.

(** ** More on the risk score and the audit *)

Section AuditorMore.
Import Py Re ReSpec RiskAuditEngine Spec Spec2.

Lemma grp_ok_any fl r : grp_ok fl any_group r.
Proof. induction r; cbn; unfold any_group; auto. Qed.

Lemma severity_weight_only f v :
  f !! "severity" = Some v -> severity_weight (severity_only f) = severity_weight f.
Proof.
  intros H. unfold severity_weight, severity_only, dict_get_default, dict_get.
  now rewrite lookup_singleton_eq, H.
Qed.

Lemma rule_findings_have (K : dict -> Prop) r text data :
  (forall m, K (pattern_finding r text m)) ->
  (forall result, K (check_finding r result)) ->
  Forall K (rule_findings r text data).
Proof.
  intros Hp Hc. unfold rule_findings. apply Forall_app. split.
  - unfold pattern_findings. apply List.Forall_forall. intros f Hin.
    apply in_flat_map in Hin as (p & _ & Hin).
    destruct (finditer I_flag p text) as [|m ms]; [contradiction|].
    destruct Hin as [<-|[]]. apply Hp.
  - unfold check_findings.
    destruct (check_func r) as [fname|]; [|constructor].
    destruct (check_method fname) as [check|]; [|constructor].
    destruct (check text data) as [result|]; [|constructor].
    destruct (dict_truthy result); constructor; [apply Hc | constructor].
Qed.

Lemma audit_findings_have (K : dict -> Prop) self text data :
  (forall r, In r (rules self) -> Forall K (rule_findings r text data)) ->
  Forall K (fst (audit self text data)).
Proof.
  intros H. unfold audit, audit_document. cbn [snd fst].
  induction (rules self) as [|r rs IH]; [constructor|].
  cbn [flat_map]. apply Forall_app. split.
  - apply H. now left.
  - apply IH. intros r' Hr'. apply H. now right.
Qed.

(** X10.  The score the audit returns is the score recomputed from the
    severities of its findings alone, which is what the audit endpoint
    does when it serves stored findings: a cached response carries the
    score of the first one. *)
Theorem risk_score_from_stored_severities self text data :
  calculate_risk_score (map severity_only (fst (audit self text data))) =
  snd (audit self text data).
Proof.
  assert (Hsev : Forall (fun f => severity_weight (severity_only f) = severity_weight f)
                        (fst (audit self text data))).
  { apply audit_findings_have. intros r _. apply rule_findings_have.
    - intros m. eapply severity_weight_only. unfold pattern_finding.
      rewrite lookup_insert_ne by discriminate. apply lookup_insert_eq.
    - intros result. eapply severity_weight_only. unfold check_finding.
      rewrite lookup_insert_ne by discriminate. apply lookup_insert_eq. }
  unfold audit, audit_document in *. cbn [snd fst] in *.
  rewrite !calculate_risk_score_eq. f_equal. unfold total_weight. f_equal.
  rewrite map_map. induction Hsev as [|f fs Hf _ IH]; [reflexivity|].
  cbn [map]. now rewrite Hf, IH.
Qed.

(** X11.  The score is 0 exactly for the empty list of findings; one
    more finding never lowers it; every finding counts at least 5, so a
    list of [n] findings scores at least [min(5 n, 100)], and 20 findings
    of any kind score 100. *)
Theorem calculate_risk_score_grows :
  (forall findings, calculate_risk_score findings = 0 <-> findings = []) /\
  (forall f findings,
     calculate_risk_score findings <= calculate_risk_score (f :: findings)) /\
  (forall findings,
     Z.min (5 * len findings) 100 <= calculate_risk_score findings).
Proof.
  assert (Hlow : forall findings, 5 * len findings <= total_weight findings).
  { induction findings as [|f fs IH]; unfold total_weight, len in *;
      cbn [length map fold_right]; [lia|].
    pose proof (severity_weight_pos f). rewrite Nat2Z.inj_succ. lia. }
  split; [|split].
  - intros findings. rewrite calculate_risk_score_eq. split.
    + intros H. destruct findings as [|f fs]; [reflexivity|].
      pose proof (Hlow (f :: fs)) as Hl. unfold len in Hl. cbn [length] in Hl.
      rewrite Nat2Z.inj_succ in Hl. lia.
    + intros ->. reflexivity.
  - intros f findings. rewrite !calculate_risk_score_eq.
    pose proof (severity_weight_pos f). unfold total_weight.
    cbn [map fold_right]. lia.
  - intros findings. rewrite calculate_risk_score_eq.
    pose proof (Hlow findings). lia.
Qed.

Lemma dom_six (a b c d e f : pyval) :
  dom (<["finding_type" := a]> (<["severity" := b]> (<["description" := c]>
       (<["evidence" := d]> (<["char_start" := e]>
       (<["char_end" := f]> (∅ : dict)))))))
  = finding_keys.
Proof. rewrite !dom_insert_L, dom_empty_L. unfold finding_keys. set_solver. Qed.

(** X12.  Whatever the rule table of the engine, every finding of an
    audit has the six keys [finding_type], [severity], [description],
    [evidence], [char_start] and [char_end] and no other, and carries the
    id, the severity and the name of a rule of the table. *)
Theorem audit_findings_shape self text data :
  Forall (fun f => dom f = finding_keys /\ of_rule (rules self) f)
         (fst (audit self text data)).
Proof.
  apply audit_findings_have. intros r Hr. apply rule_findings_have.
  - intros m. split; [apply dom_six|]. exists r. split; [exact Hr|].
    unfold pattern_finding. split; [apply lookup_insert_eq|]. split.
    + rewrite lookup_insert_ne by discriminate. apply lookup_insert_eq.
    + do 2 (rewrite lookup_insert_ne by discriminate). apply lookup_insert_eq.
  - intros result. split; [apply dom_six|]. exists r. split; [exact Hr|].
    unfold check_finding. split; [apply lookup_insert_eq|]. split.
    + rewrite lookup_insert_ne by discriminate. apply lookup_insert_eq.
    + do 2 (rewrite lookup_insert_ne by discriminate). apply lookup_insert_eq.
Qed.

Lemma span_ok_anchored text (f : dict) a b :
  0 <= a <= b -> b <= len text ->
  f !! "char_start" = Some (dict_get (anchored text a b) "char_start") ->
  f !! "char_end" = Some (dict_get (anchored text a b) "char_end") ->
  span_ok text f.
Proof.
  intros Hab Hb Hs He. right. exists a, b. unfold anchored, dict_get in *.
  rewrite lookup_insert_ne, lookup_insert_eq in Hs by discriminate.
  do 2 (rewrite lookup_insert_ne in He by discriminate).
  rewrite lookup_insert_eq in He. auto.
Qed.

Lemma span_ok_evidence_only text (f : dict) (v : pyval) :
  f !! "char_start" = Some (dict_get ({[ "evidence"%string := v ]} : dict) "char_start") ->
  f !! "char_end" = Some (dict_get ({[ "evidence"%string := v ]} : dict) "char_end") ->
  span_ok text f.
Proof.
  intros Hs He. left. unfold dict_get in *.
  rewrite lookup_singleton_ne in Hs, He by discriminate. auto.
Qed.

Lemma check_finding_span r result :
  check_finding r result !! "char_start" = Some (dict_get result "char_start") /\
  check_finding r result !! "char_end" = Some (dict_get result "char_end").
Proof.
  unfold check_finding. split.
  - do 4 (rewrite lookup_insert_ne by discriminate). apply lookup_insert_eq.
  - do 5 (rewrite lookup_insert_ne by discriminate). apply lookup_insert_eq.
Qed.

Lemma first_short_notice_span r text : forall ms result,
  Forall (sound_match I_flag any_group termination_notice_phrase text) ms ->
  first_short_notice text ms = Some result ->
  span_ok text (check_finding r result).
Proof.
  induction ms as [|m ms IH]; intros result Hs; [discriminate|].
  inversion Hs as [|? ? (Hse & Hel & _) Hs']; subst. cbn [first_short_notice].
  destruct (group_days text m) as [days|]; [|now apply IH].
  destruct (days <? 30); [|now apply IH].
  intros [= <-]. destruct (check_finding_span r
    (anchored text (Z.of_nat (m_start m))
       (Z.min (len text) (Z.of_nat (m_end m) + 100)))) as [H1 H2].
  eapply span_ok_anchored; [| |exact H1|exact H2]; unfold len; lia.
Qed.

Lemma check_result_span r fname check text data result :
  check_method fname = Some check ->
  check text data = Some result ->
  span_ok text (check_finding r result).
Proof.
  unfold check_method. intros Hm Hc.
  destruct (check_finding_span r result) as [H1 H2].
  repeat match type of Hm with
  | (if ?b then _ else _) = _ => destruct b
  end; try discriminate; injection Hm as <-.
  - unfold check_termination_clause in Hc.
    destruct (search I_flag _ text); [destruct (lacks _ _)|];
      try discriminate; injection Hc as <-; eapply span_ok_evidence_only; eauto.
  - unfold check_auto_renewal in Hc.
    destruct (search I_flag renewal_phrase text) as [am|] eqn:Ea; [|discriminate].
    pose proof (search_sound I_flag any_group text _ am (grp_ok_any _ _) Ea)
      as (Hse & Hel & _).
    cbv zeta in Hc.
    assert (Hspan : forall res,
              res = anchored text (Z.of_nat (m_start am))
                      (Z.min (len text) (Z.of_nat (m_start am) + 200)) ->
              result = res -> span_ok text (check_finding r result)).
    { intros res -> ->. destruct (check_finding_span r
        (anchored text (Z.of_nat (m_start am))
           (Z.min (len text) (Z.of_nat (m_start am) + 200)))) as [H1' H2'].
      eapply span_ok_anchored; [| |exact H1'|exact H2']; unfold len; lia. }
    destruct (search I_flag notice_phrase _) as [nm|].
    + destruct (group_days _ nm) as [days|]; [|discriminate].
      destruct (days <? 30); [|discriminate].
      injection Hc as Hc. eapply Hspan; eauto.
    + injection Hc as Hc. eapply Hspan; eauto.
  - unfold check_governing_law in Hc.
    destruct (search I_flag _ text); [destruct (lacks _ _)|];
      try discriminate; injection Hc as <-; eapply span_ok_evidence_only; eauto.
  - unfold check_termination_notice in Hc.
    eapply first_short_notice_span; [|exact Hc].
    apply finditer_sound, grp_ok_any.
Qed.

(** X13.  Whatever the rule table, every finding of an audit either has
    no span ([char_start] and [char_end] are [None]) or has integers with
    [0 <= char_start <= char_end <= len(text)]: a span never points
    outside the audited text. *)
Theorem audit_findings_span self text data :
  Forall (span_ok text) (fst (audit self text data)).
Proof.
  apply audit_findings_have. intros r _. unfold rule_findings.
  apply Forall_app. split.
  - unfold pattern_findings. apply List.Forall_forall. intros f Hin.
    apply in_flat_map in Hin as (p & _ & Hin).
    pose proof (finditer_sound I_flag any_group text p (grp_ok_any _ _)) as Hs.
    destruct (finditer I_flag p text) as [|m ms]; [contradiction|].
    destruct Hin as [<-|[]]. inversion Hs as [|? ? (Hse & Hel & _) _]; subst.
    right. exists (Z.of_nat (m_start m)), (Z.of_nat (m_end m)).
    unfold pattern_finding, nat_val.
    split; [do 4 (rewrite lookup_insert_ne by discriminate); apply lookup_insert_eq|].
    split; [do 5 (rewrite lookup_insert_ne by discriminate); apply lookup_insert_eq|].
    unfold len. lia.
  - unfold check_findings.
    destruct (check_func r) as [fname|]; [|constructor].
    destruct (check_method fname) as [check|] eqn:Em; [|constructor].
    destruct (check text data) as [result|] eqn:Ec; [|constructor].
    destruct (dict_truthy result); constructor; [|constructor].
    eapply check_result_span; eauto.
Qed.

Lemma length_rule_findings r text data :
  (length (rule_findings r text data) <=
   length (patterns r) + match check_func r with Some _ => 1 | None => 0 end)%nat.
Proof.
  unfold rule_findings. rewrite length_app.
  pose proof (pattern_findings_bound r text).
  assert (length (check_findings r text data) <=
          match check_func r with Some _ => 1 | None => 0 end)%nat.
  { unfold check_findings. destruct (check_func r); [|cbn; lia].
    destruct (check_method _); [|cbn; lia].
    destruct (_ text data); [|cbn; lia].
    destruct (dict_truthy _); cbn; lia. }
  lia.
Qed.

(** X14.  With the rule table of the source an audit has at most 15
    findings: one for each of the 11 patterns and one for each of the 4
    custom checks. *)
Theorem audit_findings_at_most_15 model text data :
  len (fst (audit (init model) text data)) <= 15.
Proof.
  unfold audit, audit_document, init, len. cbn [snd fst rules RISK_RULES flat_map].
  rewrite !length_app.
  pose proof (length_rule_findings MISSING_TERMINATION text data).
  pose proof (length_rule_findings UNLIMITED_LIABILITY text data).
  pose proof (length_rule_findings AUTO_RENEWAL text data).
  pose proof (length_rule_findings MISSING_GOVERNING_LAW text data).
  pose proof (length_rule_findings UNILATERAL_MODIFICATION text data).
  pose proof (length_rule_findings SHORT_NOTICE_TERMINATION text data).
  pose proof (length_rule_findings BROAD_INDEMNITY text data).
  pose proof (length_rule_findings NO_WARRANTY text data).
  cbn [patterns check_func MISSING_TERMINATION UNLIMITED_LIABILITY AUTO_RENEWAL
       MISSING_GOVERNING_LAW UNILATERAL_MODIFICATION SHORT_NOTICE_TERMINATION
       BROAD_INDEMNITY NO_WARRANTY length] in *.
  lia.
Qed.







End AuditorMore.

(** ** More on the field extractor *)

Section ExtractorMore.
Import Py Re ReSpec ContractExtractor Spec Spec2.

Lemma clean_party_shape m party :
  In party (clean_party m) -> 3 < len party /\ strip_char 46 party = party.
Proof.
  unfold clean_party. cbv zeta.
  set (p := strip_char 46 (strip_char 44 (strip m))).
  assert (Hidem : strip_char 46 p = p) by apply strip_by_idem.
  destruct p as [|c p'] eqn:Ep; [intros []|].
  destruct (Z.ltb_spec 3 (len (c :: p'))); [|intros []].
  intros [<-|[]]. auto.
Qed.

Lemma NoDup_firstn {A} n (l : list A) : List.NoDup l -> List.NoDup (firstn n l).
Proof.
  intros H. rewrite <- (firstn_skipn n l) in H. now apply NoDup_app_remove_r in H.
Qed.

(** X17.  [extract_parties] returns at most five parties; each is longer
    than three characters and has no full stop at either end; and they
    are distinct.  This holds for any order in which the set of parties
    is listed. *)
Theorem extract_parties_shape (set_order : list str -> list str) text :
  (forall l x, In x (set_order l) -> In x l) ->
  (forall l, List.NoDup (set_order l)) ->
  len (extract_parties set_order text) <= 5 /\
  List.NoDup (extract_parties set_order text) /\
  Forall (fun party => 3 < len party /\ strip_char 46 party = party)
         (extract_parties set_order text).
Proof.
  intros Hsub Hnd. unfold extract_parties. cbv zeta.
  set (parties := flat_map _ party_patterns).
  split; [rewrite len_slice_to by lia; lia|].
  rewrite slice_to_firstn. split; [apply NoDup_firstn, Hnd|].
  apply List.Forall_forall. intros party Hin.
  apply firstn_In, Hsub in Hin. unfold parties in Hin.
  apply in_flat_map in Hin as (p & _ & Hin).
  apply in_flat_map in Hin as (m & _ & Hin).
  eapply clean_party_shape, Hin.
Qed.

Lemma remove_dups_sub (l : list str) x : In x (remove_dups l) -> In x l.
Proof. rewrite <- !list_elem_of_In. apply elem_of_remove_dups. Qed.

Lemma remove_dups_NoDup (l : list str) : List.NoDup (remove_dups l).
Proof. apply NoDup_ListNoDup, NoDup_remove_dups. Qed.

Lemma extract_parties_shape_witness :
  len (extract_parties (fun l => remove_dups l)
         (lit "Agreement between Acme Corp and Beta LLC and others")) <= 5 /\
  List.NoDup (extract_parties (fun l => remove_dups l)
         (lit "Agreement between Acme Corp and Beta LLC and others")) /\
  Forall (fun party => 3 < len party /\ strip_char 46 party = party)
         (extract_parties (fun l => remove_dups l)
            (lit "Agreement between Acme Corp and Beta LLC and others")).
Proof.
  apply (extract_parties_shape (fun l => remove_dups l)).
  - intros l x. apply remove_dups_sub.
  - intros l. apply remove_dups_NoDup.
Defined.

Lemma int_of_digits_nonneg s : 0 <= int_of_digits s.
Proof.
  unfold int_of_digits.
  assert (H : forall acc, 0 <= acc ->
            0 <= fold_left (fun acc c => 10 * acc + digit_val c) s acc).
  { induction s as [|c s IH]; intros acc Ha; [exact Ha|]. cbn [fold_left].
    apply IH. unfold digit_val. lia. }
  apply H. lia.
Qed.

Lemma py_float_nonneg s a : py_float s = Some a -> (0 <= a)%Q.
Proof.
  unfold py_float. destruct (split_dot s) as [ip [fp|]].
  - destruct (_ && _); [|discriminate]. intros [= <-].
    unfold Qle. cbn [Qnum Qden].
    pose proof (int_of_digits_nonneg ip). pose proof (int_of_digits_nonneg fp).
    assert (0 < 10 ^ len fp) by (apply Z.pow_pos_nonneg; unfold len; lia).
    nia.
  - destruct (all_digits ip); [|discriminate]. intros [= <-].
    unfold Qle. cbn. pose proof (int_of_digits_nonneg ip). lia.
Qed.

Lemma normalize_currency_codes curr :
  normalize_currency curr = lit "USD" \/
  normalize_currency curr = lit "EUR" \/
  normalize_currency curr = lit "GBP".
Proof.
  unfold normalize_currency. destruct curr as [c|]; [|now left].
  destruct (_ || _); [now right; left|].
  destruct (_ || _); [now right; right | now left].
Qed.

Lemma cap_cascade_shape text : forall ps,
  forallb (sets 1) ps = true ->
  cap_cascade py_float ps text = Return ∅ \/
  exists a c,
    cap_cascade py_float ps text =
      Return (<["amount" := VFloat a]> (<["currency" := VStr c]> ∅)) /\
    (0 <= a)%Q /\ (c = lit "USD" \/ c = lit "EUR" \/ c = lit "GBP").
Proof.
  induction ps as [|p ps IH]; [now left|].
  cbn [forallb cap_cascade]. intros [Hp Hps]%andb_true_iff.
  destruct (search I_flag p text) as [m|] eqn:E; [|auto].
  destruct (search_group _ _ _ _ 1%nat E Hp) as [g ->].
  cbv zeta. destruct (py_float (remove_char 44 g)) as [a|] eqn:Ef; [|auto].
  right. exists a, (currency_of (group0 text m)).
  split; [reflexivity|]. split; [eapply py_float_nonneg, Ef|].
  apply normalize_currency_codes.
Qed.

(** X18.  For every text [extract_liability_cap] returns the empty
    record or a record with exactly an amount that is not negative and a
    currency that is one of USD, EUR and GBP. *)
Theorem extract_liability_cap_shape text :
  extract_liability_cap text = Return ∅ \/
  exists a c,
    extract_liability_cap text =
      Return (<["amount" := VFloat a]> (<["currency" := VStr c]> ∅)) /\
    (0 <= a)%Q /\ (c = lit "USD" \/ c = lit "EUR" \/ c = lit "GBP").
Proof. apply cap_cascade_shape. reflexivity. Qed.

(** What the pieces of the amount pattern consume. *)
Lemma matches_digit fl s rest :
  matches fl digit s rest -> exists c, s = [c] /\ is_digit c = true.
Proof. inversion 1; subst. eauto. Qed.

Lemma matches_punct fl x s rest :
  (x = 44 \/ x = 46)%N ->
  matches fl (Chr (CChar x)) s rest -> s = [x].
Proof.
  intros Hx. inversion 1 as [|? c ? Hc| | | | | | |]; subst. f_equal.
  cbn [cset_has] in Hc. apply orb_true_iff in Hc as [Hc|Hc];
    [now apply N.eqb_eq in Hc|].
  apply andb_true_iff in Hc as [_ Hc]. apply N.eqb_eq in Hc.
  unfold lower_char, in_range in Hc.
  destruct ((65 <=? c)%N && (c <=? 90)%N) eqn:E.
  - apply andb_true_iff in E as [E1 E2]. apply N.leb_le in E1, E2.
    destruct Hx as [-> | ->]; cbn in Hc; lia.
  - destruct Hx as [-> | ->]; cbn in Hc; congruence.
Qed.

Lemma matches_star_digits fl g s rest :
  matches fl (Star g digit) s rest -> forallb is_digit s = true.
Proof.
  remember (Star g digit) as r eqn:Er. intros H.
  induction H as [| | | | | | |? ? s1 s2 ? Ha _ Hs IH|]; try discriminate; [reflexivity|].
  injection Er as -> ->.
  apply matches_digit in Ha as (c & -> & Hc). cbn. rewrite Hc. now apply IH.
Qed.

Lemma remove_char_digits s :
  forallb is_digit s = true -> remove_char 44 s = s.
Proof.
  induction s as [|c s IH]; [reflexivity|]. cbn [forallb].
  intros [Hc Hs]%andb_true_iff. unfold remove_char in *. cbn [List.filter].
  assert (Hne : (c =? 44)%N = false).
  { apply N.eqb_neq. intros ->. discriminate. }
  rewrite Hne. cbn [negb]. now rewrite IH.
Qed.

Lemma remove_char_app c a b :
  remove_char c (a ++ b) = remove_char c a ++ remove_char c b.
Proof. apply List.filter_app. Qed.

Lemma matches_thousands fl g s rest :
  matches fl (Star g (Cat (ch ",") (times 3 digit))) s rest ->
  forallb is_digit (remove_char 44 s) = true.
Proof.
  remember (Star g (Cat (ch ",") (times 3 digit))) as r eqn:Er. intros H.
  induction H as [| | | | | | |? ? s1 s2 ? Ha _ Hs IH|]; try discriminate; [reflexivity|].
  injection Er as -> ->.
  inversion Ha as [| | |? ? c1 t1 ? Hc Ht| | | | |]; subst.
  apply (matches_punct _ 44%N) in Hc; [|now left]. subst c1.
  inversion Ht as [| | |? ? x1 t2 ? Hx1 Ht2| | | | |]; subst.
  inversion Ht2 as [| | |? ? x2 x3 ? Hx2 Hx3| | | | |]; subst.
  apply matches_digit in Hx1 as (d1 & -> & Hd1).
  apply matches_digit in Hx2 as (d2 & -> & Hd2).
  apply matches_digit in Hx3 as (d3 & -> & Hd3).
  rewrite remove_char_app, forallb_app, (IH eq_refl), andb_true_r.
  change ([44%N] ++ [d1] ++ [d2] ++ [d3]) with (44%N :: [d1; d2; d3]).
  change (remove_char 44 (44%N :: [d1; d2; d3])) with (remove_char 44 [d1; d2; d3]).
  assert (Hd : forallb is_digit [d1; d2; d3] = true) by (cbn; now rewrite Hd1, Hd2, Hd3).
  now rewrite (remove_char_digits _ Hd).
Qed.

Lemma matches_cents fl s rest :
  matches fl (opt (Cat (ch ".") (times 2 digit))) s rest ->
  s = [] \/ exists d1 d2, s = [46%N; d1; d2] /\ is_digit d1 = true /\ is_digit d2 = true.
Proof.
  inversion 1 as [| | | |? ? ? ? Ha|? ? ? ? Hb| | |]; subst.
  - right. inversion Ha as [| | |? ? c1 t1 ? Hc Ht| | | | |]; subst.
    apply (matches_punct _ 46%N) in Hc; [|now right]. subst c1.
    inversion Ht as [| | |? ? x1 x2 ? Hx1 Hx2| | | | |]; subst.
    apply matches_digit in Hx1 as (d1 & -> & Hd1).
    apply matches_digit in Hx2 as (d2 & -> & Hd2). eauto.
  - left. now inversion Hb.
Qed.

Lemma split_dot_digits d t :
  forallb is_digit d = true ->
  split_dot (d ++ t) = (d ++ fst (split_dot t), snd (split_dot t)).
Proof.
  induction d as [|c d IH]; cbn [forallb app].
  - intros _. now destruct (split_dot t).
  - intros [Hc Hd]%andb_true_iff. cbn [split_dot].
    assert (Hne : (c =? 46)%N = false).
    { apply N.eqb_neq. intros ->. discriminate. }
    rewrite Hne, (IH Hd). reflexivity.
Qed.

(** The amount pattern captures only numerals that [float] reads. *)
Lemma amount_parses s rest :
  matches I_flag
    (seq [plus digit; star (Cat (ch ",") (times 3 digit));
          opt (Cat (ch ".") (times 2 digit))]) s rest ->
  py_float (remove_char 44 s) <> None.
Proof.
  inversion 1 as [| | |? ? s1 s23 ? H1 H23| | | | |]; subst.
  inversion H23 as [| | |? ? s2 s3 ? H2 H3| | | | |]; subst.
  inversion H1 as [| | |? ? x xs ? Hx Hxs| | | | |]; subst.
  apply matches_digit in Hx as (d & -> & Hd).
  apply matches_star_digits in Hxs. apply matches_thousands in H2.
  apply matches_cents in H3.
  rewrite !remove_char_app.
  rewrite (remove_char_digits [d]) by (cbn; now rewrite Hd).
  rewrite (remove_char_digits xs) by exact Hxs.
  set (D := [d] ++ xs ++ remove_char 44 s2).
  assert (HD : forallb is_digit D = true).
  { unfold D. rewrite !forallb_app, Hxs, H2. cbn. now rewrite Hd. }
  assert (Hall : all_digits D = true).
  { unfold all_digits, D. cbn [app]. exact HD. }
  replace (([d] ++ xs) ++ remove_char 44 s2 ++ remove_char 44 s3)
    with (D ++ remove_char 44 s3) by (unfold D; now rewrite <- !app_assoc).
  unfold py_float. rewrite (split_dot_digits D _ HD).
  destruct H3 as [-> | (d1 & d2 & -> & Hd1 & Hd2)].
  - cbn [remove_char List.filter split_dot fst snd]. rewrite app_nil_r, Hall. discriminate.
  - change (remove_char 44 [46%N; d1; d2]) with (46%N :: remove_char 44 [d1; d2]).
    assert (Hf : forallb is_digit [d1; d2] = true) by (cbn; now rewrite Hd1, Hd2).
    rewrite (remove_char_digits _ Hf).
    cbn [split_dot N.eqb Pos.eqb fst snd]. rewrite app_nil_r, Hall.
    unfold all_digits. rewrite Hf. discriminate.
Qed.

Lemma liability_patterns_ok :
  Forall (grp_ok I_flag amount_group) liability_patterns.
Proof.
  unfold liability_patterns.
  repeat (apply List.Forall_cons || apply List.Forall_nil);
    cbn; repeat split; auto;
    intros s rest H _; exact (amount_parses s rest H).
Qed.

Lemma cap_cascade_matched text : forall ps,
  Forall (grp_ok I_flag amount_group) ps ->
  forallb (sets 1) ps = true ->
  cap_cascade py_float ps text = Return ∅ ->
  unmatched I_flag ps text.
Proof.
  induction 1 as [|p ps Hp _ IH]; [constructor|].
  cbn [forallb cap_cascade]. intros [Hs Hss]%andb_true_iff.
  destruct (search I_flag p text) as [m|] eqn:E.
  - destruct (search_group _ _ _ _ 1%nat E Hs) as [g Hg]. rewrite Hg. cbv zeta.
    pose proof (search_sound I_flag amount_group text p m Hp E) as (_ & _ & _ & Hc).
    unfold group in Hg. destruct (cap_lookup 1 (m_caps m)) as [[a b]|] eqn:Ec;
      [|discriminate].
    injection Hg as <-. destruct (Hc _ _ _ Ec) as (_ & _ & Hq).
    destruct (py_float _) eqn:Ef; [|now destruct (Hq eq_refl)].
    intros Hins. apply (f_equal (fun o => match o with Return d => d | _ => ∅ end)) in Hins.
    exfalso. exact (insert_non_empty _ _ _ Hins).
  - intros Hr. constructor; [exact E | now apply IH].
Qed.

(** X19.  [extract_liability_cap] returns the empty record exactly when
    neither liability pattern matches: the amount a pattern captures
    (digits, groups of three after commas, two decimals) is always read
    by [float] once the commas are removed, so the handler of
    [ValueError] is never entered. *)
Theorem extract_liability_cap_empty_iff text :
  extract_liability_cap text = Return ∅ <-> unmatched I_flag liability_patterns text.
Proof.
  split.
  - apply cap_cascade_matched; [apply liability_patterns_ok | reflexivity].
  - apply cap_cascade_unmatched.
Qed.

End ExtractorMore.

(** ** The numerals a check converts *)

Section Numerals.
Import Py Re ReSpec RiskAuditEngine Spec2.

Lemma digit_runs_lower s : forall cur best, Z.max cur best <= digit_runs cur best s.
Proof.
  induction s as [|c s IH]; intros cur best; cbn [digit_runs]; [lia|].
  destruct (is_digit c).
  - specialize (IH (cur + 1) best). lia.
  - specialize (IH 0 (Z.max cur best)). lia.
Qed.

Lemma digit_runs_prefix g post :
  forallb is_digit g = true ->
  forall cur best, cur + len g <= digit_runs cur best (g ++ post).
Proof.
  induction g as [|c g IH]; intros Hg cur best.
  - pose proof (digit_runs_lower post cur best). unfold len. cbn [length app]. lia.
  - cbn [forallb] in Hg. apply andb_true_iff in Hg as [Hc Hg].
    cbn [app digit_runs]. rewrite Hc. specialize (IH Hg (cur + 1) best).
    unfold len in *. cbn [length]. lia.
Qed.

Lemma digit_runs_inside pre g post :
  forallb is_digit g = true ->
  forall cur best, 0 <= cur -> len g <= digit_runs cur best (pre ++ g ++ post).
Proof.
  intros Hg. induction pre as [|c pre IH]; intros cur best Hc.
  - pose proof (digit_runs_prefix g post Hg cur best). cbn [app]. lia.
  - cbn [app digit_runs]. destruct (is_digit c); apply IH; lia.
Qed.

(** A run of digits of the text is no longer than its longest one. *)
Lemma longest_digit_run_substr text a b :
  (a <= b)%nat -> (b <= length text)%nat ->
  forallb is_digit (substr text a b) = true ->
  len (substr text a b) <= longest_digit_run text.
Proof.
  intros Hab Hb Hd. unfold longest_digit_run.
  assert (Ht : text = firstn a text ++ substr text a b ++ skipn (b - a) (skipn a text)).
  { unfold substr. now rewrite firstn_skipn, firstn_skipn. }
  rewrite Ht at 2. apply digit_runs_inside; [exact Hd | lia].
Qed.

Lemma termination_notice_phrase_ok :
  grp_ok I_flag (fun n s => n = 1%nat -> forallb is_digit s = true)
         termination_notice_phrase.
Proof.
  unfold termination_notice_phrase. cbn.
  repeat match goal with |- _ /\ _ => split end; try exact I.
  intros s rest M _. unfold plus in M.
  inversion M as [| | |a b s1 s2 r Ma Mb| | | | |]; subst.
  apply matches_digit in Ma as (c & -> & Hc).
  apply matches_star_digits in Mb. cbn. now rewrite Hc.
Qed.

(** On a text whose numerals [int] reads, every numeral that
    [check_termination_notice] converts is a run of at most 4300 digits:
    [int(match.group(1))] does not raise there. *)
Lemma termination_notice_numerals_readable text :
  int_readable text ->
  Forall (fun m => forall g, group text m 1 = Some g ->
                     forallb is_digit g = true /\ len g <= 4300)
         (finditer I_flag termination_notice_phrase text).
Proof.
  intros Hr.
  pose proof (finditer_sound I_flag _ text _ termination_notice_phrase_ok) as Hs.
  eapply List.Forall_impl; [|exact Hs].
  intros m (_ & _ & _ & Hc) g Hg. unfold group in Hg.
  destruct (cap_lookup 1 (m_caps m)) as [[a b]|] eqn:E; [|discriminate].
  injection Hg as <-. destruct (Hc _ _ _ E) as (Hab & Hb & Hq).
  specialize (Hq eq_refl). split; [exact Hq|].
  pose proof (longest_digit_run_substr text a b Hab Hb Hq). unfold int_readable in Hr. lia.
Qed.

End Numerals.

(** ** Substitution and the file names of uploads *)

Section Files.
Import Py Re ReSpec ReSub PDFFiles Spec2.

Lemma search_go_bounds fl r s pos m :
  search_go fl r s pos = Some m -> (pos <= m_start m <= m_end m)%nat.
Proof.
  intros H. rewrite <- (repeat_length 0%N pos) in H.
  destruct (search_go_sound fl any_group (repeat 0%N pos ++ s) r (grp_ok_any fl r)
              s (repeat 0%N pos) m eq_refl H) as [Hle (Hse & _)].
  rewrite repeat_length in Hle. lia.
Qed.

Lemma finditer_go_starts fl r fuel s pos :
  starts_from pos (finditer_go fl r fuel s pos).
Proof.
  destruct fuel as [|fuel]; cbn [finditer_go]; [exact I|].
  destruct (search_go fl r s pos) as [m|] eqn:E; [|exact I].
  apply search_go_bounds in E.
  destruct (m_start m <? m_end m)%nat; [cbn; lia|].
  destruct (skipn _ s); cbn; lia.
Qed.

Lemma finditer_go_miss fl r fuel c s pos :
  match_here fl r (c :: s) pos = None ->
  finditer_go fl r fuel (c :: s) pos = finditer_go fl r fuel s (S pos).
Proof.
  intros H. destruct fuel as [|fuel]; [reflexivity|].
  cbn [finditer_go search_go]. rewrite H.
  destruct (search_go fl r s (S pos)) as [m|] eqn:E; [|reflexivity].
  apply search_go_bounds in E.
  replace (m_end m - pos)%nat with (S (m_end m - S pos)) by lia.
  reflexivity.
Qed.

Lemma splice_miss pre c s ms repl :
  starts_from (S (length pre)) ms ->
  splice (pre ++ c :: s) (length pre) ms repl =
  c :: splice (pre ++ c :: s) (S (length pre)) ms repl.
Proof.
  destruct ms as [|m ms]; cbn [starts_from splice]; intros H.
  - rewrite drop_app_length.
    replace (S (length pre)) with (length (pre ++ [c])) by (rewrite length_app; cbn; lia).
    replace (pre ++ c :: s) with ((pre ++ [c]) ++ s) by (now rewrite <- app_assoc).
    now rewrite drop_app_length.
  - unfold substr. rewrite drop_app_length.
    replace (m_start m - length pre)%nat with (S (m_start m - S (length pre))) by lia.
    cbn [firstn]. rewrite <- app_comm_cons. do 2 f_equal.
    replace (S (length pre)) with (length (pre ++ [c])) by (rewrite length_app; cbn; lia).
    replace (pre ++ c :: s) with ((pre ++ [c]) ++ s) by (now rewrite <- app_assoc).
    now rewrite drop_app_length.
Qed.

Lemma substr_empty text a : substr text a a = [].
Proof. unfold substr. now rewrite Nat.sub_diag. Qed.

Lemma snoc_step pre (c : N) s :
  pre ++ c :: s = (pre ++ [c]) ++ s /\ S (length pre) = length (pre ++ [c]).
Proof. rewrite <- app_assoc, length_app. cbn. split; [reflexivity | lia]. Qed.

(** [re.sub] for a pattern that is one character class: each character
    of the class is replaced. *)
Lemma sub_go_chr fl cs repl : forall s pre fuel,
  (length s < fuel)%nat ->
  splice (pre ++ s) (length pre) (finditer_go fl (Chr cs) fuel s (length pre)) repl =
  flat_map (fun c => if cset_has (IGNORECASE fl) cs c then repl else [c]) s.
Proof.
  induction s as [|c s IH]; intros pre fuel Hf.
  - destruct fuel as [|fuel]; [cbn in Hf; lia|].
    cbn. now rewrite drop_app_length.
  - cbn [flat_map]. destruct (cset_has (IGNORECASE fl) cs c) eqn:E.
    + destruct fuel as [|fuel]; [cbn in Hf; lia|].
      cbn [finditer_go search_go]. unfold match_here. cbn [mt]. rewrite E.
      cbn [m_start m_end].
      replace (length pre <? S (length pre))%nat with true
        by (symmetry; apply Nat.ltb_lt; lia).
      replace (S (length pre) - length pre)%nat with 1%nat by lia.
      cbn [skipn splice m_start m_end]. rewrite substr_empty. cbn [app].
      destruct (snoc_step pre c s) as [-> ->]. f_equal.
      apply IH. cbn in Hf. lia.
    + rewrite finditer_go_miss by (unfold match_here; cbn [mt]; now rewrite E).
      rewrite splice_miss by apply finditer_go_starts.
      cbn [app]. f_equal.
      destruct (snoc_step pre c s) as [-> ->].
      apply IH. cbn in Hf. lia.
Qed.

Lemma sub_chr fl cs repl text :
  sub fl (Chr cs) repl text =
  flat_map (fun c => if cset_has (IGNORECASE fl) cs c then repl else [c]) text.
Proof. unfold sub, finditer. apply (sub_go_chr fl cs repl text []). lia. Qed.

Lemma flat_map_drop (p : N -> bool) s :
  flat_map (fun c => if p c then [] else [c]) s = List.filter (fun c => negb (p c)) s.
Proof.
  induction s as [|c s IH]; [reflexivity|]. cbn. destruct (p c); cbn; now rewrite IH.
Qed.

Lemma mt_Cat {A} fl a b s pos cp (k : str -> nat -> caps -> option A) :
  mt fl (Cat a b) s pos cp k = mt fl a s pos cp (fun s1 p1 c1 => mt fl b s1 p1 c1 k).
Proof. reflexivity. Qed.

Lemma mt_Chr {A} fl cs c s pos cp (k : str -> nat -> caps -> option A) :
  mt fl (Chr cs) (c :: s) pos cp k =
  if cset_has (IGNORECASE fl) cs c then k s (S pos) cp else None.
Proof. reflexivity. Qed.

Lemma mt_Star {A} fl g a s pos cp (k : str -> nat -> caps -> option A) :
  mt fl (Star g a) s pos cp k = star_loop (mt fl a) g k (length s) s pos cp.
Proof. reflexivity. Qed.

(** A greedy repetition of one character class takes the whole run. *)
Lemma star_loop_chr {A} fl cs (k : str -> nat -> caps -> option A) :
  (forall s p c, k s p c <> None) ->
  forall s fuel pos cp, (length s <= fuel)%nat ->
    star_loop (mt fl (Chr cs)) true k fuel s pos cp =
    k (lstrip_by (cset_has (IGNORECASE fl) cs) s)
      (pos + (length s - length (lstrip_by (cset_has (IGNORECASE fl) cs) s)))%nat cp.
Proof.
  intros Hk. induction s as [|c s IH]; intros fuel pos cp Hf.
  - cbn [lstrip_by length]. rewrite Nat.sub_diag, Nat.add_0_r.
    destruct fuel; reflexivity.
  - destruct fuel as [|fuel]; [cbn in Hf; lia|].
    cbn [star_loop lstrip_by]. rewrite mt_Chr.
    destruct (cset_has (IGNORECASE fl) cs c) eqn:E.
    + replace (pos <? S pos)%nat with true by (symmetry; apply Nat.ltb_lt; lia).
      rewrite IH by (cbn in Hf; lia).
      pose proof (length_lstrip_by (cset_has (IGNORECASE fl) cs) s) as Hl.
      replace (S pos + (length s - length (lstrip_by (cset_has (IGNORECASE fl) cs) s)))%nat
        with (pos + (length (c :: s) - length (lstrip_by (cset_has (IGNORECASE fl) cs) s)))%nat
        by (cbn [length]; lia).
      destruct (k _ _ cp) eqn:Ek; [reflexivity|]. now apply Hk in Ek.
    + rewrite Nat.sub_diag, Nat.add_0_r. reflexivity.
Qed.

Lemma skipn_lstrip_by p s :
  skipn (length s - length (lstrip_by p s)) s = lstrip_by p s.
Proof.
  induction s as [|c s IH]; [reflexivity|]. cbn [lstrip_by].
  destruct (p c).
  - pose proof (length_lstrip_by p s) as Hl.
    replace (length (c :: s) - length (lstrip_by p s))%nat
      with (S (length s - length (lstrip_by p s))) by (cbn [length]; lia).
    exact IH.
  - now rewrite Nat.sub_diag.
Qed.

Lemma squeeze_in_run p repl s :
  squeeze p repl true s = squeeze p repl false (lstrip_by p s).
Proof.
  induction s as [|c s IH]; [reflexivity|]. cbn [squeeze lstrip_by].
  destruct (p c) eqn:E; [exact IH|]. cbn [squeeze]. now rewrite E.
Qed.

(** [re.sub] for a pattern [[...]+]: each run is replaced once. *)
Lemma sub_go_plus fl cs repl : forall n s pre fuel,
  (length s <= n)%nat -> (length s < fuel)%nat ->
  splice (pre ++ s) (length pre)
    (finditer_go fl (plus (Chr cs)) fuel s (length pre)) repl =
  squeeze (cset_has (IGNORECASE fl) cs) repl false s.
Proof.
  induction n as [|n IH]; intros s pre fuel Hn Hf.
  - destruct s; [|cbn in Hn; lia].
    destruct fuel as [|fuel]; [cbn in Hf; lia|]. cbn. now rewrite drop_app_length.
  - destruct s as [|c s].
    { destruct fuel as [|fuel]; [cbn in Hf; lia|]. cbn. now rewrite drop_app_length. }
    cbn [squeeze]. destruct (cset_has (IGNORECASE fl) cs c) eqn:E.
    + destruct fuel as [|fuel]; [cbn in Hf; lia|].
      set (p := cset_has (IGNORECASE fl) cs).
      set (run := (length s - length (lstrip_by p s))%nat).
      pose proof (length_lstrip_by p s) as Hl.
      assert (Hm : match_here fl (plus (Chr cs)) (c :: s) (length pre) =
                   Some {| m_start := length pre; m_end := S (length pre) + run;
                           m_caps := [] |}).
      { unfold match_here, plus. rewrite mt_Cat, mt_Chr, E.
        rewrite mt_Star, star_loop_chr by (discriminate || lia). reflexivity. }
      cbn [finditer_go search_go]. rewrite Hm. cbn [m_start m_end].
      replace (length pre <? S (length pre) + run)%nat with true
        by (symmetry; apply Nat.ltb_lt; lia).
      replace (S (length pre) + run - length pre)%nat with (S run) by lia.
      cbn [skipn splice m_start m_end]. rewrite substr_empty. cbn [app]. f_equal.
      replace (skipn run s) with (lstrip_by p s)
        by (symmetry; apply skipn_lstrip_by).
      rewrite squeeze_in_run.
      assert (Hs : s = firstn run s ++ lstrip_by p s).
      { rewrite <- (skipn_lstrip_by p s). symmetry. apply firstn_skipn. }
      assert (Hlen : length (pre ++ c :: firstn run s) = (S (length pre) + run)%nat).
      { rewrite length_app. cbn [length]. rewrite length_firstn. unfold run. lia. }
      rewrite <- Hlen.
      replace (pre ++ c :: s) with ((pre ++ c :: firstn run s) ++ lstrip_by p s)
        by (rewrite <- app_assoc, <- app_comm_cons; now rewrite <- Hs).
      apply IH; cbn [length] in *; lia.
    + assert (Hm : match_here fl (plus (Chr cs)) (c :: s) (length pre) = None).
      { unfold match_here, plus. cbn [mt]. now rewrite E. }
      rewrite finditer_go_miss by exact Hm.
      rewrite splice_miss by apply finditer_go_starts. f_equal.
      destruct (snoc_step pre c s) as [-> ->].
      apply IH; cbn [length] in *; lia.
Qed.

Lemma sub_plus fl cs repl text :
  sub fl (plus (Chr cs)) repl text =
  squeeze (cset_has (IGNORECASE fl) cs) repl false text.
Proof.
  unfold sub, finditer. apply (sub_go_plus fl cs repl (length text) text []); lia.
Qed.

Lemma unsafe_char_has c :
  cset_has false (CNot (cunion [word_chars; CSpace; chr1 "."; chr1 "-"])) c =
  negb (safe_char c || py_isspace c).
Proof.
  replace (cunion [word_chars; CSpace; chr1 "."; chr1 "-"])
    with (CUnion (CUnion (CRange 97 122) (CUnion (CRange 65 90)
                    (CUnion (CRange 48 57) (CChar 95))))
            (CUnion CSpace (CUnion (CChar 46) (CChar 45)))) by reflexivity.
  cbn [cset_has andb]. rewrite !orb_false_r. unfold safe_char, is_digit. f_equal.
  destruct (in_range 97 122 c), (in_range 65 90 c), (in_range 48 57 c),
    (c =? 95)%N, (py_isspace c), (c =? 46)%N, (c =? 45)%N; reflexivity.
Qed.

(** [_sanitize_filename], without the matcher. *)
Lemma sanitize_filename_eq filename :
  _sanitize_filename filename =
  squeeze py_isspace (lit "_") false
    (List.filter (fun c => safe_char c || py_isspace c) (Os.basename filename)).
Proof.
  unfold _sanitize_filename, unsafe_char, ws.
  rewrite sub_plus, sub_chr, flat_map_drop. cbn [IGNORECASE no_flags].
  change (cset_has false CSpace) with py_isspace.
  f_equal. apply filter_ext. intros c. now rewrite unsafe_char_has, negb_involutive.
Qed.

Lemma squeeze_chars p repl (K : N -> Prop) : forall s b,
  List.Forall K repl -> List.Forall (fun c => p c = false -> K c) s ->
  List.Forall K (squeeze p repl b s).
Proof.
  induction s as [|c s IH]; intros b Hr Hs; cbn [squeeze]; [constructor|].
  inversion Hs as [|? ? Hc Hs']; subst.
  destruct (p c) eqn:E.
  - destruct b; [now apply IH|]. apply List.Forall_app. split; [exact Hr | now apply IH].
  - constructor; [now apply Hc | now apply IH].
Qed.

Lemma squeeze_none p repl : forall s b,
  List.Forall (fun c => p c = false) s -> squeeze p repl b s = s.
Proof.
  induction s as [|c s IH]; intros b Hs; cbn [squeeze]; [reflexivity|].
  inversion Hs as [|? ? Hc Hs']; subst. rewrite Hc. f_equal. now apply IH.
Qed.

Lemma safe_char_facts c :
  safe_char c = true -> py_isspace c = false /\ c <> Os.sep /\ (c < 128)%N.
Proof.
  unfold safe_char, py_isspace, is_digit, in_range, Os.sep. intros H.
  repeat match type of H with
         | (_ || _) = true => apply orb_true_iff in H as [H|H]
         | (_ && _) = true => apply andb_true_iff in H as [? ?]
         end;
    repeat match goal with
           | H : (_ <=? _)%N = true |- _ => apply N.leb_le in H
           | H : (_ =? _)%N = true |- _ => apply N.eqb_eq in H
           end;
    (split; [|split; lia]);
    repeat (apply orb_false_iff; split);
    try (apply andb_false_iff;
         first [left; apply N.leb_gt; lia | right; apply N.leb_gt; lia]);
    try (apply N.eqb_neq; lia).
Qed.

Lemma sanitize_filename_safe filename : safe_name (_sanitize_filename filename).
Proof.
  rewrite sanitize_filename_eq. apply squeeze_chars.
  - repeat constructor.
  - apply List.Forall_forall. intros c Hc Hsp.
    apply filter_In in Hc as [_ Hc]. rewrite Hsp, orb_false_r in Hc. exact Hc.
Qed.

Lemma basename_no_sep p : ~ In Os.sep (Os.basename p).
Proof.
  induction p as [|c p IH]; cbn [Os.basename]; [intros []|].
  destruct (existsb (N.eqb Os.sep) p) eqn:E; [exact IH|].
  assert (Hp : ~ In Os.sep p).
  { intros Hin. assert (existsb (N.eqb Os.sep) p = true); [|congruence].
    apply existsb_exists. exists Os.sep. split; [exact Hin | apply N.eqb_refl]. }
  destruct (c =? Os.sep)%N eqn:Ec; [exact Hp|].
  intros [->|Hin]; [now rewrite N.eqb_refl in Ec | now apply Hp].
Qed.

Lemma basename_plain p : ~ In Os.sep p -> Os.basename p = p.
Proof.
  destruct p as [|c p]; [reflexivity|]. intros Hp. cbn [Os.basename].
  assert (E : existsb (N.eqb Os.sep) p = false).
  { destruct (existsb (N.eqb Os.sep) p) eqn:E; [|reflexivity].
    apply existsb_exists in E as (x & Hin & Hx). apply N.eqb_eq in Hx as <-.
    exfalso. apply Hp. now right. }
  rewrite E. destruct (c =? Os.sep)%N eqn:Ec; [|reflexivity].
  apply N.eqb_eq in Ec as ->. exfalso. apply Hp. now left.
Qed.


Lemma sanitize_filename_fixed filename :
  safe_name filename -> _sanitize_filename filename = filename.
Proof.
  intros Hs. rewrite sanitize_filename_eq.
  assert (Hsep : ~ In Os.sep filename).
  { intros Hin. apply (proj1 (List.Forall_forall _ _) Hs) in Hin.
    now apply safe_char_facts in Hin as (_ & Hne & _). }
  rewrite basename_plain by exact Hsep.
  assert (Hf : List.filter (fun c => safe_char c || py_isspace c) filename = filename).
  { clear Hsep. induction Hs as [|c s Hc Hs IH]; [reflexivity|].
    cbn. rewrite Hc. cbn. now rewrite IH. }
  rewrite Hf. apply squeeze_none.
  eapply List.Forall_impl; [|exact Hs]. intros c Hc. now apply safe_char_facts in Hc.
Qed.

(** X20. [_sanitize_filename]: for an ASCII file name, whatever it holds
    (directories, blanks, control characters, shell characters), the result
    is made of letters, digits, [_], [.] and [-] only; it holds no [/] and
    no blank. *)
Theorem sanitize_filename_safe_chars filename :
  ascii_text filename ->
  safe_name (_sanitize_filename filename) /\
  ~ In Os.sep (_sanitize_filename filename) /\
  List.Forall (fun c => py_isspace c = false) (_sanitize_filename filename).
Proof.
  intros _. pose proof (sanitize_filename_safe filename) as Hs.
  split; [exact Hs|]. split.
  - intros Hin. apply (proj1 (List.Forall_forall _ _) Hs) in Hin.
    now apply safe_char_facts in Hin as (_ & Hne & _).
  - eapply List.Forall_impl; [|exact Hs]. intros c Hc. now apply safe_char_facts in Hc.
Qed.

Lemma sanitize_filename_safe_chars_witness :
  safe_name (_sanitize_filename (lit "../../etc/my file (v2).pdf")) /\
  ~ In Os.sep (_sanitize_filename (lit "../../etc/my file (v2).pdf")) /\
  List.Forall (fun c => py_isspace c = false)
    (_sanitize_filename (lit "../../etc/my file (v2).pdf")).
Proof.
  apply (sanitize_filename_safe_chars (lit "../../etc/my file (v2).pdf")).
  unfold ascii_text. cbn [lit].
  repeat (apply List.Forall_cons; [vm_compute; reflexivity|]). apply List.Forall_nil.
Defined.

(** X21. [_sanitize_filename] leaves a name made of letters, digits,
    [_], [.] and [-] as it is. *)
Theorem sanitize_filename_keeps_safe_names filename :
  safe_name filename -> _sanitize_filename filename = filename.
Proof. apply sanitize_filename_fixed. Qed.

Lemma sanitize_filename_keeps_safe_names_witness :
  _sanitize_filename (lit "contract-2024_v2.pdf") = lit "contract-2024_v2.pdf".
Proof.
  apply (sanitize_filename_keeps_safe_names (lit "contract-2024_v2.pdf")).
  unfold safe_name. cbn [lit].
  repeat (apply List.Forall_cons; [vm_compute; reflexivity|]). apply List.Forall_nil.
Defined.

(** X22. [_sanitize_filename] is idempotent on ASCII names: sanitising a
    sanitised name changes nothing. *)
Theorem sanitize_filename_idempotent filename :
  ascii_text filename ->
  _sanitize_filename (_sanitize_filename filename) = _sanitize_filename filename.
Proof. intros _. apply sanitize_filename_fixed, sanitize_filename_safe. Qed.

Lemma sanitize_filename_idempotent_witness :
  _sanitize_filename (_sanitize_filename (lit "a b/c  d$.pdf")) =
  _sanitize_filename (lit "a b/c  d$.pdf").
Proof.
  apply (sanitize_filename_idempotent (lit "a b/c  d$.pdf")).
  unfold ascii_text. cbn [lit].
  repeat (apply List.Forall_cons; [vm_compute; reflexivity|]). apply List.Forall_nil.
Defined.




End Files.

(** ** The pages of a PDF *)

Section Pages.
Import Py PDFFiles Spec2.

Lemma slice_mid {A} (x y z : list A) :
  slice (x ++ y ++ z) (len x) (len x + len y) = y.
Proof.
  unfold slice, clamp_index, len. rewrite !length_app.
  destruct (Z.of_nat (length x) <? 0) eqn:E1; [apply Z.ltb_lt in E1; lia|].
  destruct (Z.of_nat (length x) + Z.of_nat (length y) <? 0) eqn:E2;
    [apply Z.ltb_lt in E2; lia|].
  rewrite !Z.min_l by lia.
  replace (Z.to_nat (Z.of_nat (length x) + Z.of_nat (length y) - Z.of_nat (length x)))
    with (length y) by lia.
  rewrite Nat2Z.id, drop_app_length. apply take_app_length.
Qed.

Lemma page_entry_lookup n t ft :
  page_entry n t ft !! "page_number" = Some (VInt n) /\
  page_entry n t ft !! "text" = Some (VStr t) /\
  page_entry n t ft !! "char_start" = Some (VInt (len ft - len t)) /\
  page_entry n t ft !! "char_end" = Some (VInt (len ft)).
Proof. unfold page_entry. repeat split; by simplify_map_eq. Qed.

Lemma extract_pages_inv num_pages : forall pages k ft pd,
  k + len pages - 1 <= num_pages ->
  exists ext new,
    extract_pages pages k ft pd = (ft ++ ext, pd ++ new) /\
    (length new <= length pages)%nat /\
    forall pre, len pre = len ft -> pages_in (pre ++ ext) num_pages k (len pre) new.
Proof.
  induction pages as [|page pages IH]; intros k ft pd Hk.
  - exists [], []. cbn [extract_pages]. rewrite !app_nil_r.
    split; [reflexivity|]. split; [cbn [length]; lia|].
    intros pre _. cbn. now rewrite app_nil_r.
  - assert (Hk' : k + 1 + len pages - 1 <= num_pages).
    { unfold len in *. cbn [length] in Hk. lia. }
    assert (Hskip : exists ext new,
              extract_pages pages (k + 1) ft pd = (ft ++ ext, pd ++ new) /\
              (length new <= length (page :: pages))%nat /\
              forall pre, len pre = len ft ->
                pages_in (pre ++ ext) num_pages k (len pre) new).
    { destruct (IH (k + 1) ft pd Hk') as (ext & new & He & Hl & Hp).
      exists ext, new. split; [exact He|]. split; [cbn [length]; lia|].
      intros pre Hpre. specialize (Hp pre Hpre).
      clear - Hp. revert Hp. generalize (len pre) as pos. generalize (pre ++ ext) as txt.
      intros txt pos. destruct new as [|e new]; cbn [pages_in]; [auto|].
      intros (n & t & H1 & H2 & H3 & H4 & H5 & H). exists n, t.
      repeat (split; [assumption || lia|]). exact H. }
    cbn [extract_pages]. destruct page as [[|c t]|]; [exact Hskip| |exact Hskip].
    set (pt := c :: t). set (hd := page_header k).
    destruct (IH (k + 1) (ft ++ hd ++ pt) (pd ++ [page_entry k pt (ft ++ hd ++ pt)]) Hk')
      as (ext & new & He & Hl & Hp).
    exists (hd ++ pt ++ ext), (page_entry k pt (ft ++ hd ++ pt) :: new).
    split; [rewrite He; f_equal; now rewrite <- !app_assoc|].
    split; [cbn [length]; lia|].
    intros pre Hpre. cbn [pages_in]. exists k, pt.
    destruct (page_entry_lookup k pt (ft ++ hd ++ pt)) as (L1 & L2 & L3 & L4).
    assert (Hlen : len (ft ++ hd ++ pt) = len pre + len hd + len pt).
    { unfold len in *. rewrite !length_app. lia. }
    split; [exact L1|]. split; [exact L2|].
    split; [rewrite L3; do 2 f_equal; fold hd; lia|].
    split; [rewrite L4; do 2 f_equal; fold hd; lia|].
    split; [unfold len in *; cbn [length] in Hk; lia|].
    split; [discriminate|]. fold hd.
    split; [apply slice_mid|].
    split.
    + replace (pre ++ hd ++ pt ++ ext) with ((pre ++ hd) ++ pt ++ ext)
        by (now rewrite <- app_assoc).
      replace (len pre + len hd) with (len (pre ++ hd))
        by (unfold len; rewrite length_app; lia).
      apply slice_mid.
    + specialize (Hp (pre ++ hd ++ pt)).
      replace (len pre + len hd + len pt) with (len (pre ++ hd ++ pt))
        by (unfold len; rewrite !length_app; lia).
      replace (pre ++ hd ++ pt ++ ext) with ((pre ++ hd ++ pt) ++ ext)
        by (now rewrite <- !app_assoc).
      apply Hp. unfold len in *. rewrite !length_app in *. lia.
Qed.

(** X24. [extract_text_from_pdf]: when the reader opens the file, the call
    returns the number of pages and, for the pages that gave text, records
    that index the full text: the full text is exactly, page after page,
    the header of the page and its text, [char_start] and [char_end] are
    the span of that text in the full text, and the page numbers grow from
    1 up to at most the number of pages. *)
Theorem extract_text_from_pdf_page_spans pages :
  exists full_text page_data,
    extract_text_from_pdf (Return pages) = Return (full_text, len pages, page_data) /\
    len page_data <= len pages /\
    pages_in full_text (len pages) 1 0 page_data.
Proof.
  destruct (extract_pages_inv (len pages) pages 1 [] []) as (ext & new & He & Hl & Hp);
    [lia|].
  exists ext, new. unfold extract_text_from_pdf. rewrite He. cbn [app].
  split; [reflexivity|]. split; [unfold len; lia|].
  apply (Hp [] eq_refl).
Qed.

End Pages.

(** ** Sections and citations of the API *)

Section Sections.
Import Py Re ReSpec Api RAGEngine Spec Spec2.

Lemma len_slice_to_short {A} (s : list A) k :
  0 <= k -> k < len s -> len (slice_to s k) = k.
Proof.
  intros H0 Hk. unfold slice_to, slice, clamp_index, len in *. cbn [Z.ltb Z.compare].
  destruct (Z.ltb_spec k 0); [lia|].
  rewrite length_firstn, length_skipn. lia.
Qed.

Lemma len_app {A} (a b : list A) : len (a ++ b) = len a + len b.
Proof. unfold len. rewrite length_app. lia. Qed.

(** X25. [_extract_section]: with a [max_length] that is not negative the
    result has at most [max_length + 3] characters, the three being the
    dots that mark a cut; so a section given back can be longer than
    [max_length]. *)
Theorem extract_section_length text keywords max_length :
  0 <= max_length ->
  len (_extract_section text keywords max_length) <= max_length + 3.
Proof.
  intros Hm. induction keywords as [|kw kws IH]; cbn [_extract_section].
  - unfold len. cbn [length]. lia.
  - destruct (section_search kw text) as [m|]; [|exact IH].
    cbv zeta. destruct (Z.ltb_spec max_length (len (strip (group0 text m)))).
    + rewrite len_app, len_slice_to_short by lia. unfold len. cbn [lit length]. lia.
    + lia.
Qed.

Lemma extract_section_length_witness :
  len (_extract_section (lit "Payment is due in 30 days." ++ [newline])
                        [lit "payment"] 10) <= 10 + 3.
Proof.
  apply (extract_section_length (lit "Payment is due in 30 days." ++ [newline])
           [lit "payment"] 10).
  lia.
Defined.

Lemma section_search_go_sound kw text : forall s pre b m,
  text = pre ++ s ->
  section_search_go kw b s (length pre) = Some m ->
  exists b', sound_match IM_flags any_group (section_here kw b') text m.
Proof.
  induction s as [|c s IH]; intros pre b m Ht H; cbn [section_search_go] in H.
  - destruct (match_here IM_flags (section_here kw b) [] (length pre)) eqn:E;
      [|discriminate].
    injection H as ->. exists b.
    exact (proj2 (match_here_sound IM_flags any_group text _ pre [] m
                    (grp_ok_any _ _) Ht E)).
  - destruct (match_here IM_flags (section_here kw b) (c :: s) (length pre)) eqn:E.
    + injection H as ->. exists b.
      exact (proj2 (match_here_sound IM_flags any_group text _ pre _ m
                      (grp_ok_any _ _) Ht E)).
    + destruct (snoc_step pre c s) as [Hs Hl]. rewrite Hl in H.
      apply (IH (pre ++ [c]) (c =? newline)%N m); [now rewrite <- Hs | exact H].
Qed.

Lemma matches_nl fl s rest : matches fl nl s rest -> s = [newline].
Proof.
  unfold nl. inversion 1 as [|cs c r Hc| | | | | | |]; subst. f_equal.
  cbn [cset_has] in Hc. apply orb_true_iff in Hc as [Hc|Hc].
  - now apply N.eqb_eq in Hc.
  - apply andb_true_iff in Hc as [_ Hc]. apply N.eqb_eq in Hc.
    unfold lower_char, newline in *. destruct (in_range 65 90 c) eqn:E; [|exact Hc].
    unfold in_range in E. apply andb_true_iff in E as [E1 E2].
    apply N.leb_le in E1. cbn in Hc. lia.
Qed.

Lemma matches_section_body fl kw s rest :
  matches fl (section_body kw) s rest -> In newline s.
Proof.
  unfold section_body. cbn [seq]. intros M.
  inversion M as [| | | | | | | |n a s0 r M1]; subst. clear M.
  inversion M1 as [| | |a b s1 s2 r Ma M2| | | | |]; subst. clear M1 Ma.
  inversion M2 as [| | |a b s3 s4 r Mb M3| | | | |]; subst. clear M2 Mb.
  inversion M3 as [| | |a b s5 s6 r Mc M4| | | | |]; subst. clear M3 Mc.
  inversion M4 as [| | |a b s7 s8 r Md M5| | | | |]; subst. clear M4 M5.
  apply matches_nl in Md as ->.
  apply in_or_app. right. apply in_or_app. right. apply in_or_app. right.
  now left.
Qed.

Lemma matches_section_here fl kw b s rest :
  matches fl (section_here kw b) s rest -> In newline s.
Proof.
  assert (Hcat : forall s rest, matches fl (Cat nl (section_body kw)) s rest ->
                   In newline s).
  { intros s0 r M. inversion M as [| | |a c s1 s2 r' Ma Mb| | | | |]; subst.
    apply in_or_app. right. eapply matches_section_body, Mb. }
  unfold section_here. destruct b; [|apply Hcat].
  intros M. inversion M as [| | | |a c s0 r Ma|a c s0 r Mb| | |]; subst.
  - eapply matches_section_body, Ma.
  - eapply Hcat, Mb.
Qed.

Lemma In_substr (text : str) a b c : In c (substr text a b) -> In c text.
Proof.
  unfold substr. intros H. apply firstn_In in H.
  rewrite <- (firstn_skipn a text). apply in_or_app. now right.
Qed.

Lemma section_search_needs_newline kw text :
  ~ In newline text -> section_search kw text = None.
Proof.
  intros Hn. unfold section_search.
  destruct (section_search_go kw true text 0) as [m|] eqn:E; [|reflexivity].
  exfalso. apply Hn.
  destruct (section_search_go_sound kw text text [] true m eq_refl E)
    as (b & _ & _ & M & _).
  apply matches_section_here in M. eapply In_substr, M.
Qed.

(** X26. [_extract_section] finds a keyword only in a line that ends with
    a newline: for a text without a newline the result is the empty
    string, whatever the keywords (plain words, as the callers pass) and
    even if the text holds them. *)
Theorem extract_section_needs_newline text keywords max_length :
  List.Forall plain_keyword keywords -> ~ In newline text ->
  _extract_section text keywords max_length = [].
Proof.
  intros _ Hn. induction keywords as [|kw kws IH]; cbn [_extract_section];
    [reflexivity|].
  now rewrite section_search_needs_newline.
Qed.

Lemma extract_section_needs_newline_witness :
  _extract_section (lit "Payment is due within 30 days.")
                   [lit "payment"; lit "compensation"] 500 = [].
Proof.
  apply (extract_section_needs_newline (lit "Payment is due within 30 days.")
           [lit "payment"; lit "compensation"] 500).
  - unfold plain_keyword. cbn [lit].
    repeat (apply List.Forall_cons;
            [repeat (apply List.Forall_cons; [vm_compute; reflexivity|]);
             apply List.Forall_nil|]).
    apply List.Forall_nil.
  - vm_compute. intros H. repeat (destruct H as [H|H]; [discriminate|]). exact H.
Defined.

Lemma excerpt_length text : len (excerpt text) <= 203.
Proof.
  unfold excerpt. destruct (Z.ltb_spec 200 (len text)); [|lia].
  rewrite len_app, len_slice_to_short by lia. unfold len. cbn [lit length]. lia.
Qed.

Lemma excerpt_nonempty text : text <> [] -> excerpt text <> [].
Proof.
  intros Ht. unfold excerpt. destruct (200 <? len text); [|exact Ht].
  intros H. apply app_eq_nil in H as [_ H]. discriminate.
Qed.

(** X27. The citations of an answer: for a [max_results] that is not
    negative (the request schema keeps it between 1 and 20), the citation
    loop visits the smallest of 5, [max_results] and the number of chunks
    that share a token with the question; each chunk visited holds a text
    that is a string, and its excerpt is not empty and has at most 203
    characters. *)
Theorem ask_citations question all_chunks max_results :
  Forall text_is_str all_chunks -> 0 <= max_results ->
  exists relevant_chunks,
    semantic_search question all_chunks max_results = Return relevant_chunks /\
    len (cited relevant_chunks) =
      Z.min 5 (Z.min max_results (len (qualifying question all_chunks))) /\
    Forall (fun chunk =>
              exists text, chunk !! "text_content" = Some (VStr text) /\
                excerpt text <> [] /\ len (excerpt text) <= 203)
           (cited relevant_chunks).
Proof.
  intros Hs Hk. eexists. split; [apply (semantic_search_eq _ _ _ Hs)|].
  set (result := slice_to _ max_results).
  assert (Hlen : len result = Z.min max_results (len (qualifying question all_chunks))).
  { unfold result. rewrite len_slice_to by exact Hk. f_equal. unfold len. f_equal.
    apply (Permutation_length (sort_desc_perm relevance _)). }
  split.
  - unfold cited. rewrite len_slice_to by lia. now rewrite Hlen.
  - pose proof (semantic_search_result_records question all_chunks max_results result
                  (semantic_search_eq _ _ _ Hs)) as Hr.
    apply List.Forall_forall. intros chunk Hin.
    unfold cited in Hin. rewrite slice_to_firstn in Hin. apply firstn_In in Hin.
    apply (proj1 (List.Forall_forall _ _) Hr) in Hin as ((text & Ht & Hne) & _).
    exists text. split; [exact Ht|]. split; [now apply excerpt_nonempty|].
    apply excerpt_length.
Qed.

Lemma ask_citations_witness :
  exists relevant_chunks,
    semantic_search (lit "payment") [doc 1 "the payment"; doc 2 "nothing here"] 5
      = Return relevant_chunks /\
    len (cited relevant_chunks) =
      Z.min 5 (Z.min 5 (len (qualifying (lit "payment")
                               [doc 1 "the payment"; doc 2 "nothing here"]))) /\
    Forall (fun chunk =>
              exists text, chunk !! "text_content" = Some (VStr text) /\
                excerpt text <> [] /\ len (excerpt text) <= 203)
           (cited relevant_chunks).
Proof.
  apply (ask_citations (lit "payment") [doc 1 "the payment"; doc 2 "nothing here"] 5);
    [|lia].
  repeat (apply List.Forall_cons; [vm_compute; exact I|]). apply List.Forall_nil.
Defined.

End Sections.

(** ** The summary of an audit *)

Section Summary.
Import Py RiskAuditEngine AuditSummary Spec Spec2.

Lemma count_severity_cons sev f fs :
  count_severity sev (f :: fs) =
  (match dict_get f "severity" with
   | VStr s => if str_eqb s (lit sev) then 1 else 0
   | _ => 0
   end) + count_severity sev fs.
Proof.
  unfold count_severity, len. cbn [List.filter].
  destruct (dict_get f "severity") as [| | |s]; try lia.
  destruct (str_eqb s (lit sev)); cbn [length]; lia.
Qed.

Lemma total_weight_counts findings :
  total_weight findings =
  30 * count_severity "high" findings + 15 * count_severity "medium" findings +
  5 * (len findings - count_severity "high" findings - count_severity "medium" findings).
Proof.
  induction findings as [|f fs IH].
  - reflexivity.
  - unfold total_weight in *. cbn [map fold_right]. rewrite IH.
    rewrite !count_severity_cons. unfold len. cbn [length]. rewrite Nat2Z.inj_succ.
    unfold severity_weight, dict_get_default, dict_get, str_val.
    destruct (f !! "severity") as [[| | |s]|]; try lia.
    + unfold str_eqb.
      destruct (decide (s = lit "high")) as [->|];
        [destruct (decide (lit "high" = lit "medium")); [discriminate|lia]|].
      destruct (decide (s = lit "medium")); [lia|].
      destruct (decide (s = lit "low")); lia.
    + replace (str_eqb (lit "low") (lit "high")) with false by reflexivity.
      replace (str_eqb (lit "low") (lit "medium")) with false by reflexivity.
      replace (str_eqb (lit "low") (lit "low")) with true by reflexivity. lia.
Qed.

(** X28. The counts of the simple summary give the risk score: for any
    list of findings the score is [min(30 high + 15 medium + 5 others,
    100)], where [high] and [medium] are the counts the summary prints and
    the others are all remaining findings, whatever their severity. *)
Theorem summary_counts_give_score findings :
  calculate_risk_score findings =
  Z.min (30 * count_severity "high" findings + 15 * count_severity "medium" findings +
         5 * (len findings - count_severity "high" findings
              - count_severity "medium" findings)) 100.
Proof. now rewrite calculate_risk_score_eq, total_weight_counts. Qed.

Lemma RISK_RULES_severities r :
  In r RISK_RULES ->
  severity r = "high"%string \/ severity r = "medium"%string \/ severity r = "low"%string.
Proof.
  unfold RISK_RULES. cbn [In]. intros H.
  repeat (destruct H as [<-|H]; [cbn; auto|]). contradiction.
Qed.

(** X29. The counts of the simple summary add up for the findings of an
    audit with the rule table of the source: every finding is counted as
    high, medium or low, so the three counts sum to the number of issues
    the summary announces. *)
Theorem audit_summary_counts_add_up model text data :
  let findings := fst (audit (init model) text data) in
  count_severity "high" findings + count_severity "medium" findings +
  count_severity "low" findings = len findings.
Proof.
  cbv zeta.
  assert (H : Forall (fun f => exists sev,
                        f !! "severity" = Some (str_val sev) /\
                        (sev = "high" \/ sev = "medium" \/ sev = "low")%string)
                     (fst (audit (init model) text data))).
  { apply audit_findings_have. intros r Hr. apply RISK_RULES_severities in Hr.
    apply rule_findings_have.
    - intros m. exists (severity r). split; [|exact Hr]. unfold pattern_finding.
      rewrite lookup_insert_ne by discriminate. apply lookup_insert_eq.
    - intros result. exists (severity r). split; [|exact Hr]. unfold check_finding.
      rewrite lookup_insert_ne by discriminate. apply lookup_insert_eq. }
  induction H as [|f fs [sev [Hf Hsev]] _ IH]; [reflexivity|].
  rewrite !count_severity_cons. unfold len in *. cbn [length]. rewrite Nat2Z.inj_succ.
  unfold dict_get. rewrite Hf. unfold str_val.
  destruct Hsev as [-> | [-> | ->]];
    repeat match goal with
           | |- context [str_eqb (lit ?a) (lit ?b)] =>
               let v := eval vm_compute in (str_eqb (lit a) (lit b)) in
               replace (str_eqb (lit a) (lit b)) with v by reflexivity
           end; lia.
Qed.

End Summary.
